(** * Block-cipher core of the chat client: Twofish-style and MacGuffin-style
    Feistel engines, their key schedules, and the mode/padding session.

    The development embeds the TypeScript sources shallowly.  JavaScript
    numbers that hold integers are [Z]; the 32-bit coercions performed by the
    bitwise operators are written out ([ToInt32], [ToUint32]); typed arrays
    and plain arrays are lists, read with [idx] (out of range: [undefined])
    and written with stdpp's list insert (out of range: no effect, as for a
    typed array).  Code that throws returns [Throw]. *)

From Stdlib Require Import ZArith Lia List Bool.
From stdpp Require Import base list.
From coqutil Require Import Z.bitblast.
Import ListNotations.
Open Scope Z_scope.

(** ** JavaScript numbers, bitwise operators and arrays *)

Module JS.

(** [ToInt32] and [ToUint32] of ECMAScript on an integer-valued number. *)
Definition ToInt32 (z : Z) : Z :=
  let u := z mod 2^32 in if u <? 2^31 then u else u - 2^32.

Definition ToUint32 (z : Z) : Z := z mod 2^32.

(** Conversions applied when a number is stored in a typed array. *)
Definition ToUint8 (z : Z) : Z := z mod 2^8.
Definition ToUint16 (z : Z) : Z := z mod 2^16.

(** [a & b], [a | b], [a ^ b]: both operands go through [ToInt32]. *)
Definition band (a b : Z) : Z := Z.land (ToInt32 a) (ToInt32 b).
Definition bor (a b : Z) : Z := Z.lor (ToInt32 a) (ToInt32 b).
Definition bxor (a b : Z) : Z := Z.lxor (ToInt32 a) (ToInt32 b).

(** [a << k], [a >> k], [a >>> k]: the shift count is taken modulo 32. *)
Definition shl (a k : Z) : Z := ToInt32 (Z.shiftl (ToInt32 a) (k mod 32)).
Definition sar (a k : Z) : Z := Z.shiftr (ToInt32 a) (k mod 32).
Definition shr (a k : Z) : Z := Z.shiftr (ToUint32 a) (k mod 32).

(** [a % b] on integers (the sign follows the dividend). *)
Definition rem (a b : Z) : Z := Z.rem a b.

(** [l[i]]: [None] is [undefined]. *)
Definition idx {A} (l : list A) (i : Z) : option A :=
  if i <? 0 then None else l !! Z.to_nat i.

(** A read whose value is consumed by a bitwise operator or stored into a
    typed array: [undefined] is coerced to [0] there. *)
Definition get (l : list Z) (i : Z) : Z := default 0 (idx l i).

(** [x + y] where [y] may be [undefined]: the sum is then [NaN] ([None]). *)
Definition add (x : Z) (y : option Z) : option Z :=
  match y with Some v => Some (x + v) | None => None end.

(** A possibly-[NaN] number used as a bitwise operand ([NaN] becomes [0]). *)
Definition num (v : option Z) : Z := default 0 v.

(** [l[i] = v] on a typed array or on an index below the length. *)
Definition set (l : list Z) (i : Z) (v : Z) : list Z :=
  if i <? 0 then l else <[Z.to_nat i := v]> l.

Definition len {A} (l : list A) : Z := Z.of_nat (length l).

(** [a.slice(from, to)] and [a.subarray(from, to)] for [0 <= from]. *)
Definition slice {A} (l : list A) (from to : Z) : list A :=
  take (Z.to_nat (to - from)) (drop (Z.to_nat from) l).

(** [a.slice(from)]. *)
Definition slice_from {A} (l : list A) (from : Z) : list A :=
  drop (Z.to_nat from) l.

(** [m[r][c]] where [m] is a literal table of the sources and [r] one of
    its rows: the value read.  Only the constant matrices are read this way
    ([MDS_MATRIX], [RS_MATRIX], the four mask rows of MacGuffin), always at a
    row they have; a table built at run time is read with [get2] below. *)
Definition table_entry (m : list (list Z)) (r c : Z) : Z := get (default [] (idx m r)) c.

(** The integers [a, a+1, ..., a+n-1] visited by a counting [for] loop. *)
Definition range (a : Z) (n : nat) : list Z := map (fun i => a + Z.of_nat i) (seq 0 n).

End JS.

Declare Scope js_scope.
Delimit Scope js_scope with js.
Infix ".&" := JS.band (at level 52, left associativity) : js_scope.
Infix ".^" := JS.bxor (at level 53, left associativity) : js_scope.
Infix ".|" := JS.bor (at level 54, left associativity) : js_scope.
Infix "<<" := JS.shl (at level 51, left associativity) : js_scope.
Infix ">>" := JS.sar (at level 51, left associativity) : js_scope.
Infix ">>>" := JS.shr (at level 51, left associativity) : js_scope.
Notation "l .[ i ]" := (JS.get l i) (at level 1, left associativity, format "l .[ i ]") : js_scope.
Open Scope js_scope.

(** ** Thrown errors

    The sources throw plain [Error] objects; one constructor stands for each
    throwing site, named after the failure it reports. *)

Inductive CipherMode := ECB | CBC | PCBC | CFB | OFB | CTR | RANDOM_DELTA | OtherMode.

Inductive CipherPadding := Zeros | ANSIX923 | PKCS7 | ISO10126 | OtherPadding.

Inductive error :=
| NotImplemented_getBlockSizeBytes   (* IBlockCipher.getBlockSizeBytes stub *)
| NotImplemented_encryptBlock        (* IBlockCipher.encryptBlock stub *)
| NotImplemented_decryptBlock        (* IBlockCipher.decryptBlock stub *)
| TypeError                          (* an element read of [undefined] *)
| XorLengthMismatch                  (* xorBytes: arrays of different length *)
| RangeError                         (* typed-array / DataView range check *)
| InvalidKeyLength                   (* setMasterKey *)
| InvalidIvLength                    (* setIv *)
| RoundKeysNotSet                    (* encrypt / decrypt without a key *)
| EmptyData                          (* encrypt of empty data *)
| EmptyOrMisaligned                  (* decrypt of empty or misaligned data *)
| MissingIv (m : CipherMode)         (* a chaining mode without an IV *)
| UnsupportedMode
| SBoxesNotSet
| RoundKeysNotDefined
| BadCiphertextLength                (* twoFish decryptBlock: not 16 bytes *)
| MisalignedPadded                   (* _removePadding: length not a multiple *)
| PaddingLengthInvalid (p : CipherPadding)
| PaddingBytesInvalid (p : CipherPadding)
| PaddingLongerThanData
| UnknownPadding.

Inductive result (A : Type) :=
| Ok (a : A)
| Throw (e : error).
Arguments Ok {A} a.
Arguments Throw {A} e.

Definition rbind {A B} (r : result A) (k : A -> result B) : result B :=
  match r with Ok a => k a | Throw e => Throw e end.

Notation "'let*' x ':=' r 'in' k" := (rbind r (fun x => k))
  (at level 10, x pattern, r at level 100, k at level 200).

(** [m[r][c]] on an array of arrays: when [m] has no row [r], [m[r]] is
    [undefined] and the element read throws a [TypeError]; a missing element
    of an existing row is [undefined], coerced to [0] by the bitwise
    operators that consume it. *)
Definition get2 (m : list (list Z)) (r c : Z) : result Z :=
  match JS.idx m r with
  | Some row => Ok (JS.get row c)
  | None => Throw TypeError
  end.

(** A [for] loop whose body may throw. *)
Fixpoint forEach {St} (body : St -> Z -> result St) (indices : list Z) (st : St) : result St :=
  match indices with
  | [] => Ok st
  | i :: rest => let* st' := body st i in forEach body rest st'
  end.

(** ** common/bits_operation.ts *)

Module Bits.
Import JS.

(** [xorBytes(a, b)] *)
Definition xorBytes (a b : list Z) : result (list Z) :=
  if negb (len a =? len b) then Throw XorLengthMismatch
  else Ok (map (fun i => ToUint8 (a.[i] .^ b.[i])) (map Z.of_nat (seq 0 (length a)))).

(** [bytesToWords(bytes)]: one word for every started group of four bytes. *)
Definition bytesToWords (bytes : list Z) : list Z :=
  map (fun j => let i := 4 * Z.of_nat j in
                (bytes.[i] << 24) .| (bytes.[i + 1] << 16) .| (bytes.[i + 2] << 8) .| bytes.[i + 3])
      (seq 0 (Nat.div (length bytes + 3) 4)).

(** [wordsToBytes(words)] *)
Definition wordsToBytes (words : list Z) : list Z :=
  flat_map (fun word =>
              [ ToUint8 ((word >> 24) .& 0xFF); ToUint8 ((word >> 16) .& 0xFF);
                ToUint8 ((word >> 8) .& 0xFF); ToUint8 (word .& 0xFF) ]) words.

(** [rot(n, bits)] *)
Definition rot (n bits : Z) : Z :=
  let value := n >>> 0 in
  if bits >? 0 then (value << bits) .| (value >>> (32 - bits))
  else (value >>> (- bits)) .| (value << (32 + bits)).

End Bits.

(** ** common/interfaces: BlockCipher.ts, KeyExpansion.ts *)

Module Iface.

(** An object seen through the [IBlockCipher] interface: the three
    instance methods that a call on the object reaches, the key type being
    that of the cipher family. *)
Record IBlockCipher (K : Type) := {
  getBlockSizeBytes : result Z;
  encryptBlock : list Z -> K -> result (list Z);
  decryptBlock : list Z -> K -> result (list Z)
}.
Arguments getBlockSizeBytes {K} _.
Arguments encryptBlock {K} _ _ _.
Arguments decryptBlock {K} _ _ _.

(** [new IBlockCipher()]: every method is a stub that throws. *)
Definition stub (K : Type) : IBlockCipher K :=
  {| getBlockSizeBytes := Throw NotImplemented_getBlockSizeBytes;
     encryptBlock := fun _ _ => Throw NotImplemented_encryptBlock;
     decryptBlock := fun _ _ => Throw NotImplemented_decryptBlock |}.

(** An [IKeyExpansion] object: both fields are [null] until a subclass
    fills them. *)
Record IKeyExpansion (K : Type) := {
  sBoxes_ : option (list (list Z));
  roundKeys_ : option K
}.
Arguments sBoxes_ {K} _.
Arguments roundKeys_ {K} _.

(** [new IKeyExpansion()] *)
Definition noKeys (K : Type) : IKeyExpansion K :=
  {| sBoxes_ := None; roundKeys_ := None |}.

End Iface.

(** ** twoFish: constants, tools.ts, KeyExpansion.ts, FeistelBlockCipher.ts *)

Module TwoFish.
Import JS Bits.

Definition BLOCK_SIZE_BYTES : Z := 16.
Definition HALF_BLOCK_SIZE_BYTES : Z := BLOCK_SIZE_BYTES / 2.
Definition NUM_ROUNDS : Z := 16.
Definition MASTER_KEY_SIZE_BYTES : list Z := [16; 24; 32].

Record QTable := { t0 : list Z; t1 : list Z; t2 : list Z; t3 : list Z }.

Definition Q0 : QTable :=
  {| t0 := [8; 1; 7; 13; 6; 15; 3; 2; 0; 11; 5; 9; 14; 12; 10; 4];
     t1 := [14; 12; 11; 8; 1; 2; 3; 5; 15; 4; 10; 6; 7; 0; 9; 13];
     t2 := [11; 10; 5; 14; 6; 13; 9; 0; 12; 8; 15; 3; 2; 4; 7; 1];
     t3 := [13; 7; 15; 4; 1; 2; 6; 14; 9; 11; 3; 0; 8; 5; 12; 10] |}.

Definition Q1 : QTable :=
  {| t0 := [2; 8; 11; 13; 15; 7; 6; 14; 3; 1; 9; 4; 0; 10; 12; 5];
     t1 := [1; 14; 2; 11; 4; 12; 3; 7; 6; 13; 10; 5; 15; 9; 0; 8];
     t2 := [4; 12; 7; 5; 1; 6; 9; 10; 0; 14; 13; 8; 2; 11; 3; 15];
     t3 := [11; 9; 5; 1; 12; 3; 13; 14; 6; 4; 7; 15; 2; 0; 8; 10] |}.

Definition MDS_MATRIX : list (list Z) :=
  [ [1; 239; 91; 91];
    [91; 239; 239; 1];
    [239; 91; 1; 239];
    [239; 1; 239; 91] ].

Definition RS_MATRIX : list (list Z) :=
  [ [1; 164; 85; 135; 90; 88; 219; 158];
    [164; 86; 130; 243; 30; 198; 104; 229];
    [2; 161; 252; 193; 71; 174; 61; 25];
    [164; 85; 135; 90; 88; 219; 158; 3] ].

Definition RS_POLY : Z := 0x169.

(** *** tools.ts *)

(** [q(x, qTable)] *)
Definition q (x : Z) (qTable : QTable) : Z :=
  let a0 := (x >> 4) .& 0xF in
  let b0 := x .& 0xF in
  let a1 := a0 .^ b0 in
  let b1 := a0 .^ (((b0 << 1) .| (b0 >> 3)) .& 0xF) .^ ((8 * a0) .& 0xF) in
  let a2 := (t0 qTable).[a1] in
  let b2 := (t1 qTable).[b1] in
  let a3 := a2 .^ b2 in
  let b3 := a2 .^ (((b2 << 1) .| (b2 >> 3)) .& 0xF) .^ ((8 * a2) .& 0xF) in
  let a4 := (t2 qTable).[a3] in
  let b4 := (t3 qTable).[b3] in
  (b4 << 4) .| a4.

(** The body of [while (b > 0)] in [multiplyGF]; [b >>= 1] leaves a 32-bit
    value that halves at every turn, so 32 turns always suffice. *)
Fixpoint multiplyGF_loop (fuel : nat) (a b result : Z) : Z :=
  match fuel with
  | O => result
  | S fuel' =>
      if b >? 0 then
        let result := if negb ((b .& 1) =? 0) then result .^ a else result in
        let a := a << 1 in
        let a := if negb ((a .& 0x100) =? 0) then a .^ RS_POLY else a in
        let b := b >> 1 in
        multiplyGF_loop fuel' a b result
      else result
  end.

(** [multiplyGF(a, b)] *)
Definition multiplyGF (a b : Z) : Z := multiplyGF_loop 32 a b 0.

(** [PHT(a, b)] *)
Definition PHT (a b : Z) : Z * Z := (rem (a + b) (2^32), rem (a + 2 * b) (2^32)).

(** One row of the MDS product, written out four times in [h] and in
    [gFunction]. *)
Definition mdsRow (r : Z) (y : Z) : Z :=
  multiplyGF (table_entry MDS_MATRIX r 0) ((y >> 24) .& 0xFF) .^
  multiplyGF (table_entry MDS_MATRIX r 1) ((y >> 16) .& 0xFF) .^
  multiplyGF (table_entry MDS_MATRIX r 2) ((y >> 8) .& 0xFF) .^
  multiplyGF (table_entry MDS_MATRIX r 3) (y .& 0xFF).

Definition mds (y : Z) : Z :=
  let z0 := mdsRow 0 y in
  let z1 := mdsRow 1 y in
  let z2 := mdsRow 2 y in
  let z3 := mdsRow 3 y in
  (z0 << 24) .| (z1 << 16) .| (z2 << 8) .| z3.

(** [h(x, lVector)].  [x] only feeds [>>] and [&], so an [undefined]
    argument behaves as [0]; callers pass [M.[i]]. *)
Definition h (x : Z) (lVector : list Z) : Z :=
  let k := len lVector in
  let y0 := (x >> 24) .& 0xFF in
  let y1 := (x >> 16) .& 0xFF in
  let y2 := (x >> 8) .& 0xFF in
  let y3 := x .& 0xFF in
  let '(y0, y1, y2, y3) :=
    if k >=? 4 then
      let y3 := q y3 Q1 .^ ((lVector.[3] >> 24) .& 0xFF) in
      let y2 := q y2 Q0 .^ ((lVector.[3] >> 16) .& 0xFF) in
      let y1 := q y1 Q1 .^ ((lVector.[3] >> 8) .& 0xFF) in
      let y0 := q y0 Q1 .^ (lVector.[3] .& 0xFF) in
      (y0, y1, y2, y3)
    else (y0, y1, y2, y3) in
  let '(y0, y1, y2, y3) :=
    if k >=? 3 then
      let y3 := q y3 Q0 .^ ((lVector.[2] >> 24) .& 0xFF) in
      let y2 := q y2 Q0 .^ ((lVector.[2] >> 16) .& 0xFF) in
      let y1 := q y1 Q1 .^ ((lVector.[2] >> 8) .& 0xFF) in
      let y0 := q y0 Q1 .^ (lVector.[2] .& 0xFF) in
      (y0, y1, y2, y3)
    else (y0, y1, y2, y3) in
  let y0 := q (q (q y0 Q0 .^ ((lVector.[1] >> 24) .& 0xFF)) Q0 .^ ((lVector.[0] >> 24) .& 0xFF)) Q1 in
  let y1 := q (q (q y1 Q1 .^ ((lVector.[1] >> 16) .& 0xFF)) Q0 .^ ((lVector.[0] >> 16) .& 0xFF)) Q0 in
  let y2 := q (q (q y2 Q0 .^ ((lVector.[1] >> 8) .& 0xFF)) Q1 .^ ((lVector.[0] >> 8) .& 0xFF)) Q1 in
  let y3 := q (q (q y3 Q1 .^ (lVector.[1] .& 0xFF)) Q1 .^ (lVector.[0] .& 0xFF)) Q0 in
  let y := (y0 << 24) .| (y1 << 16) .| (y2 << 8) .| y3 in
  mds y.

(** *** KeyExpansion.ts *)

(** One turn of the constructor's loop over [i]: fills [M[2i]], [M[2i+1]]
    and [S[k-1-i]]. *)
Definition fillMS (masterKey : list Z) (k : Z) (MS : list Z * list Z) (i : Z)
  : list Z * list Z :=
  let '(vM, vS) := MS in
  let vM := set vM (2 * i)
               (masterKey.[8 * i] .| (masterKey.[8 * i + 1] << 8) .|
                (masterKey.[8 * i + 2] << 16) .| (masterKey.[8 * i + 3] << 24)) in
  let vM := set vM (2 * i + 1)
               (masterKey.[8 * i + 4] .| (masterKey.[8 * i + 5] << 8) .|
                (masterKey.[8 * i + 6] << 16) .| (masterKey.[8 * i + 7] << 24)) in
  let keyBytes := slice masterKey (8 * i) (8 * (i + 1)) in
  let sBytes :=
    map (fun row =>
           fold_left (fun sum col =>
                        sum .^ multiplyGF (table_entry RS_MATRIX row col) keyBytes.[col])
                     (range 0 8) 0)
        (range 0 4) in
  let vS := set vS (k - 1 - i)
                ((sBytes.[0] << 24) .| (sBytes.[1] << 16) .| (sBytes.[2] << 8) .| sBytes.[3]) in
  (vM, vS).

(** The vectors [M] and [S] built by the constructor; [k = length / 8]. *)
Definition vectorsMS (masterKey : list Z) : list Z * list Z :=
  let k := len masterKey / 8 in
  fold_left (fillMS masterKey k) (range 0 (Z.to_nat k))
            (replicate (Z.to_nat (2 * k)) 0, replicate (Z.to_nat k) 0).

(** [generateRoundKeysInternal()]: the loop assigns all 40 slots. *)
Definition generateRoundKeysInternal (M : list Z) : list Z :=
  fold_left (fun roundKeys i =>
               let temp := PHT (h M.[2 * i] M) (h M.[2 * i + 1] M) in
               let roundKeys := set roundKeys (2 * i) (fst temp) in
               set roundKeys (2 * i + 1) (snd temp))
            (range 0 20) (replicate 40 0).

(** [generateSBoxesInternal()]: four separate arrays of 256 slots, every
    slot assigned by the nested loops. *)
Definition generateSBoxesInternal (vS : list Z) : list (list Z) :=
  fold_left (fun sBoxes i =>
               fold_left (fun sBoxes j =>
                            match idx sBoxes i with
                            | Some row => <[Z.to_nat i := set row j (h j vS)]> sBoxes
                            | None => sBoxes
                            end)
                         (range 0 256) sBoxes)
            (range 0 4) (replicate 4 (replicate 256 0)).

(** A twoFish [KeyExpansion] object: the private vectors [M] and [S] and
    the inherited fields. *)
Record KeyExpansion := {
  M : list Z;
  S' : list Z;
  base : Iface.IKeyExpansion (list Z)
}.

(** [new KeyExpansion(masterKey)].  A length that is not a multiple of 8
    makes [new Array(2 * k)] throw a [RangeError]. *)
Definition newKeyExpansion (masterKey : list Z) : result KeyExpansion :=
  if negb (len masterKey mod 8 =? 0) then Throw RangeError
  else
    let '(vM, vS) := vectorsMS masterKey in
    Ok {| M := vM; S' := vS;
          base := {| Iface.roundKeys_ := Some (generateRoundKeysInternal vM);
                     Iface.sBoxes_ := Some (generateSBoxesInternal vS) |} |}.

(** *** FeistelBlockCipher.ts *)

(** [gFunction(x, sBoxes)]: [sBoxes] is the table of the key-expansion
    object, so a row may be missing and the read of it throws. *)
Definition gFunction (x : Z) (sBoxes : list (list Z)) : result Z :=
  let* b0 := get2 sBoxes 0 ((x >> 24) .& 0xFF) in
  let* b1 := get2 sBoxes 1 ((x >> 16) .& 0xFF) in
  let* b2 := get2 sBoxes 2 ((x >> 8) .& 0xFF) in
  let* b3 := get2 sBoxes 3 (x .& 0xFF) in
  let y := (b0 << 24) .| (b1 << 16) .| (b2 << 8) .| b3 in
  Ok (mds y).

Definition words : Type := Z * Z * Z * Z.

(** [w0 ^= k[a]; w1 ^= k[a+1]; w2 ^= k[a+2]; w3 ^= k[a+3]] *)
Definition whiten (round_keys : list Z) (a : Z) (w : words) : words :=
  let '(w0, w1, w2, w3) := w in
  (w0 .^ round_keys.[a], w1 .^ round_keys.[a + 1],
   w2 .^ round_keys.[a + 2], w3 .^ round_keys.[a + 3]).

(** The body of the encryption loop for round [r]. *)
Definition encryptRound (sBoxes : list (list Z)) (roundKeys : list Z) (w : words) (r : Z)
  : result words :=
  let '(w0, w1, w2, w3) := w in
  let* t0 := gFunction w0 sBoxes in
  let* t1 := gFunction (rot w1 8) sBoxes in
  let '(f0, f1) := PHT t0 t1 in
  let w2 := rot (w2 .^ num (add f0 (idx roundKeys (2 * r + 8)))) (-1) in
  let w3 := rot w3 1 .^ num (add f1 (idx roundKeys (2 * r + 9))) in
  Ok (if r <? NUM_ROUNDS - 1 then (w2, w3, w0, w1) else (w0, w1, w2, w3)).

(** [(this.keyExpansion_.roundKeys as number[])[i]]: the cast checks
    nothing, and an element read of [null] throws. *)
Definition roundKeysArray (roundKeys : option (list Z)) : result (list Z) :=
  match roundKeys with
  | Some roundKeys => Ok roundKeys
  | None => Throw RoundKeysNotDefined
  end.

(** The body of the decryption loop for round [r]; the round keys are read
    after the two calls of [gFunction]. *)
Definition decryptRound (sBoxes : list (list Z)) (roundKeys : option (list Z)) (w : words)
           (r : Z) : result words :=
  let '(w0, w1, w2, w3) := if r <? NUM_ROUNDS - 1
                           then let '(w0, w1, w2, w3) := w in (w2, w3, w0, w1)
                           else w in
  let* t0 := gFunction w0 sBoxes in
  let* t1 := gFunction (rot w1 8) sBoxes in
  let '(f0, f1) := PHT t0 t1 in
  let* roundKeys := roundKeysArray roundKeys in
  let oldW2 := rot w2 1 .^ num (add f0 (idx roundKeys (2 * r + 8))) in
  let oldW3 := rot (w3 .^ num (add f1 (idx roundKeys (2 * r + 9)))) (-1) in
  Ok (w0, w1, oldW2, oldW3).

(** [let [w0, w1, w2, w3] = bytesToWords(blk)]: a missing word is
    [undefined] and becomes [0] under the first [^=]. *)
Definition unpack (blk : list Z) : words :=
  let ws := bytesToWords blk in (ws.[0], ws.[1], ws.[2], ws.[3]).

Definition pack (w : words) : list Z :=
  let '(w0, w1, w2, w3) := w in wordsToBytes [w0; w1; w2; w3].

(** [encryptBlock(blk, round_keys)] of the instance built on [ke]. *)
Definition encryptBlock (ke : Iface.IKeyExpansion (list Z)) (blk : list Z) (round_keys : list Z)
  : result (list Z) :=
  match Iface.sBoxes_ ke with
  | None => Throw SBoxesNotSet
  | Some sBoxes =>
      match Iface.roundKeys_ ke with
      | None => Throw RoundKeysNotDefined
      | Some roundKeys =>
          let w := whiten round_keys 0 (unpack blk) in
          let* w := forEach (encryptRound sBoxes roundKeys)
                            (range 0 (Z.to_nat NUM_ROUNDS)) w in
          let w := whiten round_keys 4 w in
          Ok (pack w)
      end
  end.

(** [decryptBlock(blk, round_keys)]; [roundKeys] is not checked for
    [null] before the loop, which reads it in every round. *)
Definition decryptBlock (ke : Iface.IKeyExpansion (list Z)) (blk : list Z) (round_keys : list Z)
  : result (list Z) :=
  match Iface.sBoxes_ ke with
  | None => Throw SBoxesNotSet
  | Some sBoxes =>
      if negb (len blk =? BLOCK_SIZE_BYTES) then Throw BadCiphertextLength
      else
        let w := whiten round_keys 4 (unpack blk) in
        let* w := forEach (decryptRound sBoxes (Iface.roundKeys_ ke))
                          (rev (range 0 (Z.to_nat NUM_ROUNDS))) w in
        let w := whiten round_keys 0 w in
        Ok (pack w)
  end.

(** The static [FeistelBlockCipher.getBlockSizeBytes()]. *)
Definition static_getBlockSizeBytes : Z := HALF_BLOCK_SIZE_BYTES * 2.

End TwoFish.

(** [new FeistelBlockCipher(keyExpansion, NUM_ROUNDS)] of twoFish.  The
    class overrides [encryptBlock] and [decryptBlock]; it declares
    [getBlockSizeBytes] as a static method only, so a call on the instance
    reaches the inherited stub. *)
Definition TwoFish_FeistelBlockCipher (ke : Iface.IKeyExpansion (list Z))
  : Iface.IBlockCipher (list Z) :=
  {| Iface.getBlockSizeBytes := Iface.getBlockSizeBytes (Iface.stub (list Z));
     Iface.encryptBlock := TwoFish.encryptBlock ke;
     Iface.decryptBlock := TwoFish.decryptBlock ke |}.

(** ** macGuffin: FFunction.ts, the Feistel engine, KeyExpansion.ts *)

Module MacGuffin.
Import JS Bits.

(** Modelled from the spec: [constants/macGuffin] is not among the
    sources.  The spec gives Cipher B an 8-byte block, 32 rounds and a
    key table of 96 words. *)
Definition BLOCK_SIZE_BYTES : Z := 8.
Definition HALF_BLOCK_SIZE_BYTES : Z := BLOCK_SIZE_BYTES / 2.
Definition NUM_ROUNDS : Z := 32.
Definition KSIZE : Z := 96.

(** The expanded key: [{ val: Uint16Array }]. *)
Record MacGuffinKey := { val : list Z }.

Definition regs : Type := Z * Z * Z * Z.

(** Modelled from the spec: the constant [LOOKUP_MASKS] of
    [constants/macGuffin] is not among the sources.  The spec gives [F] four
    output slices, each with its fixed lookup masks, so the table has the
    four rows that [f_optimized] reads; what the rows hold is left open. *)
Record MaskTable := {
  slice0 : list Z;
  slice1 : list Z;
  slice2 : list Z;
  slice3 : list Z
}.

Definition maskRows (t : MaskTable) : list (list Z) :=
  [slice0 t; slice1 t; slice2 t; slice3 t].

Section Engine.
(** The mask tables of [constants/macGuffin], which the sources import
    but do not contain, are parameters. *)
Variable LOOKUP_MASKS : MaskTable.
Variable OUTPUT_MASKS : list Z.

(** [f_optimized(a, b, c, stable)] *)
Definition f_optimized (a b c : Z) (stable : list Z) : Z :=
  fold_left (fun result j =>
               let index := (a .& table_entry (maskRows LOOKUP_MASKS) j 0)
                            .| (b .& table_entry (maskRows LOOKUP_MASKS) j 1)
                            .| (c .& table_entry (maskRows LOOKUP_MASKS) j 2) in
               result .| (OUTPUT_MASKS.[j] .& stable.[index]))
            (range 0 4) 0.

(** The instance field [stable_], fixed by the constructor. *)
Variable stable_ : list Z.

(** [new Uint16Array(key.val)]: a copy, element by element. *)
Definition Uint16Array_from (l : list Z) : list Z := map ToUint16 l.

(** [blk[0] | (blk[1] << 8), ...] *)
Definition load (blk : list Z) : regs :=
  (blk.[0] .| (blk.[1] << 8), blk.[2] .| (blk.[3] << 8),
   blk.[4] .| (blk.[5] << 8), blk.[6] .| (blk.[7] << 8)).

(** [output[0] = r0; output[1] = r0 >> 8; ...] on a [Uint8Array(8)] *)
Definition store (r : regs) : list Z :=
  let '(r0, r1, r2, r3) := r in
  [ ToUint8 r0; ToUint8 (r0 >> 8); ToUint8 r1; ToUint8 (r1 >> 8);
    ToUint8 r2; ToUint8 (r2 >> 8); ToUint8 r3; ToUint8 (r3 >> 8) ].

(** The body of the encryption loop: the four rounds of group [i]. *)
Definition encryptGroup (ek : list Z) (r : regs) (i : Z) : regs :=
  let '(r0, r1, r2, r3) := r in
  let a := r1 .^ ek.[i * 12] in
  let b := r2 .^ ek.[i * 12 + 1] in
  let c := r3 .^ ek.[i * 12 + 2] in
  let F := f_optimized a b c stable_ in
  let r0 := r0 .^ F in
  let a := r2 .^ ek.[i * 12 + 3] in
  let b := r3 .^ ek.[i * 12 + 4] in
  let c := r0 .^ ek.[i * 12 + 5] in
  let F := f_optimized a b c stable_ in
  let r1 := r1 .^ F in
  let a := r3 .^ ek.[i * 12 + 6] in
  let b := r0 .^ ek.[i * 12 + 7] in
  let c := r1 .^ ek.[i * 12 + 8] in
  let F := f_optimized a b c stable_ in
  let r2 := r2 .^ F in
  let a := r0 .^ ek.[i * 12 + 9] in
  let b := r1 .^ ek.[i * 12 + 10] in
  let c := r2 .^ ek.[i * 12 + 11] in
  let F := f_optimized a b c stable_ in
  let r3 := r3 .^ F in
  (r0, r1, r2, r3).

(** The body of the decryption loop: the four rounds of group [i],
    last round first. *)
Definition decryptGroup (ek : list Z) (r : regs) (i : Z) : regs :=
  let '(r0, r1, r2, r3) := r in
  let c := r2 .^ ek.[i * 12 + 11] in
  let b := r1 .^ ek.[i * 12 + 10] in
  let a := r0 .^ ek.[i * 12 + 9] in
  let F := f_optimized a b c stable_ in
  let r3 := r3 .^ F in
  let c := r1 .^ ek.[i * 12 + 8] in
  let b := r0 .^ ek.[i * 12 + 7] in
  let a := r3 .^ ek.[i * 12 + 6] in
  let F := f_optimized a b c stable_ in
  let r2 := r2 .^ F in
  let c := r0 .^ ek.[i * 12 + 5] in
  let b := r3 .^ ek.[i * 12 + 4] in
  let a := r2 .^ ek.[i * 12 + 3] in
  let F := f_optimized a b c stable_ in
  let r1 := r1 .^ F in
  let c := r3 .^ ek.[i * 12 + 2] in
  let b := r2 .^ ek.[i * 12 + 1] in
  let a := r1 .^ ek.[i * 12] in
  let F := f_optimized a b c stable_ in
  let r0 := r0 .^ F in
  (r0, r1, r2, r3).

(** [encryptBlock(blk, key)] *)
Definition encryptBlock (blk : list Z) (key : MacGuffinKey) : list Z :=
  let ek := Uint16Array_from (val key) in
  store (fold_left (encryptGroup ek) (range 0 (Z.to_nat (NUM_ROUNDS / 4))) (load blk)).

(** [decryptBlock(blk, key)] *)
Definition decryptBlock (blk : list Z) (key : MacGuffinKey) : list Z :=
  let ek := Uint16Array_from (val key) in
  store (fold_left (decryptGroup ek) (rev (range 0 (Z.to_nat (NUM_ROUNDS / 4)))) (load blk)).

(** The engine as an [IBlockCipher]; as for twoFish, the class declares
    [getBlockSizeBytes] as a static method only. *)
Definition FeistelBlockCipher : Iface.IBlockCipher MacGuffinKey :=
  {| Iface.getBlockSizeBytes := Iface.getBlockSizeBytes (Iface.stub MacGuffinKey);
     Iface.encryptBlock := fun blk key => Ok (encryptBlock blk key);
     Iface.decryptBlock := fun blk key => Ok (decryptBlock blk key) |}.

End Engine.

(** *** KeyExpansion.ts *)

(** The state of [generateRoundKeys]: the array [k] of the two halves and
    the table [ek] under construction. *)
Record keyset := { k : list (list Z); ek : MacGuffinKey }.

(** The body of the inner loop for half [i] and iteration [j]. *)
Definition keysetStep (blockCipher : Iface.IBlockCipher MacGuffinKey) (i : Z) (st : keyset)
           (j : Z) : result keyset :=
  let* ki := Iface.encryptBlock blockCipher (default [] (idx (k st) i)) (ek st) in
  let ks := <[Z.to_nat i := ki]> (k st) in
  let v := val (ek st) in
  let v := set v (j * 3) (ToUint16 (v.[j * 3] .^ (ki.[0] .| (ki.[1] << 8)))) in
  let v := set v (j * 3 + 1) (ToUint16 (v.[j * 3 + 1] .^ (ki.[2] .| (ki.[3] << 8)))) in
  let v := set v (j * 3 + 2) (ToUint16 (v.[j * 3 + 2] .^ (ki.[4] .| (ki.[5] << 8)))) in
  Ok {| k := ks; ek := {| val := v |} |}.

(** [generateRoundKeys(masterKey, extra)]: the value stored in
    [roundKeys_]. *)
Definition generateRoundKeys (masterKey : list Z) (blockCipher : Iface.IBlockCipher MacGuffinKey)
  : result MacGuffinKey :=
  let st := {| k := [slice masterKey 0 8; slice masterKey 8 16];
               ek := {| val := replicate (Z.to_nat KSIZE) 0 |} |} in
  let* st := forEach (fun st i => forEach (keysetStep blockCipher i) (range 0 32) st)
                     (range 0 2) st in
  Ok (ek st).

End MacGuffin.

(** ** The cipher session: common CipherContextBase and twoFish/CipherContext.ts *)

Module Session.
Import JS Bits.

(** The fields of a [CipherContextBase] that the block operations read
    and write. *)
Record Context (K : Type) := {
  _blockCipher : Iface.IBlockCipher K;
  _keyExpansion : Iface.IKeyExpansion K;
  _mode : CipherMode;
  _padding : CipherPadding;
  _iv : option (list Z)
}.
Arguments _blockCipher {K} _.
Arguments _keyExpansion {K} _.
Arguments _mode {K} _.
Arguments _padding {K} _.
Arguments _iv {K} _.

(** [new CipherContextBase()] *)
Definition newContext (K : Type) : Context K :=
  {| _blockCipher := Iface.stub K; _keyExpansion := Iface.noKeys K;
     _mode := ECB; _padding := Zeros; _iv := None |}.

(** A method of the session: it may throw, and the fields it wrote before
    throwing stay written. *)
Definition M (K A : Type) : Type := Context K -> result A * Context K.

Definition ret {K A} (a : A) : M K A := fun ctx => (Ok a, ctx).
Definition throw {K A} (e : error) : M K A := fun ctx => (Throw e, ctx).
Definition bind {K A B} (m : M K A) (f : A -> M K B) : M K B :=
  fun ctx => match m ctx with
             | (Ok a, ctx') => f a ctx'
             | (Throw e, ctx') => (Throw e, ctx')
             end.
Definition lift {K A} (r : result A) : M K A := fun ctx => (r, ctx).
Definition this {K} : M K (Context K) := fun ctx => (Ok ctx, ctx).

Notation "x <- m ;; f" := (bind m (fun x => f))
  (at level 60, m at next level, right associativity).
Notation "m ;;; f" := (bind m (fun _ => f))
  (at level 60, right associativity).

Section Base.
Context {K : Type}.

Definition setMode (mode : CipherMode) : M K unit := fun ctx =>
  (Ok tt, {| _blockCipher := _blockCipher ctx; _keyExpansion := _keyExpansion ctx;
             _mode := mode; _padding := _padding ctx; _iv := _iv ctx |}).

Definition setPadding (padding : CipherPadding) : M K unit := fun ctx =>
  (Ok tt, {| _blockCipher := _blockCipher ctx; _keyExpansion := _keyExpansion ctx;
             _mode := _mode ctx; _padding := padding; _iv := _iv ctx |}).

Definition setBlockCipher (blockCipher : Iface.IBlockCipher K) : M K unit := fun ctx =>
  (Ok tt, {| _blockCipher := blockCipher; _keyExpansion := _keyExpansion ctx;
             _mode := _mode ctx; _padding := _padding ctx; _iv := _iv ctx |}).

Definition setKeyExpansion (keyExpansion : Iface.IKeyExpansion K) : M K unit := fun ctx =>
  (Ok tt, {| _blockCipher := _blockCipher ctx; _keyExpansion := keyExpansion;
             _mode := _mode ctx; _padding := _padding ctx; _iv := _iv ctx |}).

(** [setIv(iv)].  The bound is the [BLOCK_SIZE_BYTES] that the base
    class imports from [constants/macGuffin], whichever cipher family the
    session runs; a typed array, even an empty one, is truthy. *)
Definition setIv (iv : option (list Z)) : M K unit := fun ctx =>
  match iv with
  | Some v =>
      if negb (len v =? MacGuffin.BLOCK_SIZE_BYTES) then (Throw InvalidIvLength, ctx)
      else (Ok tt, {| _blockCipher := _blockCipher ctx; _keyExpansion := _keyExpansion ctx;
                      _mode := _mode ctx; _padding := _padding ctx; _iv := iv |})
  | None =>
      (Ok tt, {| _blockCipher := _blockCipher ctx; _keyExpansion := _keyExpansion ctx;
                 _mode := _mode ctx; _padding := _padding ctx; _iv := iv |})
  end.

(** [new Uint8Array(n)] followed by [.set(iv)]. *)
Definition newCounterBlock (n : Z) (iv : list Z) : result (list Z) :=
  if n <? 0 then Throw RangeError
  else if len iv >? n then Throw RangeError
  else Ok (iv ++ replicate (Z.to_nat (n - len iv)) 0).

(** [new DataView(currentBlock.buffer).getUint32(0)], the block owning
    its buffer: the first four bytes, big-endian, unsigned. *)
Definition getUint32 (currentBlock : list Z) : result Z :=
  if len currentBlock <? 4 then Throw RangeError
  else Ok (((currentBlock.[0] * 256 + currentBlock.[1]) * 256 + currentBlock.[2]) * 256
           + currentBlock.[3]).

(** [for (k = length - 1; k >= 0 && carry > 0; k--)]; [n] is [k + 1]. *)
Fixpoint addCarry (n : nat) (counterBlock : list Z) (carry : Z) : list Z :=
  match n with
  | O => counterBlock
  | S k =>
      if carry >? 0 then
        let sum := counterBlock.[Z.of_nat k] + carry in
        let counterBlock := set counterBlock (Z.of_nat k) (ToUint8 (sum .& 0xFF)) in
        let carry := sum >> 8 in
        addCarry k counterBlock carry
      else counterBlock
  end.

(** The counter block that the CTR branch feeds to the block engine. *)
Definition ctrCounterBlock (blockSize : Z) (iv currentBlock : list Z) : result (list Z) :=
  let* counterBlock := newCounterBlock blockSize iv in
  let* carry := getUint32 currentBlock in
  Ok (addCarry (length counterBlock) counterBlock carry).

(** The CTR branch, the same text in [encrypt] and in [decrypt]. *)
Definition ctrBranch (currentBlock : list Z) (roundKeys : K) : M K (option (list Z)) :=
  ctx <- this ;;
  match _iv ctx with
  | None => throw (MissingIv CTR)
  | Some iv =>
      blockSize <- lift (Iface.getBlockSizeBytes (_blockCipher ctx)) ;;
      counterBlock <- lift (ctrCounterBlock blockSize iv currentBlock) ;;
      let currentBlock := slice_from currentBlock 32 in
      streamCTR <- lift (Iface.encryptBlock (_blockCipher ctx) counterBlock roundKeys) ;;
      encryptedBlock <- lift (xorBytes currentBlock streamCTR) ;;
      ret (Some encryptedBlock)
  end.

(** [encrypt(currentBlock)]; the result is [null] ([None]) in the
    [RANDOM_DELTA] case. *)
Definition encrypt (currentBlock : list Z) : M K (option (list Z)) :=
  ctx <- this ;;
  match Iface.roundKeys_ (_keyExpansion ctx) with
  | None => throw RoundKeysNotSet
  | Some roundKeys =>
      if len currentBlock =? 0 then throw EmptyData
      else
        let blockCipher := _blockCipher ctx in
        match _mode ctx with
        | ECB =>
            encryptedBlock <- lift (Iface.encryptBlock blockCipher currentBlock roundKeys) ;;
            ret (Some encryptedBlock)
        | CBC =>
            match _iv ctx with
            | None => throw (MissingIv CBC)
            | Some iv =>
                xoredBlockCBC <- lift (xorBytes currentBlock iv) ;;
                encryptedBlock <- lift (Iface.encryptBlock blockCipher xoredBlockCBC roundKeys) ;;
                setIv (Some encryptedBlock) ;;;
                ret (Some encryptedBlock)
            end
        | PCBC =>
            match _iv ctx with
            | None => throw (MissingIv PCBC)
            | Some iv =>
                xoredBlockPCBC <- lift (xorBytes currentBlock iv) ;;
                encryptedBlock <- lift (Iface.encryptBlock blockCipher xoredBlockPCBC roundKeys) ;;
                newIv <- lift (xorBytes currentBlock encryptedBlock) ;;
                setIv (Some newIv) ;;;
                ret (Some encryptedBlock)
            end
        | CFB =>
            match _iv ctx with
            | None => throw (MissingIv CFB)
            | Some iv =>
                streamCFB <- lift (Iface.encryptBlock blockCipher iv roundKeys) ;;
                encryptedBlock <- lift (xorBytes currentBlock streamCFB) ;;
                setIv (Some encryptedBlock) ;;;
                ret (Some encryptedBlock)
            end
        | OFB =>
            match _iv ctx with
            | None => throw (MissingIv OFB)
            | Some iv =>
                newIv <- lift (Iface.encryptBlock blockCipher iv roundKeys) ;;
                setIv (Some newIv) ;;;
                encryptedBlock <- lift (xorBytes currentBlock newIv) ;;
                ret (Some encryptedBlock)
            end
        | CTR => ctrBranch currentBlock roundKeys
        | RANDOM_DELTA => ret None
        | OtherMode => throw UnsupportedMode
        end
  end.

(** [decrypt(currentBlock)].  The alignment test calls
    [this.blockCipher.getBlockSizeBytes()] whenever the block is not
    empty. *)
Definition decrypt (currentBlock : list Z) : M K (option (list Z)) :=
  ctx <- this ;;
  match Iface.roundKeys_ (_keyExpansion ctx) with
  | None => throw RoundKeysNotSet
  | Some roundKeys =>
      let blockCipher := _blockCipher ctx in
      misaligned <- (if len currentBlock =? 0 then ret true
                     else blockSize <- lift (Iface.getBlockSizeBytes blockCipher) ;;
                          ret (negb (rem (len currentBlock) blockSize =? 0))) ;;
      if (misaligned : bool) then throw EmptyOrMisaligned
      else
        match _mode ctx with
        | ECB =>
            decryptedBlock <- lift (Iface.decryptBlock blockCipher currentBlock roundKeys) ;;
            ret (Some decryptedBlock)
        | CBC =>
            match _iv ctx with
            | None => throw (MissingIv CBC)
            | Some iv =>
                decryptedBlock <- lift (Iface.decryptBlock blockCipher currentBlock roundKeys) ;;
                decryptedBlock <- lift (xorBytes decryptedBlock iv) ;;
                setIv (Some currentBlock) ;;;
                ret (Some decryptedBlock)
            end
        | PCBC =>
            match _iv ctx with
            | None => throw (MissingIv PCBC)
            | Some iv =>
                decryptedBlock <- lift (Iface.decryptBlock blockCipher currentBlock roundKeys) ;;
                decryptedBlock <- lift (xorBytes decryptedBlock iv) ;;
                newIv <- lift (xorBytes decryptedBlock currentBlock) ;;
                setIv (Some newIv) ;;;
                ret (Some decryptedBlock)
            end
        | CFB =>
            match _iv ctx with
            | None => throw (MissingIv CFB)
            | Some iv =>
                streamCFB <- lift (Iface.encryptBlock blockCipher iv roundKeys) ;;
                decryptedBlock <- lift (xorBytes currentBlock streamCFB) ;;
                setIv (Some currentBlock) ;;;
                ret (Some decryptedBlock)
            end
        | OFB =>
            match _iv ctx with
            | None => throw (MissingIv OFB)
            | Some iv =>
                newIv <- lift (Iface.encryptBlock blockCipher iv roundKeys) ;;
                setIv (Some newIv) ;;;
                decryptedBlock <- lift (xorBytes currentBlock newIv) ;;
                ret (Some decryptedBlock)
            end
        | CTR => ctrBranch currentBlock roundKeys
        | RANDOM_DELTA => ret None
        | OtherMode => throw UnsupportedMode
        end
  end.

End Base.

(** *** Padding: [_addPadding] and [_removePadding] of the base class *)

(** [a.fill(value, start, end)] *)
Definition fill (a : list Z) (value start end_ : Z) : list Z :=
  imap (fun i x => if (start <=? Z.of_nat i) && (Z.of_nat i <? end_) then value else x) a.

(** The loop of the [Zeros] case: the number of trailing zero bytes. *)
Fixpoint leadingZeros (l : list Z) : Z :=
  match l with
  | 0 :: rest => 1 + leadingZeros rest
  | _ => 0
  end.

Definition trailingZeros (data : list Z) : Z := leadingZeros (rev data).

(** [x !== v] where [x] may be [undefined]. *)
Definition strictNe (x : option Z) (v : Z) : bool :=
  match x with Some y => negb (y =? v) | None => true end.

Section Padding.
(** [this.getBlockSizeBytes()] of the concrete session class, and the
    bytes that [Math.floor(Math.random() * 256)] yields at each index. *)
Variable this_getBlockSizeBytes : result Z.
Variable random : Z -> Z.

(** [_addPadding(data)] under the padding scheme of the session. *)
Definition _addPadding (padding : CipherPadding) (data : list Z) : result (list Z) :=
  let* blockSize := this_getBlockSizeBytes in
  let paddingLength := blockSize - rem (len data) blockSize in
  let paddingLength := if paddingLength =? 0 then blockSize else paddingLength in
  let paddedData := data ++ replicate (Z.to_nat paddingLength) 0 in
  match padding with
  | Zeros => Ok paddedData
  | ANSIX923 =>
      let paddedData := fill paddedData 0 (len data) (len paddedData - 1) in
      Ok (set paddedData (len paddedData - 1) (ToUint8 paddingLength))
  | PKCS7 =>
      Ok (fill paddedData (ToUint8 paddingLength) (len data) (len paddedData))
  | ISO10126 =>
      let paddedData :=
        imap (fun i x => if (len data <=? Z.of_nat i) && (Z.of_nat i <? len paddedData - 1)
                         then ToUint8 (random (Z.of_nat i)) else x) paddedData in
      Ok (set paddedData (len paddedData - 1) (ToUint8 paddingLength))
  | OtherPadding => Throw UnknownPadding
  end.

(** The [switch] of [_removePadding]: the padding length it settles on.
    [None] is the [undefined] read from an empty buffer, for which every
    comparison is false and no loop body runs. *)
Definition declaredPadding (padding : CipherPadding) (blockSize : Z) (data : list Z)
  : result (option Z) :=
  match padding with
  | Zeros => Ok (Some (trailingZeros data))
  | ANSIX923 =>
      match idx data (len data - 1) with
      | None => Ok None
      | Some paddingLength =>
          if (paddingLength >? blockSize) || (paddingLength =? 0)
          then Throw (PaddingLengthInvalid ANSIX923)
          else if existsb (fun j => strictNe (idx data (len data - 1 - j)) 0)
                          (range 1 (Z.to_nat (paddingLength - 1)))
               then Throw (PaddingBytesInvalid ANSIX923)
               else Ok (Some paddingLength)
      end
  | PKCS7 =>
      match idx data (len data - 1) with
      | None => Ok None
      | Some paddingLength =>
          if (paddingLength >? blockSize) || (paddingLength =? 0)
          then Throw (PaddingLengthInvalid PKCS7)
          else if existsb (fun j => strictNe (idx data (len data - j)) paddingLength)
                          (range 1 (Z.to_nat paddingLength))
               then Throw (PaddingBytesInvalid PKCS7)
               else Ok (Some paddingLength)
      end
  | ISO10126 =>
      match idx data (len data - 1) with
      | None => Ok None
      | Some paddingLength =>
          if (paddingLength >? blockSize) || (paddingLength =? 0)
          then Throw (PaddingLengthInvalid ISO10126)
          else Ok (Some paddingLength)
      end
  | OtherPadding => Throw UnknownPadding
  end.

(** [_removePadding(data)].  With an [undefined] padding length the
    final [slice(0, NaN)] is empty. *)
Definition _removePadding (padding : CipherPadding) (data : list Z) : result (list Z) :=
  let* blockSize := this_getBlockSizeBytes in
  if negb (rem (len data) blockSize =? 0) then Throw MisalignedPadded
  else
    let* paddingLength := declaredPadding padding blockSize data in
    match paddingLength with
    | None => Ok (slice data 0 0)
    | Some paddingLength =>
        if len data <? paddingLength then Throw PaddingLongerThanData
        else Ok (slice data 0 (len data - paddingLength))
    end.

End Padding.

(** [setMasterKey(masterKey)] of the twoFish [CipherContext]. *)
Definition setMasterKey (masterKey : list Z) : M (list Z) unit :=
  if negb (existsb (fun length => length =? len masterKey) TwoFish.MASTER_KEY_SIZE_BYTES)
  then throw InvalidKeyLength
  else
    keyExpansion <- lift (TwoFish.newKeyExpansion masterKey) ;;
    let feistelCipher := TwoFish_FeistelBlockCipher (TwoFish.base keyExpansion) in
    setBlockCipher feistelCipher ;;;
    setKeyExpansion (TwoFish.base keyExpansion).

(** [getBlockSizeBytes()] of the twoFish [CipherContext]: the static
    method of the engine class. *)
Definition getBlockSizeBytes : result Z := Ok TwoFish.static_getBlockSizeBytes.

End Session.

(** ** common/bits_operation.ts: the bit-level helpers *)

Module BitOps.
Import JS.

(** The [Error]s of the bit helpers, with the numbers their messages
    show. *)
Inductive bit_error :=
| BitIndexOutOfBounds (byteIndex : Z)
| BitValueInvalid
| TableIndexOutOfBounds (inputBitIndex i : Z).

Inductive outcome (A : Type) :=
| Done (a : A)
| Raise (e : bit_error).
Arguments Done {A} a.
Arguments Raise {A} e.

Definition obind {A B} (r : outcome A) (k : A -> outcome B) : outcome B :=
  match r with Done a => k a | Raise e => Raise e end.

Notation "'let^' x ':=' r 'in' k" := (obind r (fun x => k))
  (at level 10, x pattern, r at level 100, k at level 200).

(** [~x] *)
Definition bnot (x : Z) : Z := Z.lnot (ToInt32 x).

(** [reverseByteBits(byte)] *)
Definition reverseByteBits (byte : Z) : Z :=
  fold_left (fun reversedByte i =>
               if negb (((byte >> i) .& 1) =? 0) then reversedByte .| (1 << (7 - i))
               else reversedByte)
            (range 0 8) 0.

(** [getBit(data, bitIndex, lsbFirst)]; [Math.floor(bitIndex / 8)] is the
    floored quotient. *)
Definition getBit (data : list Z) (bitIndex : Z) (lsbFirst : bool) : outcome Z :=
  let byteIndex := bitIndex / 8 in
  let bitPosInByte := rem bitIndex 8 in
  if (byteIndex <? 0) || (byteIndex >=? len data) then Raise (BitIndexOutOfBounds byteIndex)
  else
    let byte := data.[byteIndex] in
    Done (if lsbFirst then (byte >> bitPosInByte) .& 1
          else (byte >> (7 - bitPosInByte)) .& 1).

(** [setBit(data, bitIndex, value, lsbFirst)]: the source writes into
    [data]; the array after the call is returned. *)
Definition setBit (data : list Z) (bitIndex value : Z) (lsbFirst : bool) : outcome (list Z) :=
  let byteIndex := bitIndex / 8 in
  let bitPosInByte := rem bitIndex 8 in
  if (byteIndex <? 0) || (byteIndex >=? len data) then Raise (BitIndexOutOfBounds byteIndex)
  else if negb (value =? 0) && negb (value =? 1) then Raise BitValueInvalid
  else
    let byte := data.[byteIndex] in
    let byte :=
      if lsbFirst then
        if value =? 1 then byte .| (1 << bitPosInByte)
        else byte .& bnot (1 << bitPosInByte)
      else
        if value =? 1 then byte .| (1 << (7 - bitPosInByte))
        else byte .& bnot (1 << (7 - bitPosInByte)) in
    Done (set data byteIndex (ToUint8 byte)).

(** The loop of [permuteBits] from output bit [i] on; [rest] holds the
    table entries not yet visited. *)
Fixpoint permuteLoop (inputData : list Z) (lsbFirstInput lsbFirstOutput : bool)
         (i : Z) (rest : list Z) (outputData : list Z) : outcome (list Z) :=
  match rest with
  | [] => Done outputData
  | entry :: rest =>
      let inputBitIndex := entry - 1 in
      if (inputBitIndex <? 0) || (inputBitIndex >=? len inputData * 8)
      then Raise (TableIndexOutOfBounds inputBitIndex i)
      else
        let^ bitValue := getBit inputData inputBitIndex lsbFirstInput in
        let^ outputData := setBit outputData i bitValue lsbFirstOutput in
        permuteLoop inputData lsbFirstInput lsbFirstOutput (i + 1) rest outputData
  end.

(** [permuteBits(inputData, permutationTable, lsbFirstInput, lsbFirstOutput)];
    [Math.ceil(n / 8)] is [(n + 7) / 8]. *)
Definition permuteBits (inputData permutationTable : list Z)
           (lsbFirstInput lsbFirstOutput : bool) : outcome (list Z) :=
  let outputBitLength := len permutationTable in
  let outputByteLength := (outputBitLength + 7) / 8 in
  let outputData := replicate (Z.to_nat outputByteLength) 0 in
  permuteLoop inputData lsbFirstInput lsbFirstOutput 0 permutationTable outputData.

(** The index clamping of [ArrayBuffer.prototype.slice]. *)
Definition clampIndex (byteLength i : Z) : Z :=
  if i <? 0 then Z.max (byteLength + i) 0 else Z.min i byteLength.

(** [buffer.slice(begin, end)] on an [ArrayBuffer]. *)
Definition ArrayBuffer_slice (buffer : list Z) (begin end_ : Z) : list Z :=
  let first := clampIndex (len buffer) begin in
  let final := clampIndex (len buffer) end_ in
  take (Z.to_nat (final - first)) (drop (Z.to_nat first) buffer).

(** [buffer.set(source, 0)] on a typed array. *)
Definition typedSet0 (buffer source : list Z) : result (list Z) :=
  if len source >? len buffer then Throw RangeError
  else Ok (source ++ drop (length source) buffer).

(** [cycleOffset(startBuffer, offset)] *)
Definition cycleOffset (startBuffer : list Z) (offset : Z) : result (list Z) :=
  let byteLength := len startBuffer in
  let buffer := replicate (Z.to_nat byteLength) 0 in
  let '(start, end_) :=
    if offset <? 0
    then (ArrayBuffer_slice startBuffer (byteLength - offset) byteLength,
          ArrayBuffer_slice startBuffer 0 (byteLength - offset))
    else (ArrayBuffer_slice startBuffer 0 offset,
          ArrayBuffer_slice startBuffer offset byteLength) in
  let* buffer := typedSet0 buffer start in
  let* buffer := typedSet0 buffer end_ in
  Ok buffer.

End BitOps.

(** ** The static [CipherContextBase.uploadBlockHeader] *)

Module BlockHeader.
Import JS.

(** [view.setUint32(offset, value, false)]: the four bytes written,
    most significant first. *)
Definition setUint32 (value : Z) : list Z :=
  let u := ToUint32 value in
  [u / 2^24 mod 256; u / 2^16 mod 256; u / 2^8 mod 256; u mod 256].

(** [view.setBigInt64(offset, value, false)]: the eight bytes written,
    most significant first. *)
Definition setBigInt64 (value : Z) : list Z :=
  let u := value mod 2^64 in
  map (fun k => u / 2^(8 * k) mod 256) [7; 6; 5; 4; 3; 2; 1; 0].

(** [uploadBlockHeader(blockId, date, receiver_id, data)] for an integral
    [date]. *)
Definition uploadBlockHeader (blockId date receiver_id : Z) (data : list Z) : list Z :=
  let header := setUint32 receiver_id ++ setUint32 blockId ++ setBigInt64 date in
  header ++ data.

End BlockHeader.

(** ** common/keys_worker.ts: the Diffie-Hellman helpers on [bigint] *)

Module KeysWorker.
Import JS.

(** The body of [while (exponent > 0n)] in [modPow]; the exponent halves
    at every turn. *)
Fixpoint modPow_loop (fuel : nat) (base exponent modulus result : Z) : Z :=
  match fuel with
  | O => result
  | S fuel' =>
      if exponent >? 0 then
        let result := if rem exponent 2 =? 1 then rem (result * base) modulus else result in
        let base := rem (base * base) modulus in
        let exponent := Z.shiftr exponent 1 in
        modPow_loop fuel' base exponent modulus result
      else result
  end.

(** [modPow(base, exponent, modulus)]; [base % 0n] throws a [RangeError].
    The loop runs once for every binary digit of a positive exponent. *)
Definition modPow (base exponent modulus : Z) : result Z :=
  if modulus =? 1 then Ok 0
  else if modulus =? 0 then Throw RangeError
  else Ok (modPow_loop (S (Z.to_nat (Z.log2 exponent))) (rem base modulus) exponent modulus 1).

(** [max.toString(2).length] *)
Definition toString2_length (max : Z) : Z :=
  if max =? 0 then 1
  else if max <? 0 then 2 + Z.log2 (- max)
  else 1 + Z.log2 max.

Section Random.
(** The byte that [window.crypto.getRandomValues] leaves at each index
    (a request of more than 65536 bytes is refused by the browser and is
    not modelled). *)
Variable getRandomValues : Z -> Z.

(** [generateRandomBigInt(max)] *)
Definition generateRandomBigInt (max : Z) : result Z :=
  let byteLength := (toString2_length max + 7) / 8 in
  let array := map (fun i => ToUint8 (getRandomValues i)) (range 0 (Z.to_nat byteLength)) in
  let randomValue :=
    fold_left (fun randomValue i => Z.lor (Z.shiftl randomValue 8) array.[i])
              (range 0 (Z.to_nat byteLength)) 0 in
  if max =? 0 then Throw RangeError else Ok (rem randomValue max).

(** [generateDHKeys({p, g})]: the pair [(publicKey, privateKey)]. *)
Definition generateDHKeys (p g : Z) : result (Z * Z) :=
  let* a := generateRandomBigInt (p - 1) in
  let* A := modPow g a p in
  Ok (A, a).

End Random.

End KeysWorker.

(** ** The Cipher B key schedule as the specification words it

    A table of 96 words, all zero; the master key split into two 8-byte
    halves; for each half, 32 iterations that replace the half with its
    encryption under the current table and XOR three little-endian 16-bit
    words, taken from bytes 0..5 of the result, into entries 3j, 3j+1 and
    3j+2. *)

Module BootstrapSpec.

Section Fold.
(** The block engine: the half to encrypt and the current table. *)
Variable E : list Z -> list Z -> list Z.

Definition le16 (lo hi : Z) : Z := lo + 256 * hi.

Definition xorInto (table : list Z) (pos : nat) (w : Z) : list Z :=
  <[pos := Z.lxor (nth pos table 0) w]> table.

Definition iteration (st : list Z * list Z) (j : nat) : list Z * list Z :=
  let '(half, table) := st in
  let half' := E half table in
  let b := fun i => nth i half' 0 in
  let table := xorInto table (3 * j) (le16 (b 0%nat) (b 1%nat)) in
  let table := xorInto table (3 * j + 1) (le16 (b 2%nat) (b 3%nat)) in
  let table := xorInto table (3 * j + 2) (le16 (b 4%nat) (b 5%nat)) in
  (half', table).

Definition foldHalf (half table : list Z) : list Z * list Z :=
  fold_left iteration (seq 0 32) (half, table).

Definition schedule (masterKey : list Z) : list Z :=
  let k0 := take 8 masterKey in
  let k1 := take 8 (drop 8 masterKey) in
  let table := replicate 96 0 in
  let table := snd (foldHalf k0 table) in
  snd (foldHalf k1 table).

End Fold.

End BootstrapSpec.

(** The block engine handed to the specification of the schedule: the
    MacGuffin [encryptBlock] of an instance, keyed by the table itself. *)
Definition MacGuffin_engine (LOOKUP_MASKS : MacGuffin.MaskTable) (OUTPUT_MASKS stable_ : list Z)
           (half table : list Z) : list Z :=
  MacGuffin.encryptBlock LOOKUP_MASKS OUTPUT_MASKS stable_ half {| MacGuffin.val := table |}.

(** ** The Cipher A round keys as the specification words them

    For [i] in [0..19], words [2i] and [2i+1] are [PHT(h(2i, M), h(2i+1, M))]. *)
Definition specRoundKeys (vM : list Z) : list Z :=
  flat_map (fun i => let t := TwoFish.PHT (TwoFish.h (2 * i) vM) (TwoFish.h (2 * i + 1) vM) in
                     [fst t; snd t])
           (JS.range 0 20).

(** The pair that the source stores at [2i] and [2i+1]: [h] is applied to
    the entries [M[2i]] and [M[2i+1]] of the key vector. *)
Definition codeRoundKeyPair (vM : list Z) (i : Z) : list Z :=
  let t := TwoFish.PHT (TwoFish.h vM.[2 * i] vM) (TwoFish.h vM.[2 * i + 1] vM) in
  [fst t; snd t].

(** The pad that [_addPadding] appends under PKCS7 and under ANSIX923: as
    many bytes as the padding length, the last one holding that length. *)
Definition padOf (padding : CipherPadding) (paddingLength : Z) : list Z :=
  match padding with
  | PKCS7 => replicate (Z.to_nat paddingLength) paddingLength
  | _ => replicate (Z.to_nat paddingLength - 1) 0 ++ [paddingLength]
  end.

(** ** Predicates used in the statements *)

(** A signed 32-bit value, the result type of the bitwise operators. *)
Definition int32 (x : Z) : Prop := - 2^31 <= x < 2^31.

(** The elements of a [Uint8Array] / [Uint16Array]. *)
Definition uint16 (x : Z) : Prop := 0 <= x < 2^16.
Definition bytes (l : list Z) : Prop := Forall (fun b => 0 <= b < 256) l.
Definition uint16s (l : list Z) : Prop := Forall uint16 l.

(** The four registers of the MacGuffin engine hold 16-bit values. *)
Definition uint16_regs (r : MacGuffin.regs) : Prop :=
  let '(r0, r1, r2, r3) := r in uint16 r0 /\ uint16 r1 /\ uint16 r2 /\ uint16 r3.

(** The word that [bytesToWords] builds from four bytes, and the byte that
    [wordsToBytes] extracts at shift [s]. *)
Definition word_of (b0 b1 b2 b3 : Z) : Z :=
  (b0 << 24) .| (b1 << 16) .| (b2 << 8) .| b3.

Definition byte_at (w s : Z) : Z := JS.ToUint8 ((w >> s) .& 0xFF).

(** The four state words of the twoFish engine are signed 32-bit values. *)
Definition int32_words (w : TwoFish.words) : Prop :=
  let '(w0, w1, w2, w3) := w in int32 w0 /\ int32 w1 /\ int32 w2 /\ int32 w3.

(** The invariant of the session's IV field: [null], or as many bytes as
    [setIv] accepts. *)
Definition iv_ok {K} (ctx : Session.Context K) : Prop :=
  match Session._iv ctx with
  | None => True
  | Some iv => JS.len iv = MacGuffin.BLOCK_SIZE_BYTES
  end.

(** The number that a list of bytes spells, most significant byte first. *)
Definition bigEndian (l : list Z) : Z := fold_left (fun acc b => acc * 256 + b) l 0.

(** ** Sample tables for the MacGuffin engine

    Four rows of lookup masks that select six bits of the three registers,
    the four output masks, and a substitution table with an entry for each
    of the 64 indices that the masks can form. *)
Definition sampleMasks : MacGuffin.MaskTable :=
  {| MacGuffin.slice0 := [0x03; 0x0C; 0x30];
     MacGuffin.slice1 := [0x06; 0x18; 0x21];
     MacGuffin.slice2 := [0x30; 0x03; 0x0C];
     MacGuffin.slice3 := [0x28; 0x14; 0x03] |}.

Definition sampleOutputMasks : list Z := [0x000F; 0x00F0; 0x3300; 0xCC00].

Definition sampleStable : list Z :=
  map (fun i => (Z.of_nat i * 40503 + 12345) mod 2^16) (seq 0 64).

Definition sampleKey : MacGuffin.MacGuffinKey :=
  {| MacGuffin.val := map (fun i => (Z.of_nat i * 25173 + 13849) mod 2^16) (seq 0 96) |}.

(** * Properties *)

(** ** 32-bit arithmetic *)

Section Int32.
Import JS.

Lemma small_testbit_high u k n :
  0 <= k -> 0 <= u < 2^k -> k <= n -> Z.testbit u n = false.
Proof.
  intros Hk Hu Hn. rewrite <- (Z.mod_small u (2^k)) by lia.
  apply Z.mod_pow2_bits_high; lia.
Qed.

Lemma top_testbit u k : 0 <= k -> 2^k <= u < 2^(k+1) -> Z.testbit u k = true.
Proof.
  intros Hk Hu. apply Z.testbit_true; [lia|].
  replace (2^(k+1)) with (2 * 2^k) in Hu
    by (rewrite <- Z.pow_succ_r by lia; reflexivity).
  assert (0 < 2^k) by (apply Z.pow_pos_nonneg; lia).
  assert (Hq : u / 2^k = 1)
    by (symmetry; apply Z.div_unique with (r := u - 2^k); lia).
  rewrite Hq. reflexivity.
Qed.

Lemma ToInt32_range z : int32 (ToInt32 z).
Proof.
  unfold int32, ToInt32. cbv zeta.
  assert (0 <= z mod 2^32 < 2^32) by (apply Z.mod_pos_bound; lia).
  destruct (Z.ltb_spec (z mod 2^32) (2^31)); lia.
Qed.

Lemma ToInt32_id x : int32 x -> ToInt32 x = x.
Proof.
  unfold int32, ToInt32. cbv zeta. intros Hx.
  destruct (Z.ltb_spec (x mod 2^32) (2^31)) as [Hlt|Hge].
  - destruct (Z.le_gt_cases 0 x).
    + apply Z.mod_small; lia.
    + exfalso. rewrite <- (Z.mod_add x 1) in Hlt by lia.
      rewrite Z.mod_small in Hlt; lia.
  - destruct (Z.le_gt_cases 0 x).
    + rewrite Z.mod_small in Hge; lia.
    + rewrite <- (Z.mod_add x 1) by lia. rewrite Z.mod_small; lia.
Qed.

Lemma ToInt32_testbit z n :
  0 <= n -> Z.testbit (ToInt32 z) n = Z.testbit z (Z.min n 31).
Proof.
  intros Hn. unfold ToInt32. cbv zeta.
  assert (Hu : 0 <= z mod 2^32 < 2^32) by (apply Z.mod_pos_bound; lia).
  assert (Hlow : forall m, 0 <= m < 32 -> Z.testbit (z mod 2^32) m = Z.testbit z m)
    by (intros; apply Z.mod_pow2_bits_low; lia).
  destruct (Z.ltb_spec (z mod 2^32) (2^31)) as [Hlt|Hge].
  - assert (H31 : Z.testbit z 31 = false)
      by (rewrite <- Hlow by lia; apply (small_testbit_high _ 31); lia).
    destruct (Z.ltb_spec n 31).
    + rewrite Z.min_l by lia. apply Hlow; lia.
    + rewrite Z.min_r by lia. rewrite H31. apply (small_testbit_high _ 31); lia.
  - assert (H31 : Z.testbit z 31 = true)
      by (rewrite <- Hlow by lia; apply (top_testbit _ 31); simpl; lia).
    replace (z mod 2^32 - 2^32) with (Z.lor (z mod 2^32) (Z.shiftl (-1) 32)).
    2:{ rewrite Z.or_to_plus; [rewrite Z.shiftl_mul_pow2 by lia; lia|].
        Z.bitblast. }
    rewrite Z.lor_spec, Z.shiftl_spec by lia.
    destruct (Z.ltb_spec n 31).
    + rewrite Z.min_l by lia. rewrite Hlow by lia.
      rewrite (Z.testbit_neg_r _ (n - 32)) by lia. apply orb_false_r.
    + rewrite Z.min_r by lia. rewrite H31.
      destruct (Z.eq_dec n 31) as [->|]; [rewrite Hlow, H31 by lia; reflexivity|].
      rewrite Z.testbit_minus1 by lia. apply orb_true_r.
Qed.

Lemma ToInt32_testbit_low z n : 0 <= n < 32 -> Z.testbit (ToInt32 z) n = Z.testbit z n.
Proof. intros. rewrite ToInt32_testbit by lia. f_equal. lia. Qed.

Lemma ToUint32_testbit_low z n : 0 <= n < 32 -> Z.testbit (ToUint32 z) n = Z.testbit z n.
Proof. intros. unfold ToUint32. apply Z.mod_pow2_bits_low; lia. Qed.

Lemma ToUint32_testbit_high z n : 32 <= n -> Z.testbit (ToUint32 z) n = false.
Proof. intros. unfold ToUint32. apply Z.mod_pow2_bits_high; lia. Qed.

(** Two signed 32-bit values with the same low 32 bits are equal. *)
Lemma int32_ext a b :
  int32 a -> int32 b ->
  (forall n, 0 <= n < 32 -> Z.testbit a n = Z.testbit b n) -> a = b.
Proof.
  intros Ha Hb Hbits. apply Z.bits_inj'. intros n Hn.
  rewrite <- (ToInt32_id a Ha), <- (ToInt32_id b Hb), !ToInt32_testbit by lia.
  apply Hbits. lia.
Qed.

Lemma ToInt32_lxor a b : Z.lxor (ToInt32 a) (ToInt32 b) = ToInt32 (Z.lxor a b).
Proof.
  apply Z.bits_inj'. intros n Hn.
  rewrite Z.lxor_spec, !ToInt32_testbit, Z.lxor_spec by lia. reflexivity.
Qed.

Lemma ToInt32_lor a b : Z.lor (ToInt32 a) (ToInt32 b) = ToInt32 (Z.lor a b).
Proof.
  apply Z.bits_inj'. intros n Hn.
  rewrite Z.lor_spec, !ToInt32_testbit, Z.lor_spec by lia. reflexivity.
Qed.

Lemma ToInt32_land a b : Z.land (ToInt32 a) (ToInt32 b) = ToInt32 (Z.land a b).
Proof.
  apply Z.bits_inj'. intros n Hn.
  rewrite Z.land_spec, !ToInt32_testbit, Z.land_spec by lia. reflexivity.
Qed.

Lemma bxor_int32 a b : int32 (a .^ b).
Proof. unfold bxor. rewrite ToInt32_lxor. apply ToInt32_range. Qed.

Lemma bor_int32 a b : int32 (a .| b).
Proof. unfold bor. rewrite ToInt32_lor. apply ToInt32_range. Qed.

Lemma band_int32 a b : int32 (a .& b).
Proof. unfold band. rewrite ToInt32_land. apply ToInt32_range. Qed.

Lemma shl_int32 a k : int32 (a << k).
Proof. apply ToInt32_range. Qed.

(** [(c ^ a) ^ a] gives back a 32-bit [c]. *)
Lemma bxor_cancel c a : int32 c -> (c .^ a) .^ a = c.
Proof.
  intros Hc. unfold bxor at 1. rewrite (ToInt32_id (c .^ a)) by apply bxor_int32.
  unfold bxor. rewrite Z.lxor_assoc, Z.lxor_nilpotent, Z.lxor_0_r.
  apply ToInt32_id, Hc.
Qed.

Lemma rot_int32 n b : int32 (Bits.rot n b).
Proof. unfold Bits.rot. destruct (b >? 0); apply bor_int32. Qed.

Lemma rot_left1_testbit x n :
  0 <= n < 32 -> Z.testbit (Bits.rot x 1) n = Z.testbit x ((n - 1) mod 32).
Proof.
  intros Hn. unfold Bits.rot. change (1 >? 0) with true. cbv iota zeta.
  unfold bor, shl, shr.
  change (0 mod 32) with 0. change (1 mod 32) with 1. change ((32 - 1) mod 32) with 31.
  rewrite Z.shiftr_0_r.
  rewrite Z.lor_spec, !ToInt32_testbit_low by lia.
  rewrite Z.shiftl_spec, Z.shiftr_spec by lia.
  destruct (Z.eq_dec n 0) as [->|Hne].
  - change ((0 - 1) mod 32) with 31. rewrite Z.testbit_neg_r by lia.
    cbn [orb]. change (0 + 31) with 31.
    rewrite !ToUint32_testbit_low by lia. reflexivity.
  - rewrite (ToUint32_testbit_high _ (n + 31)) by lia. rewrite orb_false_r.
    rewrite Z.mod_small by lia.
    rewrite ToInt32_testbit_low, ToUint32_testbit_low by lia. reflexivity.
Qed.

Lemma rot_right1_testbit x n :
  0 <= n < 32 -> Z.testbit (Bits.rot x (-1)) n = Z.testbit x ((n + 1) mod 32).
Proof.
  intros Hn. unfold Bits.rot. change (-1 >? 0) with false. cbv iota zeta.
  unfold bor, shl, shr.
  change (0 mod 32) with 0. change ((- -1) mod 32) with 1. change ((32 + -1) mod 32) with 31.
  rewrite Z.shiftr_0_r.
  rewrite Z.lor_spec, !ToInt32_testbit_low by lia.
  rewrite Z.shiftl_spec, Z.shiftr_spec by lia.
  destruct (Z.eq_dec n 31) as [->|Hne].
  - change ((31 + 1) mod 32) with 0. change (31 + 1) with 32. change (31 - 31) with 0.
    rewrite (ToUint32_testbit_high _ 32) by lia. cbn [orb].
    rewrite ToInt32_testbit_low, ToUint32_testbit_low by lia. reflexivity.
  - rewrite (Z.testbit_neg_r _ (n - 31)) by lia. rewrite orb_false_r.
    rewrite Z.mod_small by lia.
    rewrite !ToUint32_testbit_low by lia. reflexivity.
Qed.

Lemma rot_left_right c : int32 c -> Bits.rot (Bits.rot c (-1)) 1 = c.
Proof.
  intros Hc. apply int32_ext; [apply rot_int32|exact Hc|]. intros n Hn.
  rewrite rot_left1_testbit by lia.
  rewrite rot_right1_testbit by (apply Z.mod_pos_bound; lia).
  f_equal. destruct (Z.eq_dec n 0) as [->|]; [reflexivity|].
  rewrite (Z.mod_small (n - 1)) by lia. rewrite Z.mod_small; lia.
Qed.

Lemma rot_right_left c : int32 c -> Bits.rot (Bits.rot c 1) (-1) = c.
Proof.
  intros Hc. apply int32_ext; [apply rot_int32|exact Hc|]. intros n Hn.
  rewrite rot_right1_testbit by lia.
  rewrite rot_left1_testbit by (apply Z.mod_pos_bound; lia).
  f_equal. destruct (Z.eq_dec n 31) as [->|]; [reflexivity|].
  rewrite (Z.mod_small (n + 1)) by lia. rewrite Z.mod_small; lia.
Qed.

End Int32.

(** ** Packing bytes into words and back *)

(** Settles every comparison between index expressions that [lia] can
    decide, then simplifies the boolean skeleton. *)
Ltac decide_cmp :=
  repeat match goal with
    | |- context [?a <? ?b] =>
        first [ replace (a <? b) with true by lia | replace (a <? b) with false by lia ]
    | |- context [?a <=? ?b] =>
        first [ replace (a <=? b) with true by lia | replace (a <=? b) with false by lia ]
    end;
  cbn [andb orb].

Section Packing.
Import JS Bits.

Lemma bor_testbit a b n :
  0 <= n < 32 -> Z.testbit (a .| b) n = Z.testbit a n || Z.testbit b n.
Proof. intros. unfold bor. rewrite Z.lor_spec, !ToInt32_testbit_low by lia. reflexivity. Qed.

Lemma shl_testbit a k n :
  0 <= k < 32 -> 0 <= n < 32 ->
  Z.testbit (a << k) n = (k <=? n) && Z.testbit a (n - k).
Proof.
  intros Hk Hn. unfold shl. rewrite Z.mod_small by lia.
  rewrite ToInt32_testbit_low, Z.shiftl_spec by lia.
  destruct (Z.leb_spec k n).
  - rewrite ToInt32_testbit_low by lia. reflexivity.
  - apply Z.testbit_neg_r. lia.
Qed.

Lemma sar_testbit a k n :
  0 <= k < 32 -> 0 <= n -> n + k < 32 -> Z.testbit (a >> k) n = Z.testbit a (n + k).
Proof.
  intros Hk Hn Hnk. unfold sar. rewrite Z.mod_small by lia.
  rewrite Z.shiftr_spec, ToInt32_testbit_low by lia. reflexivity.
Qed.

Lemma testbit_255 n : 0 <= n -> Z.testbit 255 n = (n <? 8).
Proof. intros. change 255 with (Z.ones 8). apply Z.testbit_ones_nonneg; lia. Qed.

Lemma band_255_testbit x n :
  0 <= n -> Z.testbit (x .& 0xFF) n = (n <? 8) && Z.testbit x n.
Proof.
  intros Hn. unfold band. change (ToInt32 255) with 255.
  rewrite Z.land_spec, testbit_255 by lia.
  destruct (Z.ltb_spec n 8).
  - rewrite ToInt32_testbit_low by lia. apply andb_comm.
  - rewrite andb_false_r. reflexivity.
Qed.

Lemma ToUint8_testbit x n :
  0 <= n -> Z.testbit (ToUint8 x) n = (n <? 8) && Z.testbit x n.
Proof. intros. unfold ToUint8. apply Z.testbit_mod_pow2. lia. Qed.

Lemma byte_testbit_high b n : 0 <= b < 256 -> 8 <= n -> Z.testbit b n = false.
Proof. intros. apply (small_testbit_high b 8); simpl; lia. Qed.

Lemma ToUint8_range x : 0 <= ToUint8 x < 256.
Proof. unfold ToUint8. apply Z.mod_pos_bound. reflexivity. Qed.

Lemma ToUint8_id b : 0 <= b < 256 -> ToUint8 b = b.
Proof. intros. unfold ToUint8. apply Z.mod_small. simpl. lia. Qed.

Lemma byte_at_0 w : ToUint8 (w .& 0xFF) = byte_at w 0.
Proof.
  unfold byte_at, band, sar. change (0 mod 32) with 0.
  rewrite Z.shiftr_0_r. rewrite (ToInt32_id (ToInt32 w)) by apply ToInt32_range.
  reflexivity.
Qed.

Lemma byte_at_testbit w s n :
  0 <= s <= 24 -> 0 <= n ->
  Z.testbit (byte_at w s) n = (n <? 8) && Z.testbit w (n + s).
Proof.
  intros Hs Hn. unfold byte_at. rewrite ToUint8_testbit, band_255_testbit by lia.
  destruct (Z.ltb_spec n 8); [|reflexivity].
  rewrite sar_testbit by lia. reflexivity.
Qed.

Lemma word_of_testbit b0 b1 b2 b3 n :
  0 <= n < 32 ->
  Z.testbit (word_of b0 b1 b2 b3) n =
    ((24 <=? n) && Z.testbit b0 (n - 24)) || ((16 <=? n) && Z.testbit b1 (n - 16))
    || ((8 <=? n) && Z.testbit b2 (n - 8)) || Z.testbit b3 n.
Proof.
  intros Hn. unfold word_of.
  rewrite !bor_testbit, !shl_testbit by lia. reflexivity.
Qed.

Lemma word_of_int32 b0 b1 b2 b3 : int32 (word_of b0 b1 b2 b3).
Proof. apply bor_int32. Qed.

Lemma word_of_byte_at w :
  int32 w -> word_of (byte_at w 24) (byte_at w 16) (byte_at w 8) (byte_at w 0) = w.
Proof.
  intros Hw. apply int32_ext; [apply word_of_int32|exact Hw|]. intros n Hn.
  rewrite word_of_testbit by lia.
  destruct (Z.leb_spec 24 n), (Z.leb_spec 16 n), (Z.leb_spec 8 n); try lia;
    decide_cmp; rewrite ?byte_at_testbit by lia; decide_cmp;
    rewrite ?orb_false_r; f_equal; lia.
Qed.

Lemma byte_at_word_of b0 b1 b2 b3 :
  0 <= b0 < 256 -> 0 <= b1 < 256 -> 0 <= b2 < 256 -> 0 <= b3 < 256 ->
  byte_at (word_of b0 b1 b2 b3) 24 = b0 /\ byte_at (word_of b0 b1 b2 b3) 16 = b1 /\
  byte_at (word_of b0 b1 b2 b3) 8 = b2 /\ byte_at (word_of b0 b1 b2 b3) 0 = b3.
Proof.
  intros H0 H1 H2 H3.
  repeat split; apply Z.bits_inj'; intros n Hn; rewrite byte_at_testbit by lia;
    (destruct (Z.ltb_spec n 8);
     [ rewrite word_of_testbit by lia
     | symmetry; apply byte_testbit_high; lia ]);
    decide_cmp;
    rewrite ?(byte_testbit_high b0), ?(byte_testbit_high b1), ?(byte_testbit_high b2),
      ?(byte_testbit_high b3) by lia;
    rewrite ?orb_false_r; f_equal; lia.
Qed.

End Packing.

(** ** Loops that undo each other *)

Lemma fold_left_inverse {St} (P : St -> Prop) (fwd bwd : St -> Z -> St) (l : list Z) :
  (forall s r, P s -> P (fwd s r)) ->
  (forall s r, P s -> bwd (fwd s r) r = s) ->
  forall s, P s -> fold_left bwd (rev l) (fold_left fwd l s) = s.
Proof.
  intros Hpres Hinv. induction l as [|r l IH]; intros s Hs; [reflexivity|].
  cbn [fold_left rev]. rewrite fold_left_app. cbn [fold_left].
  rewrite IH by (apply Hpres, Hs). apply Hinv, Hs.
Qed.

Lemma forEach_app {St} (body : St -> Z -> result St) (l1 l2 : list Z) (s : St) :
  forEach body (l1 ++ l2) s = let* s' := forEach body l1 s in forEach body l2 s'.
Proof.
  revert s. induction l1 as [|i l1 IH]; intros s; [reflexivity|].
  cbn [app forEach]. destruct (body s i) as [s'|e]; [apply IH|reflexivity].
Qed.

(** The same for loops whose bodies may throw: when every turn of the
    first loop returns and the matching turn of the second undoes it, the
    first loop returns and the second, run backwards, undoes it. *)
Lemma forEach_inverse {St} (P : St -> Prop) (fwd bwd : St -> Z -> result St) (l : list Z) :
  (forall s r, P s -> exists s', fwd s r = Ok s' /\ P s' /\ bwd s' r = Ok s) ->
  forall s, P s ->
  exists s', forEach fwd l s = Ok s' /\ P s' /\ forEach bwd (rev l) s' = Ok s.
Proof.
  intros Hstep. induction l as [|r l IH]; intros s Hs.
  - exists s. split; [reflexivity|]. split; [exact Hs|reflexivity].
  - destruct (Hstep s r Hs) as (s1 & E1 & P1 & B1).
    destruct (IH s1 P1) as (s2 & E2 & P2 & B2).
    exists s2. cbn [forEach rev]. rewrite E1. cbn [rbind]. split; [exact E2|].
    split; [exact P2|]. rewrite forEach_app, B2. cbn [rbind forEach]. rewrite B1. reflexivity.
Qed.

(** A loop whose body throws the same error at every turn throws it, as
    soon as it makes one turn. *)
Lemma forEach_throws {St} (body : St -> Z -> result St) (e : error) (i : Z) (l : list Z)
      (s : St) :
  (forall s r, body s r = Throw e) -> forEach body (i :: l) s = Throw e.
Proof. intros H. cbn [forEach]. rewrite H. reflexivity. Qed.

(** ** The twoFish block engine *)

Section TwoFishEngine.
Import JS Bits TwoFish.

Lemma pack_eq w0 w1 w2 w3 :
  pack (w0, w1, w2, w3) =
    [ byte_at w0 24; byte_at w0 16; byte_at w0 8; ToUint8 (w0 .& 0xFF);
      byte_at w1 24; byte_at w1 16; byte_at w1 8; ToUint8 (w1 .& 0xFF);
      byte_at w2 24; byte_at w2 16; byte_at w2 8; ToUint8 (w2 .& 0xFF);
      byte_at w3 24; byte_at w3 16; byte_at w3 8; ToUint8 (w3 .& 0xFF) ].
Proof. unfold byte_at. cbv -[band sar ToUint8]. reflexivity. Qed.

Lemma unpack_16 b0 b1 b2 b3 b4 b5 b6 b7 b8 b9 b10 b11 b12 b13 b14 b15 :
  unpack [b0; b1; b2; b3; b4; b5; b6; b7; b8; b9; b10; b11; b12; b13; b14; b15] =
    (word_of b0 b1 b2 b3, word_of b4 b5 b6 b7,
     word_of b8 b9 b10 b11, word_of b12 b13 b14 b15).
Proof. unfold word_of. cbv -[bor shl]. reflexivity. Qed.

Lemma length_pack w : length (pack w) = 16%nat.
Proof. destruct w as [[[w0 w1] w2] w3]. reflexivity. Qed.

Lemma unpack_pack w : int32_words w -> unpack (pack w) = w.
Proof.
  destruct w as [[[w0 w1] w2] w3]. intros (H0 & H1 & H2 & H3).
  rewrite pack_eq, unpack_16, !byte_at_0, !word_of_byte_at by assumption.
  reflexivity.
Qed.

Lemma pack_unpack blk : bytes blk -> length blk = 16%nat -> pack (unpack blk) = blk.
Proof.
  intros Hb Hl.
  do 16 (destruct blk as [|? blk]; [discriminate Hl|]).
  destruct blk; [|discriminate Hl].
  unfold bytes in Hb.
  repeat match goal with
         | H : Forall _ (_ :: _) |- _ => inversion_clear H
         end.
  rewrite unpack_16, pack_eq, !byte_at_0.
  repeat match goal with
         | |- context [byte_at (word_of ?a ?b ?c ?d) _] =>
             let E := fresh "E" in
             destruct (byte_at_word_of a b c d) as (E & E1 & E2 & E3); [assumption..|];
             rewrite E, E1, E2, E3; clear E E1 E2 E3
         end.
  reflexivity.
Qed.


Lemma whiten_int32 rk a w : int32_words (whiten rk a w).
Proof.
  destruct w as [[[w0 w1] w2] w3].
  refine (conj _ (conj _ (conj _ _))); apply bxor_int32.
Qed.

Lemma whiten_involutive rk a w : int32_words w -> whiten rk a (whiten rk a w) = w.
Proof.
  destruct w as [[[w0 w1] w2] w3]. intros (H0 & H1 & H2 & H3).
  cbn [whiten]. rewrite !bxor_cancel by assumption. reflexivity.
Qed.

(** On a row that the table has, the read of a literal table is the read
    that may throw; the literal tables have the four rows that are read. *)
Lemma table_entry_get2 m r c : 0 <= r < len m -> get2 m r c = Ok (table_entry m r c).
Proof.
  intros Hr. unfold get2, table_entry, idx. destruct (Z.ltb_spec r 0) as [|_]; [lia|].
  destruct (lookup_lt_is_Some_2 m (Z.to_nat r)) as [row E]; [unfold len in Hr; lia|].
  rewrite E. reflexivity.
Qed.

Lemma literal_tables_rows :
  len MDS_MATRIX = 4 /\ len RS_MATRIX = 4
  /\ forall t : MacGuffin.MaskTable, len (MacGuffin.maskRows t) = 4.
Proof. split; [reflexivity|]. split; [reflexivity|]. intros t. reflexivity. Qed.

(** [gFunction] returns when the table has its four rows, and throws
    otherwise. *)
Lemma gFunction_returns sb x : 4 <= len sb -> exists v, gFunction x sb = Ok v.
Proof.
  intros H. destruct sb as [|r0 [|r1 [|r2 [|r3 sb]]]];
    try (exfalso; unfold len in H; cbn [length] in H; lia).
  eexists. reflexivity.
Qed.

Lemma gFunction_throws sb x : len sb < 4 -> gFunction x sb = Throw TypeError.
Proof.
  intros H. destruct sb as [|r0 [|r1 [|r2 [|r3 sb]]]]; try reflexivity.
  exfalso. unfold len in H. cbn [length] in H. lia.
Qed.

Lemma unpack_int32 blk : length blk = 16%nat -> int32_words (unpack blk).
Proof.
  intros Hl.
  do 16 (destruct blk as [|? blk]; [discriminate Hl|]).
  destruct blk; [|discriminate Hl].
  rewrite unpack_16. refine (conj _ (conj _ (conj _ _))); apply word_of_int32.
Qed.

Lemma Throw_ne_Ok {A} e (a : A) : Throw e = Ok a -> False.
Proof. discriminate. Qed.

Lemma Ok_inj {A} (a b : A) : Ok a = Ok b -> a = b.
Proof. intros H. injection H. auto. Qed.

(** A round of encryption on a full table returns 32-bit words, and the
    same round of decryption undoes it. *)
Lemma encryptRound_inverse sb rk w r :
  4 <= len sb -> int32_words w ->
  exists w', encryptRound sb rk w r = Ok w' /\ int32_words w'
             /\ decryptRound sb (Some rk) w' r = Ok w.
Proof.
  intros Hsb. destruct w as [[[w0 w1] w2] w3]. intros (H0 & H1 & H2 & H3).
  destruct (gFunction_returns sb w0 Hsb) as [t0 E0].
  destruct (gFunction_returns sb (rot w1 8) Hsb) as [t1 E1].
  unfold encryptRound, decryptRound. rewrite E0, E1. cbn [rbind].
  destruct (PHT t0 t1) as [f0 f1] eqn:E.
  eexists. split; [reflexivity|].
  destruct (r <? NUM_ROUNDS - 1).
  - split; [refine (conj _ (conj _ (conj _ _)));
            first [assumption | apply rot_int32 | apply bxor_int32]|].
    rewrite E0, E1. cbn [rbind roundKeysArray]. rewrite E. apply f_equal.
    rewrite rot_left_right by apply bxor_int32.
    rewrite !bxor_cancel by first [assumption | apply rot_int32].
    rewrite rot_right_left by assumption. reflexivity.
  - split; [refine (conj _ (conj _ (conj _ _)));
            first [assumption | apply rot_int32 | apply bxor_int32]|].
    rewrite E0, E1. cbn [rbind roundKeysArray]. rewrite E. apply f_equal.
    rewrite rot_left_right by apply bxor_int32.
    rewrite !bxor_cancel by first [assumption | apply rot_int32].
    rewrite rot_right_left by assumption. reflexivity.
Qed.

(** Without its four rows the table stops both loops at their first
    round. *)
Lemma encryptRound_throws sb rk w r : len sb < 4 -> encryptRound sb rk w r = Throw TypeError.
Proof.
  intros Hsb. destruct w as [[[w0 w1] w2] w3]. unfold encryptRound.
  rewrite gFunction_throws by exact Hsb. reflexivity.
Qed.

Lemma decryptRound_throws sb rk w r : len sb < 4 -> decryptRound sb rk w r = Throw TypeError.
Proof.
  intros Hsb. destruct w as [[[w0 w1] w2] w3]. unfold decryptRound.
  destruct (r <? NUM_ROUNDS - 1); rewrite gFunction_throws by exact Hsb; reflexivity.
Qed.

Lemma rounds_cons : range 0 (Z.to_nat NUM_ROUNDS) = 0 :: range 1 15.
Proof. reflexivity. Qed.

Lemma rev_rounds_cons : rev (range 0 (Z.to_nat NUM_ROUNDS)) = 15 :: rev (range 0 15).
Proof. reflexivity. Qed.

Lemma encryptBlock_throws ke blk round_keys sb rk :
  Iface.sBoxes_ ke = Some sb -> Iface.roundKeys_ ke = Some rk -> len sb < 4 ->
  encryptBlock ke blk round_keys = Throw TypeError.
Proof.
  intros Hs Hr Hsb. unfold encryptBlock. rewrite Hs, Hr, rounds_cons.
  rewrite (forEach_throws _ TypeError) by (intros; apply encryptRound_throws, Hsb).
  reflexivity.
Qed.

Lemma decryptBlock_throws ke blk round_keys sb :
  Iface.sBoxes_ ke = Some sb -> len blk = BLOCK_SIZE_BYTES -> len sb < 4 ->
  decryptBlock ke blk round_keys = Throw TypeError.
Proof.
  intros Hs Hl Hsb. unfold decryptBlock. rewrite Hs, Hl, Z.eqb_refl, rev_rounds_cons.
  cbn [negb].
  rewrite (forEach_throws _ TypeError) by (intros; apply decryptRound_throws, Hsb).
  reflexivity.
Qed.

(** [encryptBlock] returns a block for every input once the round keys
    are set and the table has its four rows, and [decryptBlock] maps that
    block back when the input was a block of 16 bytes. *)
Lemma encryptBlock_returns ke blk round_keys sb rk :
  Iface.sBoxes_ ke = Some sb -> Iface.roundKeys_ ke = Some rk -> 4 <= len sb ->
  exists c, encryptBlock ke blk round_keys = Ok c /\ length c = 16%nat.
Proof.
  intros Hs Hr Hsb. unfold encryptBlock. rewrite Hs, Hr.
  destruct (forEach_inverse int32_words (encryptRound sb rk) (decryptRound sb (Some rk))
              (range 0 (Z.to_nat NUM_ROUNDS))
              (fun s r => encryptRound_inverse sb rk s r Hsb)
              (whiten round_keys 0 (unpack blk)) (whiten_int32 _ _ _)) as (w & E & _ & _).
  rewrite E. cbn [rbind]. eexists. split; [reflexivity|]. apply length_pack.
Qed.

(** A block that [encryptBlock] returns has 16 bytes. *)
Lemma encryptBlock_length ke blk round_keys c :
  encryptBlock ke blk round_keys = Ok c -> length c = 16%nat.
Proof.
  unfold encryptBlock.
  destruct (Iface.sBoxes_ ke); [|intros H; exfalso; revert H; apply Throw_ne_Ok].
  destruct (Iface.roundKeys_ ke); [|intros H; exfalso; revert H; apply Throw_ne_Ok].
  destruct (forEach _ _ _) as [w|e]; cbn [rbind];
    [|intros H; exfalso; revert H; apply Throw_ne_Ok].
  intros H. apply Ok_inj in H. rewrite <- H. apply length_pack.
Qed.

(** The engine inverts itself on every 16-byte block, whatever tables
    and round keys the key-expansion object holds: when [encryptBlock]
    returns, [decryptBlock] returns the block it was given. *)
Lemma decryptBlock_encryptBlock ke blk round_keys c :
  bytes blk -> length blk = 16%nat ->
  encryptBlock ke blk round_keys = Ok c ->
  decryptBlock ke c round_keys = Ok blk.
Proof.
  intros Hb Hl Henc.
  destruct (Iface.sBoxes_ ke) as [sb|] eqn:Hs;
    [|exfalso; revert Henc; unfold encryptBlock; rewrite Hs; apply Throw_ne_Ok].
  destruct (Iface.roundKeys_ ke) as [rk|] eqn:Hr;
    [|exfalso; revert Henc; unfold encryptBlock; rewrite Hs, Hr; apply Throw_ne_Ok].
  destruct (Z.lt_ge_cases (len sb) 4) as [Hlt|Hge].
  { exfalso. revert Henc. rewrite (encryptBlock_throws ke blk round_keys sb rk Hs Hr Hlt).
    apply Throw_ne_Ok. }
  destruct (forEach_inverse int32_words (encryptRound sb rk) (decryptRound sb (Some rk))
              (range 0 (Z.to_nat NUM_ROUNDS))
              (fun s r => encryptRound_inverse sb rk s r Hge)
              (whiten round_keys 0 (unpack blk)) (whiten_int32 _ _ _)) as (w & E & Hw & D).
  revert Henc. unfold encryptBlock, decryptBlock. rewrite Hs, Hr, E. cbn [rbind].
  intros H. apply Ok_inj in H. subst c.
  unfold len. rewrite length_pack. change (Z.of_nat 16 =? BLOCK_SIZE_BYTES) with true.
  cbn [negb].
  rewrite unpack_pack by apply whiten_int32.
  rewrite whiten_involutive by exact Hw.
  rewrite D. cbn [rbind]. apply f_equal.
  rewrite whiten_involutive by (apply unpack_int32, Hl).
  apply pack_unpack; assumption.
Qed.

End TwoFishEngine.

(** ** The MacGuffin block engine *)

Section MacGuffinEngine.
Import JS Bits MacGuffin.

Variable LOOKUP_MASKS : MaskTable.
Variable OUTPUT_MASKS : list Z.
Variable stable_ : list Z.
Hypothesis stable_uint16 : uint16s stable_.

Lemma uint16_of_bits x : (forall n, 16 <= n -> Z.testbit x n = false) -> uint16 x.
Proof.
  intros Hx. unfold uint16.
  assert (E : x = x mod 2^16).
  { apply Z.bits_inj'. intros n Hn. rewrite Z.testbit_mod_pow2 by lia.
    destruct (Z.ltb_spec n 16); [reflexivity|]. apply Hx. lia. }
  rewrite E. apply Z.mod_pos_bound. reflexivity.
Qed.

Lemma uint16_bits x n : uint16 x -> 16 <= n -> Z.testbit x n = false.
Proof. intros Hx Hn. apply (small_testbit_high x 16); [lia|exact Hx|lia]. Qed.

Lemma uint16_int32 x : uint16 x -> int32 x.
Proof. unfold uint16, int32. simpl. lia. Qed.

Lemma bxor_uint16 a b : uint16 a -> uint16 b -> uint16 (a .^ b).
Proof.
  intros Ha Hb. apply uint16_of_bits. intros n Hn. unfold bxor.
  rewrite Z.lxor_spec, !ToInt32_testbit by lia.
  rewrite (uint16_bits a), (uint16_bits b) by (assumption || lia). reflexivity.
Qed.

Lemma bor_uint16 a b : uint16 a -> uint16 b -> uint16 (a .| b).
Proof.
  intros Ha Hb. apply uint16_of_bits. intros n Hn. unfold bor.
  rewrite Z.lor_spec, !ToInt32_testbit by lia.
  rewrite (uint16_bits a), (uint16_bits b) by (assumption || lia). reflexivity.
Qed.

Lemma band_uint16_r a b : uint16 b -> uint16 (a .& b).
Proof.
  intros Hb. apply uint16_of_bits. intros n Hn. unfold band.
  rewrite Z.land_spec, !ToInt32_testbit by lia.
  rewrite (uint16_bits b) by (assumption || lia). apply andb_false_r.
Qed.

Lemma get_uint16 l i : uint16s l -> uint16 l.[i].
Proof.
  intros Hl. unfold get, idx. destruct (i <? 0); [cbn; unfold uint16; lia|].
  destruct (l !! Z.to_nat i) as [x|] eqn:E; cbn; [|unfold uint16; lia].
  unfold uint16s in Hl. rewrite Forall_lookup in Hl. exact (Hl _ _ E).
Qed.

Lemma fold_bor_uint16 (g : Z -> Z) l r :
  (forall j, uint16 (g j)) -> uint16 r ->
  uint16 (fold_left (fun result j => result .| g j) l r).
Proof.
  intros Hg. revert r. induction l as [|j l IH]; intros r Hr; [exact Hr|].
  cbn [fold_left]. apply IH, bor_uint16; [exact Hr|apply Hg].
Qed.

Lemma f_optimized_uint16 a b c :
  uint16 (f_optimized LOOKUP_MASKS OUTPUT_MASKS a b c stable_).
Proof.
  unfold f_optimized.
  apply (fold_bor_uint16
           (fun j => OUTPUT_MASKS.[j] .&
                     stable_.[(a .& table_entry (maskRows LOOKUP_MASKS) j 0)
                              .| (b .& table_entry (maskRows LOOKUP_MASKS) j 1)
                              .| (c .& table_entry (maskRows LOOKUP_MASKS) j 2)])).
  - intros j. apply band_uint16_r, get_uint16, stable_uint16.
  - unfold uint16. lia.
Qed.

Lemma encryptGroup_uint16 ek r i :
  uint16_regs r -> uint16_regs (encryptGroup LOOKUP_MASKS OUTPUT_MASKS stable_ ek r i).
Proof.
  destruct r as [[[r0 r1] r2] r3]. intros (H0 & H1 & H2 & H3).
  unfold encryptGroup.
  refine (conj _ (conj _ (conj _ _))); apply bxor_uint16;
    first [assumption | apply f_optimized_uint16].
Qed.

Lemma decryptGroup_encryptGroup ek r i :
  uint16_regs r ->
  decryptGroup LOOKUP_MASKS OUTPUT_MASKS stable_ ek
    (encryptGroup LOOKUP_MASKS OUTPUT_MASKS stable_ ek r i) i = r.
Proof.
  destruct r as [[[r0 r1] r2] r3]. intros (H0 & H1 & H2 & H3).
  unfold encryptGroup, decryptGroup. cbv zeta.
  rewrite (bxor_cancel r3) by (apply uint16_int32, H3).
  rewrite (bxor_cancel r2) by (apply uint16_int32, H2).
  rewrite (bxor_cancel r1) by (apply uint16_int32, H1).
  rewrite (bxor_cancel r0) by (apply uint16_int32, H0).
  reflexivity.
Qed.

Lemma ToUint8_low_testbit x n :
  0 <= n < 32 -> Z.testbit (ToUint8 x) n = (n <? 8) && Z.testbit x n.
Proof. intros. apply ToUint8_testbit. lia. Qed.

(** A 16-bit register is rebuilt from its two stored bytes. *)
Lemma join_split r : uint16 r -> ToUint8 r .| (ToUint8 (r >> 8) << 8) = r.
Proof.
  intros Hr. apply int32_ext; [apply bor_int32|apply uint16_int32, Hr|]. intros n Hn.
  rewrite bor_testbit, shl_testbit, ToUint8_testbit by lia.
  destruct (Z.ltb_spec n 8).
  - decide_cmp. apply orb_false_r.
  - decide_cmp. rewrite ToUint8_testbit by lia.
    destruct (Z.ltb_spec n 16).
    + decide_cmp. rewrite sar_testbit by lia. f_equal. lia.
    + decide_cmp. symmetry. apply uint16_bits; [exact Hr|lia].
Qed.

(** The two bytes stored from a register built of two bytes. *)
Lemma split_join b0 b1 :
  0 <= b0 < 256 -> 0 <= b1 < 256 ->
  ToUint8 (b0 .| (b1 << 8)) = b0 /\ ToUint8 ((b0 .| (b1 << 8)) >> 8) = b1.
Proof.
  intros H0 H1. split; apply Z.bits_inj'; intros n Hn; rewrite ToUint8_testbit by lia.
  - destruct (Z.ltb_spec n 8); [|symmetry; apply byte_testbit_high; lia].
    rewrite bor_testbit, shl_testbit by lia. decide_cmp. apply orb_false_r.
  - destruct (Z.ltb_spec n 8); [|symmetry; apply byte_testbit_high; lia].
    rewrite sar_testbit, bor_testbit, shl_testbit by lia. decide_cmp.
    rewrite (byte_testbit_high b0) by lia. cbn [orb]. f_equal. lia.
Qed.

Lemma join_uint16 b0 b1 : 0 <= b0 < 256 -> 0 <= b1 < 256 -> uint16 (b0 .| (b1 << 8)).
Proof.
  intros H0 H1. apply uint16_of_bits. intros n Hn. unfold bor, shl.
  change (8 mod 32) with 8.
  rewrite Z.lor_spec, !ToInt32_testbit, Z.shiftl_spec, ToInt32_testbit by lia.
  rewrite (byte_testbit_high b0), (byte_testbit_high b1) by lia. reflexivity.
Qed.

Lemma load_8 b0 b1 b2 b3 b4 b5 b6 b7 :
  load [b0; b1; b2; b3; b4; b5; b6; b7] =
    (b0 .| (b1 << 8), b2 .| (b3 << 8), b4 .| (b5 << 8), b6 .| (b7 << 8)).
Proof. cbv -[bor shl]. reflexivity. Qed.

Lemma length_store r : length (store r) = 8%nat.
Proof. destruct r as [[[r0 r1] r2] r3]. reflexivity. Qed.

Lemma store_bytes r : bytes (store r).
Proof.
  destruct r as [[[r0 r1] r2] r3]. unfold store, bytes.
  repeat (apply Forall_cons_2; [apply ToUint8_range|]). apply Forall_nil_2.
Qed.

Lemma load_store r : uint16_regs r -> load (store r) = r.
Proof.
  destruct r as [[[r0 r1] r2] r3]. intros (H0 & H1 & H2 & H3).
  unfold store. rewrite load_8, !join_split by assumption. reflexivity.
Qed.

Lemma load_uint16 blk : bytes blk -> length blk = 8%nat -> uint16_regs (load blk).
Proof.
  intros Hb Hl.
  do 8 (destruct blk as [|? blk]; [discriminate Hl|]).
  destruct blk; [|discriminate Hl]. unfold bytes in Hb.
  repeat match goal with
         | H : Forall _ (_ :: _) |- _ => inversion_clear H
         end.
  rewrite load_8. refine (conj _ (conj _ (conj _ _))); apply join_uint16; assumption.
Qed.

Lemma store_load blk : bytes blk -> length blk = 8%nat -> store (load blk) = blk.
Proof.
  intros Hb Hl.
  do 8 (destruct blk as [|? blk]; [discriminate Hl|]).
  destruct blk; [|discriminate Hl]. unfold bytes in Hb.
  repeat match goal with
         | H : Forall _ (_ :: _) |- _ => inversion_clear H
         end.
  rewrite load_8. unfold store.
  repeat match goal with
         | |- context [ToUint8 (?a .| (?b << 8))] =>
             let E := fresh "E" in let E' := fresh "E" in
             destruct (split_join a b) as (E & E'); [assumption..|];
             rewrite E, E'; clear E E'
         end.
  reflexivity.
Qed.

Lemma fold_encryptGroup_uint16 ek l r :
  uint16_regs r ->
  uint16_regs (fold_left (encryptGroup LOOKUP_MASKS OUTPUT_MASKS stable_ ek) l r).
Proof.
  revert r. induction l as [|i l IH]; intros r Hr; [exact Hr|].
  cbn [fold_left]. apply IH, encryptGroup_uint16, Hr.
Qed.

(** The engine inverts itself on every 8-byte block under every key
    table. *)
Lemma MacGuffin_decryptBlock_encryptBlock key blk :
  bytes blk -> length blk = 8%nat ->
  decryptBlock LOOKUP_MASKS OUTPUT_MASKS stable_
    (encryptBlock LOOKUP_MASKS OUTPUT_MASKS stable_ blk key) key = blk.
Proof.
  intros Hb Hl. unfold decryptBlock, encryptBlock. cbv zeta.
  rewrite load_store by (apply fold_encryptGroup_uint16, load_uint16; assumption).
  rewrite (fold_left_inverse uint16_regs).
  - apply store_load; assumption.
  - intros. apply encryptGroup_uint16. assumption.
  - intros. apply decryptGroup_encryptGroup. assumption.
  - apply load_uint16; assumption.
Qed.

End MacGuffinEngine.

Lemma sampleStable_uint16 : uint16s sampleStable.
Proof.
  unfold uint16s, sampleStable. apply List.Forall_forall. intros x Hx.
  apply in_map_iff in Hx. destruct Hx as (i & <- & _).
  unfold uint16. apply Z.mod_pos_bound. lia.
Qed.

(** ** The MacGuffin key schedule *)

Section MacGuffinSchedule.
Import JS Bits MacGuffin.

Variable LOOKUP_MASKS : MaskTable.
Variable OUTPUT_MASKS : list Z.
Variable stable_ : list Z.

Lemma get_nth l i : 0 <= i -> l.[i] = nth (Z.to_nat i) l 0.
Proof.
  intros Hi. unfold get, idx. replace (i <? 0) with false by lia.
  rewrite nth_lookup. reflexivity.
Qed.

Lemma join_le16 b0 b1 :
  0 <= b0 < 256 -> 0 <= b1 < 256 -> b0 .| (b1 << 8) = BootstrapSpec.le16 b0 b1.
Proof.
  intros H0 H1. unfold bor, shl, BootstrapSpec.le16. change (8 mod 32) with 8.
  rewrite (ToInt32_id b1) by (unfold int32; simpl; lia).
  rewrite (ToInt32_id b0) by (unfold int32; simpl; lia).
  rewrite Z.shiftl_mul_pow2 by lia. change (2 ^ 8) with 256.
  rewrite !(ToInt32_id (b1 * 256)) by (unfold int32; simpl; lia).
  rewrite Z.or_to_plus; [lia|].
  apply Z.bits_inj'. intros n Hn. rewrite Z.land_spec, Z.bits_0.
  destruct (Z.ltb_spec n 8).
  - change 256 with (2 ^ 8). rewrite Z.mul_pow2_bits_low by lia. apply andb_false_r.
  - rewrite (byte_testbit_high b0) by lia. reflexivity.
Qed.

Lemma xor_store_uint16 a b : uint16 a -> uint16 b -> ToUint16 (a .^ b) = Z.lxor a b.
Proof.
  intros Ha Hb. unfold ToUint16.
  rewrite Z.mod_small by (apply bxor_uint16; assumption).
  unfold bxor. rewrite !ToInt32_id by (apply uint16_int32; assumption). reflexivity.
Qed.

Lemma lxor_uint16 a b : uint16 a -> uint16 b -> uint16 (Z.lxor a b).
Proof. intros Ha Hb. rewrite <- xor_store_uint16 by assumption. apply Z.mod_pos_bound. reflexivity. Qed.

Lemma nth_uint16 l n : uint16s l -> uint16 (nth n l 0).
Proof.
  intros Hl. rewrite nth_lookup. destruct (l !! n) as [x|] eqn:E; cbn.
  - unfold uint16s in Hl. rewrite Forall_lookup in Hl. exact (Hl _ _ E).
  - unfold uint16. lia.
Qed.

Lemma le16_uint16 b0 b1 : 0 <= b0 < 256 -> 0 <= b1 < 256 -> uint16 (BootstrapSpec.le16 b0 b1).
Proof. unfold uint16, BootstrapSpec.le16. simpl. lia. Qed.

(** One write of the source loop is one [xorInto] of the specification. *)
Lemma set_xor_xorInto table j b0 b1 :
  uint16s table -> 0 <= b0 < 256 -> 0 <= b1 < 256 ->
  set table (Z.of_nat j) (ToUint16 (table.[Z.of_nat j] .^ (b0 .| (b1 << 8)))) =
    BootstrapSpec.xorInto table j (BootstrapSpec.le16 b0 b1)
  /\ uint16s (BootstrapSpec.xorInto table j (BootstrapSpec.le16 b0 b1)).
Proof.
  intros Ht H0 H1. unfold set, BootstrapSpec.xorInto.
  destruct (Z.ltb_spec (Z.of_nat j) 0); [lia|].
  rewrite get_nth, Nat2Z.id, join_le16 by lia.
  rewrite xor_store_uint16 by (apply nth_uint16 || apply le16_uint16; assumption).
  split; [reflexivity|].
  apply Forall_insert; [exact Ht|].
  apply lxor_uint16; [apply nth_uint16, Ht|apply le16_uint16; assumption].
Qed.

Lemma nth_byte l n : bytes l -> 0 <= nth n l 0 < 256.
Proof.
  intros Hl. rewrite nth_lookup. destruct (l !! n) as [x|] eqn:E; cbn; [|lia].
  unfold bytes in Hl. rewrite Forall_lookup in Hl. exact (Hl _ _ E).
Qed.

Lemma get_byte l i : bytes l -> 0 <= l.[i] < 256.
Proof.
  intros Hl. unfold get, idx. destruct (i <? 0); [cbn; lia|].
  destruct (l !! Z.to_nat i) as [x|] eqn:E; cbn; [|lia].
  unfold bytes in Hl. rewrite Forall_lookup in Hl. exact (Hl _ _ E).
Qed.

Lemma idx_of_nat {A} (l : list A) (i : nat) : idx l (Z.of_nat i) = l !! i.
Proof.
  unfold idx. destruct (Z.ltb_spec (Z.of_nat i) 0); [lia|]. rewrite Nat2Z.id. reflexivity.
Qed.

Local Abbreviation bc := (FeistelBlockCipher LOOKUP_MASKS OUTPUT_MASKS stable_).
Local Abbreviation E := (MacGuffin_engine LOOKUP_MASKS OUTPUT_MASKS stable_).

Lemma engine_bytes half table : bytes (E half table).
Proof. apply store_bytes. Qed.

(** One turn of the inner loop is one iteration of the specification. *)
Lemma keysetStep_iteration (i : nat) ks half table (j : nat) :
  ks !! i = Some half -> uint16s table ->
  keysetStep bc (Z.of_nat i) {| k := ks; ek := {| val := table |} |} (Z.of_nat j) =
    Ok {| k := <[i := fst (BootstrapSpec.iteration E (half, table) j)]> ks;
          ek := {| val := snd (BootstrapSpec.iteration E (half, table) j) |} |}
  /\ uint16s (snd (BootstrapSpec.iteration E (half, table) j)).
Proof.
  intros Hk Ht. unfold keysetStep, BootstrapSpec.iteration.
  cbn [k ek val Iface.encryptBlock FeistelBlockCipher rbind fst snd].
  rewrite idx_of_nat, Hk, Nat2Z.id. cbn [default from_option id].
  pose proof (engine_bytes half table) as Hb. revert Hb.
  unfold MacGuffin_engine.
  generalize (encryptBlock LOOKUP_MASKS OUTPUT_MASKS stable_ half {| val := table |}).
  intros ki Hb.
  replace (Z.of_nat j * 3) with (Z.of_nat (3 * j)) by lia.
  replace (Z.of_nat (3 * j) + 1) with (Z.of_nat (3 * j + 1)) by lia.
  replace (Z.of_nat (3 * j) + 2) with (Z.of_nat (3 * j + 2)) by lia.
  destruct (set_xor_xorInto table (3 * j) ki.[0] ki.[1] Ht)
    as [E1 U1]; [apply get_byte, Hb..|].
  rewrite E1.
  destruct (set_xor_xorInto _ (3 * j + 1) ki.[2] ki.[3] U1)
    as [E2 U2]; [apply get_byte, Hb..|].
  rewrite E2.
  destruct (set_xor_xorInto _ (3 * j + 2) ki.[4] ki.[5] U2)
    as [E3 U3]; [apply get_byte, Hb..|].
  rewrite E3. clear E1 E2 E3.
  rewrite !(get_nth ki) in * by lia.
  change (Z.to_nat 0) with 0%nat in *. change (Z.to_nat 1) with 1%nat in *.
  change (Z.to_nat 2) with 2%nat in *. change (Z.to_nat 3) with 3%nat in *.
  change (Z.to_nat 4) with 4%nat in *. change (Z.to_nat 5) with 5%nat in *.
  split; [reflexivity|exact U3].
Qed.

(** The inner loop over [j] is the fold of the specification. *)
Lemma inner_loop_fold (i : nat) (l : list nat) : forall ks half table,
  ks !! i = Some half -> uint16s table ->
  forEach (keysetStep bc (Z.of_nat i)) (map (fun n => 0 + Z.of_nat n) l)
          {| k := ks; ek := {| val := table |} |} =
    Ok {| k := <[i := fst (fold_left (BootstrapSpec.iteration E) l (half, table))]> ks;
          ek := {| val := snd (fold_left (BootstrapSpec.iteration E) l (half, table)) |} |}
  /\ uint16s (snd (fold_left (BootstrapSpec.iteration E) l (half, table))).
Proof.
  induction l as [|n l IH]; intros ks half table Hk Ht.
  - cbn [map forEach fold_left fst snd]. rewrite list_insert_id by exact Hk.
    split; [reflexivity|exact Ht].
  - cbn [map forEach fold_left]. rewrite Z.add_0_l.
    destruct (keysetStep_iteration i ks half table n Hk Ht) as [Ek U].
    rewrite Ek. cbn [rbind]. clear Ek. revert U.
    generalize (BootstrapSpec.iteration E (half, table) n). intros [h1 t1] U.
    cbn [fst snd] in *.
    assert (Hi : (i < length ks)%nat) by (eapply lookup_lt_Some; exact Hk).
    destruct (IH (<[i := h1]> ks) h1 t1) as [El Ul];
      [apply list_lookup_insert_eq; exact Hi|exact U|].
    rewrite El, list_insert_insert_eq. split; [reflexivity|exact Ul].
Qed.

Lemma xorInto_length table pos w : length (BootstrapSpec.xorInto table pos w) = length table.
Proof. unfold BootstrapSpec.xorInto. apply length_insert. Qed.

Lemma fold_iteration_length l : forall half table,
  length (snd (fold_left (BootstrapSpec.iteration E) l (half, table))) = length table.
Proof.
  induction l as [|n l IH]; intros half table; [reflexivity|].
  cbn [fold_left]. unfold BootstrapSpec.iteration at 2. rewrite IH.
  rewrite !xorInto_length. reflexivity.
Qed.

Lemma replicate_uint16s n : uint16s (replicate n 0).
Proof. apply Forall_replicate. unfold uint16. lia. Qed.

(** [generateRoundKeys] with the MacGuffin engine returns the table of
    the specification. *)
Lemma generateRoundKeys_schedule masterKey :
  generateRoundKeys masterKey bc = Ok {| val := BootstrapSpec.schedule E masterKey |}.
Proof.
  unfold generateRoundKeys, BootstrapSpec.schedule, BootstrapSpec.foldHalf.
  change (range 0 2) with [Z.of_nat 0; Z.of_nat 1].
  change (range 0 32) with (map (fun n => 0 + Z.of_nat n) (seq 0 32)).
  change (slice masterKey 0 8) with (take 8 masterKey).
  change (slice masterKey 8 16) with (take 8 (drop 8 masterKey)).
  change (Z.to_nat KSIZE) with 96%nat.
  cbn [forEach].
  destruct (inner_loop_fold 0 (seq 0 32) [take 8 masterKey; take 8 (drop 8 masterKey)]
              (take 8 masterKey) (replicate 96 0)) as [E0 U0];
    [reflexivity|apply replicate_uint16s|].
  rewrite E0. cbn [rbind]. clear E0.
  cbn [insert list_insert].
  destruct (inner_loop_fold 1 (seq 0 32)
              [fst (fold_left (BootstrapSpec.iteration E) (seq 0 32)
                              (take 8 masterKey, replicate 96 0));
               take 8 (drop 8 masterKey)]
              (take 8 (drop 8 masterKey))
              (snd (fold_left (BootstrapSpec.iteration E) (seq 0 32)
                              (take 8 masterKey, replicate 96 0)))) as [E1 U1];
    [reflexivity|exact U0|].
  rewrite E1. cbn [rbind ek]. reflexivity.
Qed.

Lemma schedule_uint16s masterKey :
  uint16s (BootstrapSpec.schedule E masterKey)
  /\ length (BootstrapSpec.schedule E masterKey) = 96%nat.
Proof.
  unfold BootstrapSpec.schedule, BootstrapSpec.foldHalf. split.
  - destruct (inner_loop_fold 0 (seq 0 32) [take 8 masterKey]
                (take 8 masterKey) (replicate 96 0)) as [_ U0];
      [reflexivity|apply replicate_uint16s|].
    destruct (inner_loop_fold 0 (seq 0 32) [take 8 (drop 8 masterKey)]
                (take 8 (drop 8 masterKey))
                (snd (fold_left (BootstrapSpec.iteration E) (seq 0 32)
                                (take 8 masterKey, replicate 96 0)))) as [_ U1];
      [reflexivity|exact U0|].
    exact U1.
  - rewrite !fold_iteration_length. apply length_replicate.
Qed.

End MacGuffinSchedule.

(** ** The session that [setMasterKey] builds *)

Lemma twoFish_newKeyExpansion_Ok masterKey :
  In (JS.len masterKey) TwoFish.MASTER_KEY_SIZE_BYTES ->
  exists ke rk sb,
    TwoFish.newKeyExpansion masterKey = Ok ke
    /\ Iface.roundKeys_ (TwoFish.base ke) = Some rk
    /\ Iface.sBoxes_ (TwoFish.base ke) = Some sb.
Proof.
  intros Hlen. unfold TwoFish.newKeyExpansion.
  assert (Hmod : negb (JS.len masterKey mod 8 =? 0) = false).
  { unfold TwoFish.MASTER_KEY_SIZE_BYTES in Hlen. cbn [In] in Hlen.
    destruct Hlen as [<-|[<-|[<-|[]]]]; reflexivity. }
  rewrite Hmod. destruct (TwoFish.vectorsMS masterKey) as [vM vS].
  do 3 eexists. split; [reflexivity|]. split; reflexivity.
Qed.

(** The session after [setMasterKey] on a fresh context. *)
Lemma setMasterKey_fresh masterKey ke :
  In (JS.len masterKey) TwoFish.MASTER_KEY_SIZE_BYTES ->
  TwoFish.newKeyExpansion masterKey = Ok ke ->
  Session.setMasterKey masterKey (Session.newContext (list Z)) =
    (Ok tt, {| Session._blockCipher := TwoFish_FeistelBlockCipher (TwoFish.base ke);
               Session._keyExpansion := TwoFish.base ke;
               Session._mode := ECB; Session._padding := Zeros; Session._iv := None |}).
Proof.
  intros Hlen Hke. unfold Session.setMasterKey.
  assert (Hex : existsb (fun length => length =? JS.len masterKey)
                        TwoFish.MASTER_KEY_SIZE_BYTES = true).
  { apply existsb_exists. exists (JS.len masterKey). split; [exact Hlen|apply Z.eqb_refl]. }
  rewrite Hex. cbn [negb]. unfold Session.bind, Session.lift. rewrite Hke. reflexivity.
Qed.

(** ** C9: the MacGuffin key schedule is the bootstrap fold *)

(** C9.  For every master key, [generateRoundKeys] run with the MacGuffin
    block engine returns exactly the table that the bootstrap fold of the
    specification computes: 96 words starting from zero, the two 8-byte
    halves each encrypted 32 times under the partially filled table, three
    little-endian 16-bit words of bytes 0..5 XORed into entries 3j, 3j+1,
    3j+2.  The finished table has 96 entries of 16 bits, and the copy that
    the engine takes of it on each call is the table itself: the engine
    only reads it. *)
Theorem C9_key_schedule_is_bootstrap_fold
    (LOOKUP_MASKS : MacGuffin.MaskTable) (OUTPUT_MASKS stable_ : list Z) (masterKey : list Z) :
  let engine := MacGuffin.FeistelBlockCipher LOOKUP_MASKS OUTPUT_MASKS stable_ in
  let table := BootstrapSpec.schedule
                 (MacGuffin_engine LOOKUP_MASKS OUTPUT_MASKS stable_) masterKey in
  MacGuffin.generateRoundKeys masterKey engine = Ok {| MacGuffin.val := table |}
  /\ length table = 96%nat
  /\ uint16s table
  /\ MacGuffin.Uint16Array_from table = table.
Proof.
  cbv zeta.
  destruct (schedule_uint16s LOOKUP_MASKS OUTPUT_MASKS stable_ masterKey) as [Hu Hl].
  split; [apply generateRoundKeys_schedule|]. split; [exact Hl|]. split; [exact Hu|].
  unfold MacGuffin.Uint16Array_from. revert Hu.
  generalize (BootstrapSpec.schedule (MacGuffin_engine LOOKUP_MASKS OUTPUT_MASKS stable_)
                                     masterKey).
  intros t Ht. induction Ht as [|x t Hx Ht IH]; [reflexivity|].
  cbn [map]. rewrite IH. f_equal. unfold JS.ToUint16. apply Z.mod_small. exact Hx.
Qed.

(** ** The twoFish key schedule *)

Section TwoFishSchedule.
Import JS Bits TwoFish.

Lemma range_S a m : range a (S m) = range a m ++ [a + Z.of_nat m].
Proof. unfold range. rewrite seq_S, map_app. reflexivity. Qed.

Lemma length_range a m : length (range a m) = m.
Proof. unfold range. rewrite length_map. apply length_seq. Qed.

Lemma lookup_range a m n : (n < m)%nat -> range a m !! n = Some (a + Z.of_nat n).
Proof.
  intros Hn. unfold range. rewrite list_lookup_fmap, lookup_seq_lt by exact Hn.
  reflexivity.
Qed.

Lemma set_of_nat l (n : nat) v : set l (0 + Z.of_nat n) v = <[n := v]> l.
Proof.
  unfold set. rewrite Z.add_0_l. destruct (Z.ltb_spec (Z.of_nat n) 0); [lia|].
  rewrite Nat2Z.id. reflexivity.
Qed.

(** A loop that assigns [f j] to slot [j] for [j = 0 .. m-1]. *)
Lemma fold_set_range (f : Z -> Z) (m : nat) : forall row,
  (m <= length row)%nat ->
  fold_left (fun row j => set row j (f j)) (range 0 m) row =
    map f (range 0 m) ++ drop m row.
Proof.
  induction m as [|m IH]; intros row Hm; [reflexivity|].
  rewrite (range_S 0 m), fold_left_app, IH by lia. cbn [fold_left].
  rewrite set_of_nat, map_app, <- app_assoc. cbn [map app].
  rewrite insert_app_r_alt by (rewrite length_map, length_range; lia).
  rewrite length_map, length_range, Nat.sub_diag.
  destruct (lookup_lt_is_Some_2 row m) as [x Hx]; [lia|].
  rewrite (drop_S _ _ _ Hx). reflexivity.
Qed.

(** The inner loop of [generateSBoxesInternal] rewrites row [i] only. *)
Lemma inner_sbox_loop (f : Z -> Z) (i : nat) (js : list Z) : forall sBoxes row,
  sBoxes !! i = Some row ->
  fold_left (fun sBoxes j =>
               match idx sBoxes (0 + Z.of_nat i) with
               | Some row => <[Z.to_nat (0 + Z.of_nat i) := set row j (f j)]> sBoxes
               | None => sBoxes
               end) js sBoxes =
    <[i := fold_left (fun row j => set row j (f j)) js row]> sBoxes.
Proof.
  rewrite Z.add_0_l, Nat2Z.id.
  induction js as [|j js IH]; intros sBoxes row Hrow; cbn [fold_left].
  - symmetry. apply list_insert_id, Hrow.
  - rewrite idx_of_nat, Hrow.
    assert (Hi : (i < length sBoxes)%nat) by (eapply lookup_lt_Some; exact Hrow).
    rewrite (IH _ (set row j (f j))) by (apply list_lookup_insert_eq; exact Hi).
    apply list_insert_insert_eq.
Qed.

(** The nested loops fill every row with the same 256 values. *)
Lemma fold_sbox_rows (f : Z -> Z) (m : nat) : forall sBoxes,
  (m <= length sBoxes)%nat -> Forall (fun row => length row = 256%nat) sBoxes ->
  fold_left (fun sBoxes i =>
               fold_left (fun sBoxes j =>
                            match idx sBoxes i with
                            | Some row => <[Z.to_nat i := set row j (f j)]> sBoxes
                            | None => sBoxes
                            end) (range 0 256) sBoxes)
            (range 0 m) sBoxes =
    replicate m (map f (range 0 256)) ++ drop m sBoxes.
Proof.
  induction m as [|m IH]; intros sBoxes Hm Hrows; [reflexivity|].
  rewrite (range_S 0 m), fold_left_app, IH by (lia || assumption). cbn [fold_left].
  destruct (lookup_lt_is_Some_2 sBoxes m) as [row Hrow]; [lia|].
  assert (Hlen : length row = 256%nat)
    by (rewrite Forall_lookup in Hrows; exact (Hrows _ _ Hrow)).
  rewrite (inner_sbox_loop f m (range 0 256) _ row).
  2:{ rewrite lookup_app_r by (rewrite length_replicate; lia).
      rewrite length_replicate, Nat.sub_diag, lookup_drop, Nat.add_0_r. exact Hrow. }
  rewrite fold_set_range by lia.
  replace (drop 256 row) with (@nil Z)
    by (symmetry; apply drop_ge; lia).
  rewrite app_nil_r.
  rewrite insert_app_r_alt by (rewrite length_replicate; lia).
  rewrite length_replicate, Nat.sub_diag, (drop_S _ _ _ Hrow). cbn [insert list_insert].
  rewrite replicate_S_end, <- app_assoc. reflexivity.
Qed.

Lemma generateSBoxesInternal_eq vS :
  generateSBoxesInternal vS = replicate 4 (map (fun j => h j vS) (range 0 256)).
Proof.
  unfold generateSBoxesInternal.
  rewrite (fold_sbox_rows (fun j => h j vS) 4).
  - rewrite drop_ge by (rewrite length_replicate; lia). apply app_nil_r.
  - rewrite length_replicate. lia.
  - apply Forall_replicate. apply length_replicate.
Qed.

Lemma mds_int32 y : int32 (mds y).
Proof. apply bor_int32. Qed.

Lemma h_int32 x l : int32 (h x l).
Proof.
  unfold h. repeat match goal with |- context [if ?c then _ else _] => destruct c end;
    apply mds_int32.
Qed.

Lemma set_nat l z v : 0 <= z -> set l z v = <[Z.to_nat z := v]> l.
Proof. intros. unfold set. destruct (Z.ltb_spec z 0); [lia|reflexivity]. Qed.

Lemma length_flat_map_pairs vM l :
  length (flat_map (codeRoundKeyPair vM) l) = (2 * length l)%nat.
Proof. induction l as [|i l IH]; cbn [flat_map length app codeRoundKeyPair]; lia. Qed.

(** The loop of [generateRoundKeysInternal] after [m] turns. *)
Lemma fold_round_keys vM (m : nat) :
  (m <= 20)%nat ->
  fold_left (fun roundKeys i =>
               set (set roundKeys (2 * i)
                        (fst (PHT (h vM.[2 * i] vM) (h vM.[2 * i + 1] vM))))
                   (2 * i + 1) (snd (PHT (h vM.[2 * i] vM) (h vM.[2 * i + 1] vM))))
            (range 0 m) (replicate 40 0) =
    flat_map (codeRoundKeyPair vM) (range 0 m) ++ replicate (40 - 2 * m) 0.
Proof.
  induction m as [|m IH]; intros Hm; [reflexivity|].
  rewrite (range_S 0 m), fold_left_app, IH by lia. cbn [fold_left]. cbv zeta.
  rewrite flat_map_app. cbn [flat_map]. rewrite app_nil_r, <- app_assoc.
  rewrite !set_nat by lia.
  replace (Z.to_nat (2 * (0 + Z.of_nat m))) with (2 * m)%nat by lia.
  replace (Z.to_nat (2 * (0 + Z.of_nat m) + 1)) with (S (2 * m))%nat by lia.
  replace (40 - 2 * m)%nat with (S (S (40 - 2 * S m)))%nat by lia.
  cbn [replicate].
  assert (Hl : length (flat_map (codeRoundKeyPair vM) (range 0 m)) = (2 * m)%nat)
    by (rewrite length_flat_map_pairs, length_range; reflexivity).
  rewrite insert_app_r_alt by lia. rewrite Hl, Nat.sub_diag. cbn [insert list_insert].
  rewrite insert_app_r_alt by lia. rewrite Hl.
  replace (S (2 * m) - 2 * m)%nat with 1%nat by lia. cbn [insert list_insert].
  reflexivity.
Qed.

(** What [generateRoundKeysInternal] returns: 20 pairs, 40 words. *)
Lemma generateRoundKeysInternal_eq vM :
  generateRoundKeysInternal vM = flat_map (codeRoundKeyPair vM) (range 0 20)
  /\ length (generateRoundKeysInternal vM) = 40%nat.
Proof.
  unfold generateRoundKeysInternal. cbv zeta. rewrite (fold_round_keys vM 20) by lia.
  cbn [replicate Nat.sub Nat.mul Nat.add]. rewrite app_nil_r.
  split; [reflexivity|]. rewrite length_flat_map_pairs, length_range. reflexivity.
Qed.

End TwoFishSchedule.

(** C10.  For every master key of a supported length the key expansion
    succeeds and stores four S-box tables of 256 entries each; for every
    table index [i] in 0..3 and every byte value [j] the entry [i][j] is
    [h(j, S)], a signed 32-bit word that does not depend on [i], so that
    the four tables are identical. *)
Theorem C10_sboxes_identical_words (masterKey : list Z) :
  In (JS.len masterKey) TwoFish.MASTER_KEY_SIZE_BYTES ->
  exists ke sBoxes,
    TwoFish.newKeyExpansion masterKey = Ok ke
    /\ Iface.sBoxes_ (TwoFish.base ke) = Some sBoxes
    /\ length sBoxes = 4%nat
    /\ (forall i j, 0 <= i < 4 -> 0 <= j < 256 ->
          exists row, JS.idx sBoxes i = Some row
                      /\ length row = 256%nat
                      /\ JS.idx row j = Some (TwoFish.h j (TwoFish.S' ke))
                      /\ int32 (TwoFish.h j (TwoFish.S' ke)))
    /\ (forall i i', 0 <= i < 4 -> 0 <= i' < 4 -> JS.idx sBoxes i = JS.idx sBoxes i').
Proof.
  intros Hlen. unfold TwoFish.newKeyExpansion.
  assert (Hmod : negb (JS.len masterKey mod 8 =? 0) = false).
  { unfold TwoFish.MASTER_KEY_SIZE_BYTES in Hlen. cbn [In] in Hlen.
    destruct Hlen as [<-|[<-|[<-|[]]]]; reflexivity. }
  rewrite Hmod. destruct (TwoFish.vectorsMS masterKey) as [vM vS].
  do 2 eexists. split; [reflexivity|].
  cbn [TwoFish.base Iface.sBoxes_ TwoFish.S']. split; [reflexivity|].
  rewrite generateSBoxesInternal_eq.
  assert (Hrow : forall i, 0 <= i < 4 ->
            JS.idx (replicate 4 (map (fun j => TwoFish.h j vS) (JS.range 0 256))) i =
              Some (map (fun j => TwoFish.h j vS) (JS.range 0 256))).
  { intros i Hi. unfold JS.idx. destruct (Z.ltb_spec i 0); [lia|].
    apply lookup_replicate_2. lia. }
  split; [apply length_replicate|]. split.
  - intros i j Hi Hj. eexists. split; [apply Hrow, Hi|].
    split; [rewrite length_map; apply length_range|]. split; [|apply h_int32].
    unfold JS.idx. destruct (Z.ltb_spec j 0); [lia|].
    rewrite list_lookup_fmap, lookup_range by lia. cbn. do 2 f_equal. lia.
  - intros i i' Hi Hi'. rewrite !Hrow by assumption. reflexivity.
Qed.

Lemma C10_sboxes_identical_words_witness :
  exists ke sBoxes,
    TwoFish.newKeyExpansion (replicate 24 7) = Ok ke
    /\ Iface.sBoxes_ (TwoFish.base ke) = Some sBoxes
    /\ length sBoxes = 4%nat
    /\ (forall i j, 0 <= i < 4 -> 0 <= j < 256 ->
          exists row, JS.idx sBoxes i = Some row
                      /\ length row = 256%nat
                      /\ JS.idx row j = Some (TwoFish.h j (TwoFish.S' ke))
                      /\ int32 (TwoFish.h j (TwoFish.S' ke)))
    /\ (forall i i', 0 <= i < 4 -> 0 <= i' < 4 -> JS.idx sBoxes i = JS.idx sBoxes i').
Proof.
  apply (C10_sboxes_identical_words (replicate 24 7)).
  right. left. reflexivity.
Defined.

(** An S-box entry is a 32-bit word, not a byte: the entry for byte value 0
    under the all-zero 16-byte key. *)
Example sbox_entry_exceeds_byte :
  fst (TwoFish.vectorsMS (replicate 16 0)) = [0; 0; 0; 0]
  /\ snd (TwoFish.vectorsMS (replicate 16 0)) = [0; 0]
  /\ TwoFish.h 0 [0; 0] = -1385667126.
Proof. vm_compute. repeat split. Qed.

(** ** C2: the round-key words *)

(** What the source computes for every key vector [M]: 40 words, the pair
    at [2i], [2i+1] being [PHT(h(M[2i], M), h(M[2i+1], M))], where an entry
    of [M] past its end reads as [0]. *)
Lemma round_keys_of_code vM i :
  0 <= i < 20 ->
  length (TwoFish.generateRoundKeysInternal vM) = 40%nat
  /\ JS.idx (TwoFish.generateRoundKeysInternal vM) (2 * i) =
       Some (fst (TwoFish.PHT (TwoFish.h vM.[2 * i] vM) (TwoFish.h vM.[2 * i + 1] vM)))
  /\ JS.idx (TwoFish.generateRoundKeysInternal vM) (2 * i + 1) =
       Some (snd (TwoFish.PHT (TwoFish.h vM.[2 * i] vM) (TwoFish.h vM.[2 * i + 1] vM))).
Proof.
  intros Hi. destruct (generateRoundKeysInternal_eq vM) as [E L]. split; [exact L|].
  rewrite E. clear E L.
  assert (Hgen : forall (m n : nat),
             (n < m)%nat ->
             flat_map (codeRoundKeyPair vM) (JS.range 0 m) !! (2 * n)%nat =
               Some (fst (TwoFish.PHT (TwoFish.h vM.[2 * Z.of_nat n] vM)
                                      (TwoFish.h vM.[2 * Z.of_nat n + 1] vM)))
             /\ flat_map (codeRoundKeyPair vM) (JS.range 0 m) !! (S (2 * n))%nat =
               Some (snd (TwoFish.PHT (TwoFish.h vM.[2 * Z.of_nat n] vM)
                                      (TwoFish.h vM.[2 * Z.of_nat n + 1] vM)))).
  { induction m as [|m IH]; intros n Hn; [lia|].
    rewrite (range_S 0 m), flat_map_app. cbn [flat_map]. rewrite app_nil_r.
    assert (Hl : length (flat_map (codeRoundKeyPair vM) (JS.range 0 m)) = (2 * m)%nat)
      by (rewrite length_flat_map_pairs, length_range; reflexivity).
    destruct (Nat.eq_dec n m) as [->|Hne].
    - rewrite !lookup_app_r by lia. rewrite Hl.
      replace (2 * m - 2 * m)%nat with 0%nat by lia.
      replace (S (2 * m) - 2 * m)%nat with 1%nat by lia.
      rewrite Z.add_0_l. split; reflexivity.
    - rewrite !lookup_app_l by lia. apply (IH n). lia. }
  destruct (Hgen 20%nat (Z.to_nat i)) as [H0 H1]; [lia|].
  rewrite Z2Nat.id in H0, H1 by lia.
  unfold JS.idx. destruct (Z.ltb_spec (2 * i) 0); [lia|].
  destruct (Z.ltb_spec (2 * i + 1) 0); [lia|].
  replace (Z.to_nat (2 * i)) with (2 * Z.to_nat i)%nat by lia.
  replace (Z.to_nat (2 * i + 1)) with (S (2 * Z.to_nat i))%nat by lia.
  split; assumption.
Qed.

(** C2 at the all-zero 16-byte key.  The key expansion succeeds with
    [M = [0; 0; 0; 0]] and 40 round-key words; word 0 is the first
    component of [PHT(h(M[0], M), h(M[1], M)) = PHT(h(0, M), h(0, M))],
    namely 1198803250, whereas [PHT(h(0, M), h(1, M))] of the claim gives
    -206892530; the derived sequence differs from the claimed one. *)
Theorem C2_round_keys_at_zero_key :
  exists ke roundKeys,
    TwoFish.newKeyExpansion (replicate 16 0) = Ok ke
    /\ TwoFish.M ke = [0; 0; 0; 0]
    /\ Iface.roundKeys_ (TwoFish.base ke) = Some roundKeys
    /\ length roundKeys = 40%nat
    /\ JS.idx roundKeys 0 = Some 1198803250
    /\ JS.idx (specRoundKeys (TwoFish.M ke)) 0 = Some (-206892530)
    /\ roundKeys <> specRoundKeys (TwoFish.M ke).
Proof.
  assert (HMS : TwoFish.vectorsMS (replicate 16 0) = ([0; 0; 0; 0], [0; 0]))
    by (vm_compute; reflexivity).
  unfold TwoFish.newKeyExpansion.
  change (negb (JS.len (replicate 16 0) mod 8 =? 0)) with false. cbv iota.
  rewrite HMS. do 2 eexists. split; [reflexivity|].
  cbn [TwoFish.M TwoFish.base Iface.roundKeys_].
  split; [reflexivity|]. split; [reflexivity|].
  split; [apply generateRoundKeysInternal_eq|].
  split; [vm_compute; reflexivity|]. split; [vm_compute; reflexivity|].
  intros H. apply (f_equal (fun l => JS.idx l 0)) in H. vm_compute in H. discriminate H.
Qed.

(** Under the key 00 01 .. 0f the words from position 4 on repeat one pair,
    and that pair lies outside the 32-bit range. *)
Example round_keys_repeat_pair :
  JS.slice (TwoFish.generateRoundKeysInternal
              (fst (TwoFish.vectorsMS (map Z.of_nat (seq 0 16))))) 4 10 =
    [-4221669336; -2037536708; -4221669336; -2037536708; -4221669336; -2037536708].
Proof. vm_compute. reflexivity. Qed.

(** ** The session: IV handling and modes *)

Section SessionFacts.
Import JS Bits Session.
Context {K : Type}.

(** [setIv] compares the length with the MacGuffin block size, whatever
    the session's cipher family. *)
Lemma setIv_Some (ctx : Context K) iv :
  setIv (Some iv) ctx =
    if len iv =? MacGuffin.BLOCK_SIZE_BYTES
    then (Ok tt, {| _blockCipher := _blockCipher ctx; _keyExpansion := _keyExpansion ctx;
                    _mode := _mode ctx; _padding := _padding ctx; _iv := Some iv |})
    else (Throw InvalidIvLength, ctx).
Proof. unfold setIv. destruct (len iv =? MacGuffin.BLOCK_SIZE_BYTES); reflexivity. Qed.

Lemma setIv_throws_iff (ctx : Context K) iv :
  fst (setIv (Some iv) ctx) = Throw InvalidIvLength <-> len iv <> MacGuffin.BLOCK_SIZE_BYTES.
Proof.
  rewrite setIv_Some. destruct (Z.eqb_spec (len iv) MacGuffin.BLOCK_SIZE_BYTES); cbn [fst].
  - split; [discriminate|contradiction].
  - split; [intros _; assumption|reflexivity].
Qed.

(** A mode that needs an IV rejects [encrypt] when none is set. *)
Lemma encrypt_missing_iv (ctx : Context K) roundKeys blk m :
  In m [CBC; PCBC; CFB; OFB; CTR] ->
  _mode ctx = m -> _iv ctx = None ->
  Iface.roundKeys_ (_keyExpansion ctx) = Some roundKeys -> blk <> [] ->
  encrypt blk ctx = (Throw (MissingIv m), ctx).
Proof.
  intros Hm Hmode Hiv Hrk Hblk. unfold encrypt, bind, this, ctrBranch, throw, bind, this.
  rewrite Hrk.
  assert (Hne : (len blk =? 0) = false)
    by (destruct blk; [contradiction|unfold len; cbn [length]; apply Z.eqb_neq; lia]).
  rewrite Hne, Hmode, Hiv. cbn [In] in Hm.
  destruct Hm as [<-|[<-|[<-|[<-|[<-|[]]]]]]; cbv beta iota; rewrite ?Hiv; reflexivity.
Qed.

(** With an engine that reports its block size, [decrypt] rejects an
    aligned block in the same way. *)
Lemma decrypt_missing_iv (ctx : Context K) roundKeys blk m blockSize :
  In m [CBC; PCBC; CFB; OFB; CTR] ->
  _mode ctx = m -> _iv ctx = None ->
  Iface.roundKeys_ (_keyExpansion ctx) = Some roundKeys -> blk <> [] ->
  Iface.getBlockSizeBytes (_blockCipher ctx) = Ok blockSize ->
  rem (len blk) blockSize = 0 ->
  decrypt blk ctx = (Throw (MissingIv m), ctx).
Proof.
  intros Hm Hmode Hiv Hrk Hblk Hbs Hal.
  unfold decrypt, bind, this, ctrBranch, throw, bind, this, lift, ret.
  rewrite Hrk.
  assert (Hne : (len blk =? 0) = false)
    by (destruct blk; [contradiction|unfold len; cbn [length]; apply Z.eqb_neq; lia]).
  rewrite Hne, Hbs, Hal. cbn [Z.eqb negb]. rewrite Hmode, Hiv. cbn [In] in Hm.
  destruct Hm as [<-|[<-|[<-|[<-|[<-|[]]]]]]; cbv beta iota; rewrite ?Hiv; reflexivity.
Qed.

(** Under ECB [encrypt] is the engine's [encryptBlock], whatever the IV. *)
Lemma encrypt_ecb (ctx : Context K) roundKeys blk :
  _mode ctx = ECB ->
  Iface.roundKeys_ (_keyExpansion ctx) = Some roundKeys -> blk <> [] ->
  encrypt blk ctx =
    (match Iface.encryptBlock (_blockCipher ctx) blk roundKeys with
     | Ok c => Ok (Some c)
     | Throw e => Throw e
     end, ctx).
Proof.
  intros Hmode Hrk Hblk. unfold encrypt, bind, this, lift, ret. rewrite Hrk.
  assert (Hne : (len blk =? 0) = false)
    by (destruct blk; [contradiction|unfold len; cbn [length]; apply Z.eqb_neq; lia]).
  rewrite Hne, Hmode.
  destruct (Iface.encryptBlock (_blockCipher ctx) blk roundKeys); reflexivity.
Qed.

(** [decrypt] asks the engine object for its block size before it looks
    at the mode; when that call throws, so does [decrypt]. *)
Lemma decrypt_block_size_throws (ctx : Context K) roundKeys blk e :
  Iface.roundKeys_ (_keyExpansion ctx) = Some roundKeys -> blk <> [] ->
  Iface.getBlockSizeBytes (_blockCipher ctx) = Throw e ->
  decrypt blk ctx = (Throw e, ctx).
Proof.
  intros Hrk Hblk Hbs. unfold decrypt, bind, this, lift, ret. rewrite Hrk.
  assert (Hne : (len blk =? 0) = false)
    by (destruct blk; [contradiction|unfold len; cbn [length]; apply Z.eqb_neq; lia]).
  rewrite Hne, Hbs. reflexivity.
Qed.

(** The CTR branch never writes the session: the IV it started from is
    the IV of the next call. *)
Lemma ctrBranch_keeps_context (ctx : Context K) blk roundKeys :
  snd (ctrBranch blk roundKeys ctx) = ctx.
Proof.
  unfold ctrBranch, bind, this, throw, lift, ret.
  destruct (_iv ctx) as [iv|]; [|reflexivity].
  destruct (Iface.getBlockSizeBytes (_blockCipher ctx)) as [bs|]; [|reflexivity].
  destruct (ctrCounterBlock bs iv blk) as [cb|]; [|reflexivity].
  destruct (Iface.encryptBlock (_blockCipher ctx) cb roundKeys) as [s|]; [|reflexivity].
  destruct (xorBytes (slice_from blk 32) s); reflexivity.
Qed.

(** With at most 32 bytes of input the CTR branch cannot return: what is
    left after [slice(32)] is empty, and [xorBytes] accepts an empty
    operand only against an empty keystream. *)
Lemma ctrBranch_short_input_throws (ctx : Context K) blk roundKeys :
  len blk <= 32 ->
  (forall x s, Iface.encryptBlock (_blockCipher ctx) x roundKeys = Ok s -> s <> []) ->
  exists e, fst (ctrBranch blk roundKeys ctx) = Throw e.
Proof.
  intros Hlen Hks. unfold ctrBranch, bind, this, throw, lift, ret.
  destruct (_iv ctx) as [iv|]; [|eexists; reflexivity].
  destruct (Iface.getBlockSizeBytes (_blockCipher ctx)) as [bs|]; [|eexists; reflexivity].
  destruct (ctrCounterBlock bs iv blk) as [cb|]; [|eexists; reflexivity].
  destruct (Iface.encryptBlock (_blockCipher ctx) cb roundKeys) as [s|] eqn:Es;
    [|eexists; reflexivity].
  assert (Hempty : slice_from blk 32 = []).
  { unfold slice_from. apply drop_ge. unfold len in Hlen. lia. }
  rewrite Hempty. unfold xorBytes.
  assert (Hs : (len (@nil Z) =? len s) = false).
  { apply Hks in Es. destruct s; [contradiction|]. unfold len. cbn [length].
    apply Z.eqb_neq. lia. }
  rewrite Hs. eexists. reflexivity.
Qed.

End SessionFacts.

(** The keystream of both engines is never empty. *)
Lemma twoFish_keystream_nonempty ke x roundKeys s :
  Iface.encryptBlock (TwoFish_FeistelBlockCipher ke) x roundKeys = Ok s -> s <> [].
Proof.
  cbn [Iface.encryptBlock TwoFish_FeistelBlockCipher].
  intros H. apply encryptBlock_length in H. intros ->. discriminate H.
Qed.

Lemma macGuffin_encryptBlock_length LOOKUP_MASKS OUTPUT_MASKS stable_ x key :
  length (MacGuffin.encryptBlock LOOKUP_MASKS OUTPUT_MASKS stable_ x key) = 8%nat.
Proof. unfold MacGuffin.encryptBlock. apply length_store. Qed.

Lemma macGuffin_keystream_nonempty LOOKUP_MASKS OUTPUT_MASKS stable_ x key s :
  Iface.encryptBlock (MacGuffin.FeistelBlockCipher LOOKUP_MASKS OUTPUT_MASKS stable_) x key
    = Ok s -> s <> [].
Proof.
  cbn [Iface.encryptBlock MacGuffin.FeistelBlockCipher].
  intros H. apply Ok_inj in H.
  pose proof (macGuffin_encryptBlock_length LOOKUP_MASKS OUTPUT_MASKS stable_ x key) as L.
  rewrite H in L. clear H. intros ->. discriminate L.
Qed.

(** ** C1: the round trip under ECB *)

Lemma twoFish_sBoxes_rows masterKey ke sb :
  TwoFish.newKeyExpansion masterKey = Ok ke ->
  Iface.sBoxes_ (TwoFish.base ke) = Some sb -> JS.len sb = 4.
Proof.
  unfold TwoFish.newKeyExpansion.
  destruct (negb _); [intros H; exfalso; revert H; apply Throw_ne_Ok|].
  destruct (TwoFish.vectorsMS masterKey) as [vM vS].
  intros H. apply Ok_inj in H. subst ke. cbn [TwoFish.base Iface.sBoxes_].
  intros H. assert (E : sb = TwoFish.generateSBoxesInternal vS) by congruence.
  rewrite E, generateSBoxesInternal_eq. unfold JS.len. rewrite length_replicate. reflexivity.
Qed.

(** C1.  Decrypting the encryption of a block under ECB does not return
    the block: [decrypt] throws.  For every Cipher A key of 16, 24 or 32
    bytes and every 16-byte block, the session built by [setMasterKey]
    encrypts the block under ECB to some [c], and [decryptBlock] of the
    session's engine maps [c] back to the block; but [decrypt] of [c], the
    session's own ECB decryption, throws the error of the
    [getBlockSizeBytes] stub and leaves the session as it was.  The same
    holds of a session that runs the Cipher B engine under the table of its
    key schedule, for keys of 16 bytes and blocks of 8 bytes. *)
Theorem C1_ecb_decrypt_throws
    (keyA blkA : list Z)
    (LOOKUP_MASKS : MacGuffin.MaskTable) (OUTPUT_MASKS stable_ : list Z)
    (sBoxesB : option (list (list Z))) (keyB blkB : list Z) :
  In (JS.len keyA) TwoFish.MASTER_KEY_SIZE_BYTES ->
  bytes blkA -> length blkA = 16%nat ->
  uint16s stable_ -> length keyB = 16%nat ->
  bytes blkB -> length blkB = 8%nat ->
  (exists ctx roundKeys c,
      Session.setMasterKey keyA (Session.newContext (list Z)) = (Ok tt, ctx)
      /\ Session._mode ctx = ECB
      /\ Iface.roundKeys_ (Session._keyExpansion ctx) = Some roundKeys
      /\ Session.encrypt blkA ctx = (Ok (Some c), ctx)
      /\ Iface.decryptBlock (Session._blockCipher ctx) c roundKeys = Ok blkA
      /\ Session.decrypt c ctx = (Throw NotImplemented_getBlockSizeBytes, ctx))
  /\
  (let engine := MacGuffin.FeistelBlockCipher LOOKUP_MASKS OUTPUT_MASKS stable_ in
   exists key c,
      MacGuffin.generateRoundKeys keyB engine = Ok key
      /\ (let ctx :=
            snd (Session.setKeyExpansion
                   {| Iface.sBoxes_ := sBoxesB; Iface.roundKeys_ := Some key |}
                   (snd (Session.setBlockCipher engine
                           (Session.newContext MacGuffin.MacGuffinKey)))) in
          Session._mode ctx = ECB
          /\ Session.encrypt blkB ctx = (Ok (Some c), ctx)
          /\ Iface.decryptBlock engine c key = Ok blkB
          /\ Session.decrypt c ctx = (Throw NotImplemented_getBlockSizeBytes, ctx))).
Proof.
  intros HkA HbA HlA Hst HkB HbB HlB. split.
  - destruct (twoFish_newKeyExpansion_Ok keyA HkA) as (ke & rk & sb & Hke & Hrk & Hsb).
    assert (Hrows : 4 <= JS.len sb)
      by (rewrite (twoFish_sBoxes_rows keyA ke sb Hke Hsb); lia).
    destruct (encryptBlock_returns (TwoFish.base ke) blkA rk sb rk Hsb Hrk Hrows)
      as (c & Hc & Hlc).
    assert (HneA : blkA <> []) by (intros E; rewrite E in HlA; discriminate HlA).
    assert (Hnec : c <> []) by (intros E; rewrite E in Hlc; discriminate Hlc).
    eexists. exists rk, c.
    split; [exact (setMasterKey_fresh keyA ke HkA Hke)|].
    split; [reflexivity|]. split; [exact Hrk|]. split; [|split].
    + rewrite (encrypt_ecb _ rk blkA); [|reflexivity|exact Hrk|exact HneA].
      cbn [Session._blockCipher Iface.encryptBlock TwoFish_FeistelBlockCipher].
      rewrite Hc. reflexivity.
    + cbn [Session._blockCipher Iface.decryptBlock TwoFish_FeistelBlockCipher].
      apply (decryptBlock_encryptBlock _ blkA); assumption.
    + apply (decrypt_block_size_throws _ rk); [exact Hrk|exact Hnec|reflexivity].
  - cbv zeta. eexists. eexists.
    split; [apply generateRoundKeys_schedule|].
    assert (HneB : blkB <> []) by (intros E; rewrite E in HlB; discriminate HlB).
    split; [reflexivity|]. split; [|split].
    + erewrite encrypt_ecb; [|reflexivity|reflexivity|exact HneB]. reflexivity.
    + cbn [Iface.decryptBlock MacGuffin.FeistelBlockCipher]. apply f_equal.
      apply MacGuffin_decryptBlock_encryptBlock; assumption.
    + eapply decrypt_block_size_throws; [reflexivity| |reflexivity].
      intros E. apply (f_equal (@length Z)) in E.
      rewrite macGuffin_encryptBlock_length in E. discriminate E.
Qed.

Lemma C1_ecb_decrypt_throws_witness :
  (exists ctx roundKeys c,
      Session.setMasterKey [1; 2; 3; 4; 5; 6; 7; 8; 9; 10; 11; 12; 13; 14; 15; 16]
        (Session.newContext (list Z)) = (Ok tt, ctx)
      /\ Session._mode ctx = ECB
      /\ Iface.roundKeys_ (Session._keyExpansion ctx) = Some roundKeys
      /\ Session.encrypt (replicate 16 255) ctx = (Ok (Some c), ctx)
      /\ Iface.decryptBlock (Session._blockCipher ctx) c roundKeys = Ok (replicate 16 255)
      /\ Session.decrypt c ctx = (Throw NotImplemented_getBlockSizeBytes, ctx))
  /\
  (let engine := MacGuffin.FeistelBlockCipher sampleMasks sampleOutputMasks sampleStable in
   exists key c,
      MacGuffin.generateRoundKeys
        [16; 15; 14; 13; 12; 11; 10; 9; 8; 7; 6; 5; 4; 3; 2; 1] engine = Ok key
      /\ (let ctx :=
            snd (Session.setKeyExpansion
                   {| Iface.sBoxes_ := None; Iface.roundKeys_ := Some key |}
                   (snd (Session.setBlockCipher engine
                           (Session.newContext MacGuffin.MacGuffinKey)))) in
          Session._mode ctx = ECB
          /\ Session.encrypt (replicate 8 170) ctx = (Ok (Some c), ctx)
          /\ Iface.decryptBlock engine c key = Ok (replicate 8 170)
          /\ Session.decrypt c ctx = (Throw NotImplemented_getBlockSizeBytes, ctx))).
Proof.
  apply (C1_ecb_decrypt_throws
           [1; 2; 3; 4; 5; 6; 7; 8; 9; 10; 11; 12; 13; 14; 15; 16] (replicate 16 255)
           sampleMasks sampleOutputMasks sampleStable None
           [16; 15; 14; 13; 12; 11; 10; 9; 8; 7; 6; 5; 4; 3; 2; 1] (replicate 8 170)).
  - left. reflexivity.
  - apply Forall_replicate. lia.
  - reflexivity.
  - exact sampleStable_uint16.
  - reflexivity.
  - apply Forall_replicate. lia.
  - reflexivity.
Defined.

(** ** C5: CTR on a single block *)

(** C5.  In CTR mode, with round keys and an IV set, [encrypt] and
    [decrypt] throw on every input of at most 32 bytes, for every engine
    whose keystream blocks are not empty (the twoFish and the MacGuffin
    engines are such): what [slice(32)] leaves of the input is empty and
    [xorBytes] rejects it against the keystream block, unless an earlier
    step has thrown already.  When the engine reports a block size that
    holds the IV, the input has the four bytes that [getUint32] reads and
    the engine encrypts the counter block, the error is the length error of
    [xorBytes]. *)
Theorem C5_ctr_single_block_throws
    {K : Type} (ctx : Session.Context K) (roundKeys : K) (iv blk : list Z) :
  Session._mode ctx = CTR ->
  Iface.roundKeys_ (Session._keyExpansion ctx) = Some roundKeys ->
  Session._iv ctx = Some iv ->
  JS.len blk <= 32 ->
  (forall x s, Iface.encryptBlock (Session._blockCipher ctx) x roundKeys = Ok s -> s <> []) ->
  (exists e, fst (Session.encrypt blk ctx) = Throw e)
  /\ (exists e, fst (Session.decrypt blk ctx) = Throw e)
  /\ (forall blockSize,
        Iface.getBlockSizeBytes (Session._blockCipher ctx) = Ok blockSize ->
        JS.len iv <= blockSize -> 4 <= JS.len blk ->
        (forall x, exists s, Iface.encryptBlock (Session._blockCipher ctx) x roundKeys = Ok s) ->
        fst (Session.encrypt blk ctx) = Throw XorLengthMismatch).
Proof.
  intros Hmode Hrk Hiv Hlen Hks.
  pose proof (ctrBranch_short_input_throws ctx blk roundKeys Hlen Hks) as Hctr.
  split; [|split].
  - unfold Session.encrypt, Session.bind at 1, Session.this. rewrite Hrk.
    destruct (JS.len blk =? 0); [eexists; reflexivity|].
    rewrite Hmode. exact Hctr.
  - unfold Session.decrypt, Session.bind, Session.this, Session.lift, Session.ret,
      Session.throw.
    rewrite Hrk.
    destruct (JS.len blk =? 0); [eexists; reflexivity|].
    destruct (Iface.getBlockSizeBytes (Session._blockCipher ctx)) as [bs|];
      [|eexists; reflexivity].
    destruct (negb (JS.rem (JS.len blk) bs =? 0)); [eexists; reflexivity|].
    rewrite Hmode. exact Hctr.
  - intros bs Hbs Hivlen Hfour Htotal.
    unfold Session.encrypt, Session.bind at 1, Session.this. rewrite Hrk.
    assert (Hne : (JS.len blk =? 0) = false) by (apply Z.eqb_neq; lia).
    rewrite Hne, Hmode.
    unfold Session.ctrBranch, Session.bind, Session.this, Session.lift, Session.ret.
    rewrite Hiv, Hbs.
    unfold Session.ctrCounterBlock, Session.newCounterBlock, Session.getUint32.
    assert (H0 : (bs <? 0) = false) by (apply Z.ltb_ge; unfold JS.len in *; lia).
    assert (H1 : (JS.len iv >? bs) = false) by (rewrite Z.gtb_ltb; apply Z.ltb_ge; lia).
    assert (H2 : (JS.len blk <? 4) = false) by (apply Z.ltb_ge; lia).
    rewrite H0, H1, H2. cbn [rbind].
    match goal with
    | |- context [Iface.encryptBlock _ ?x roundKeys] =>
        destruct (Htotal x) as [s Hs]; rewrite Hs; apply Hks in Hs
    end.
    assert (Hempty : JS.slice_from blk 32 = []).
    { unfold JS.slice_from. apply drop_ge. unfold JS.len in Hlen. lia. }
    rewrite Hempty. unfold Bits.xorBytes.
    assert (Hl : (JS.len (@nil Z) =? JS.len s) = false).
    { destruct s; [contradiction|]. unfold JS.len. cbn [length]. apply Z.eqb_neq. lia. }
    rewrite Hl. reflexivity.
Qed.

(** A session on the twoFish engine, in CTR mode, with an 8-byte IV. *)
Lemma C5_ctr_single_block_throws_witness :
  let ke := {| Iface.sBoxes_ := Some (replicate 4 (replicate 256 0));
               Iface.roundKeys_ := Some (replicate 40 0) |} in
  let ctx := {| Session._blockCipher := TwoFish_FeistelBlockCipher ke;
                Session._keyExpansion := ke; Session._mode := CTR;
                Session._padding := Zeros; Session._iv := Some (replicate 8 0) |} in
  let blk := replicate 16 1 in
  (exists e, fst (Session.encrypt blk ctx) = Throw e)
  /\ (exists e, fst (Session.decrypt blk ctx) = Throw e)
  /\ (forall blockSize,
        Iface.getBlockSizeBytes (Session._blockCipher ctx) = Ok blockSize ->
        JS.len (replicate 8 0) <= blockSize -> 4 <= JS.len blk ->
        (forall x, exists s,
            Iface.encryptBlock (Session._blockCipher ctx) x (replicate 40 0) = Ok s) ->
        fst (Session.encrypt blk ctx) = Throw XorLengthMismatch).
Proof.
  intros ke ctx blk.
  apply (C5_ctr_single_block_throws ctx (replicate 40 0) (replicate 8 0) blk).
  - reflexivity.
  - reflexivity.
  - reflexivity.
  - vm_compute. discriminate.
  - intros x s. apply twoFish_keystream_nonempty.
Defined.

(** ** C3: the length that [setIv] accepts *)

(** C3 on a Cipher A session.  The session's block size is 16 bytes, yet
    [setIv] throws on a 16-byte IV and stores an 8-byte one: for every
    session the accepted length is the MacGuffin block size. *)
Theorem C3_setIv_bound_on_cipherA (ctx : Session.Context (list Z)) :
  Session.getBlockSizeBytes = Ok 16
  /\ Session.setIv (Some (replicate 16 0)) ctx = (Throw InvalidIvLength, ctx)
  /\ fst (Session.setIv (Some (replicate 8 0)) ctx) = Ok tt
  /\ Session._iv (snd (Session.setIv (Some (replicate 8 0)) ctx)) = Some (replicate 8 0)
  /\ (forall iv, fst (Session.setIv (Some iv) ctx) = Throw InvalidIvLength <-> JS.len iv <> 8).
Proof.
  split; [reflexivity|]. split; [reflexivity|]. split; [reflexivity|].
  split; [reflexivity|]. intros iv. apply setIv_throws_iff.
Qed.

(** ** C4: the CTR counter *)

(** C4 on the code.  The CTR branch leaves the session as it found it, so
    a second call on the same block repeats the first, counter included;
    and the counter block is the IV plus the number read from the first
    four bytes of the data: blocks that start 00 00 00 05 and 00 00 00 09
    get counters ..05 and ..09 from the same IV.  A carry crosses a byte
    (..01 FF plus 1 is ..02 00), but a number of 2^31 or more stops after
    one byte, [sum >> 8] being negative: FF FF FF FF added to zero leaves
    ..00 FF. *)
Theorem C4_ctr_counter_follows_data
    {K : Type} (ctx : Session.Context K) (roundKeys : K) (blk : list Z) :
  snd (Session.ctrBranch blk roundKeys ctx) = ctx
  /\ fst (Session.ctrBranch blk roundKeys (snd (Session.ctrBranch blk roundKeys ctx))) =
       fst (Session.ctrBranch blk roundKeys ctx)
  /\ Session.ctrCounterBlock 8 (replicate 8 0) ([0; 0; 0; 5] ++ replicate 36 170) =
       Ok [0; 0; 0; 0; 0; 0; 0; 5]
  /\ Session.ctrCounterBlock 8 (replicate 8 0) ([0; 0; 0; 9] ++ replicate 36 170) =
       Ok [0; 0; 0; 0; 0; 0; 0; 9]
  /\ Session.ctrCounterBlock 8 [0; 0; 0; 0; 0; 0; 1; 255] ([0; 0; 0; 1] ++ replicate 36 170) =
       Ok [0; 0; 0; 0; 0; 0; 2; 0]
  /\ Session.ctrCounterBlock 8 (replicate 8 0) ([255; 255; 255; 255] ++ replicate 36 170) =
       Ok [0; 0; 0; 0; 0; 0; 0; 255].
Proof.
  split; [apply ctrBranch_keeps_context|].
  split; [rewrite ctrBranch_keeps_context; reflexivity|].
  split; [vm_compute; reflexivity|]. split; [vm_compute; reflexivity|].
  split; vm_compute; reflexivity.
Qed.

(** ** C6: modes without an IV *)

(** What holds of the claim on [encrypt]: the five chaining modes throw the
    missing-IV error, and under ECB the result does not depend on the IV. *)
Lemma encrypt_ecb_ignores_iv {K} (ctx : Session.Context K) roundKeys blk iv iv' :
  Session._mode ctx = ECB ->
  Iface.roundKeys_ (Session._keyExpansion ctx) = Some roundKeys -> blk <> [] ->
  fst (Session.encrypt blk (snd (Session.setIv iv ctx))) =
    fst (Session.encrypt blk (snd (Session.setIv iv' ctx))).
Proof.
  intros Hmode Hrk Hblk.
  assert (Hsame : forall v,
             Session._mode (snd (Session.setIv v ctx)) = ECB
             /\ Iface.roundKeys_ (Session._keyExpansion (snd (Session.setIv v ctx)))
                = Some roundKeys
             /\ Session._blockCipher (snd (Session.setIv v ctx)) = Session._blockCipher ctx).
  { intros [v|]; unfold Session.setIv;
      [destruct (negb (JS.len v =? MacGuffin.BLOCK_SIZE_BYTES))|]; cbn; auto. }
  destruct (Hsame iv) as (M1 & R1 & B1). destruct (Hsame iv') as (M2 & R2 & B2).
  rewrite (encrypt_ecb _ roundKeys blk M1 R1 Hblk), (encrypt_ecb _ roundKeys blk M2 R2 Hblk).
  cbn [fst]. rewrite B1, B2. reflexivity.
Qed.

(** C6 on a Cipher A session keyed with 16 zero bytes, no IV, and a
    16-byte block.  [encrypt] throws the missing-IV error in CBC mode, but
    [decrypt] throws the error of the [getBlockSizeBytes] stub, in CBC mode
    and under ECB alike: the engine object answers the call with the
    inherited stub, before the mode is looked at. *)
Theorem C6_decrypt_without_iv_on_cipherA :
  exists ctx,
    Session.setMasterKey (replicate 16 0) (Session.newContext (list Z)) = (Ok tt, ctx)
    /\ Session._iv ctx = None
    /\ Session._mode ctx = ECB
    /\ fst (Session.decrypt (replicate 16 0) ctx) = Throw NotImplemented_getBlockSizeBytes
    /\ fst (Session.encrypt (replicate 16 0) (snd (Session.setMode CBC ctx))) =
         Throw (MissingIv CBC)
    /\ (forall m, fst (Session.decrypt (replicate 16 0) (snd (Session.setMode m ctx))) =
                    Throw NotImplemented_getBlockSizeBytes).
Proof.
  destruct (twoFish_newKeyExpansion_Ok (replicate 16 0)) as (ke & rk & sb & Hke & Hrk & Hsb);
    [left; reflexivity|].
  eexists. split; [apply (setMasterKey_fresh _ ke); [left; reflexivity|exact Hke]|].
  split; [reflexivity|]. split; [reflexivity|].
  assert (Hblk : replicate 16 0 <> []) by discriminate.
  split.
  - rewrite (decrypt_block_size_throws _ rk _ NotImplemented_getBlockSizeBytes);
      [reflexivity|exact Hrk|exact Hblk|reflexivity].
  - split.
    + rewrite (encrypt_missing_iv _ rk _ CBC);
        [reflexivity|left; reflexivity|reflexivity|reflexivity|exact Hrk|exact Hblk].
    + intros m.
      rewrite (decrypt_block_size_throws _ rk _ NotImplemented_getBlockSizeBytes);
        [reflexivity|exact Hrk|exact Hblk|reflexivity].
Qed.

(** ** Padding *)

Section PaddingFacts.
Import JS Bits Session.

Variable random : Z -> Z.

Lemma fill_app data pad v e :
  len data + len pad <= e ->
  fill (data ++ pad) v (len data) e = data ++ replicate (length pad) v.
Proof.
  intros He. unfold len in *. apply list_eq. intros i. unfold fill.
  rewrite list_lookup_imap.
  destruct (Nat.lt_ge_cases i (length data)) as [Hi|Hi].
  - rewrite !lookup_app_l by exact Hi.
    destruct (data !! i) as [x|]; [cbn|reflexivity].
    destruct (Z.leb_spec (Z.of_nat (length data)) (Z.of_nat i)); [lia|reflexivity].
  - rewrite !lookup_app_r by exact Hi.
    destruct (Nat.lt_ge_cases (i - length data)%nat (length pad)) as [Hp|Hp].
    + destruct (lookup_lt_is_Some_2 pad (i - length data)%nat Hp) as [y Hy].
      rewrite Hy, lookup_replicate_2 by exact Hp. cbn.
      destruct (Z.leb_spec (Z.of_nat (length data)) (Z.of_nat i)); [|lia].
      destruct (Z.ltb_spec (Z.of_nat i) e); [reflexivity|lia].
    + rewrite lookup_ge_None_2 by exact Hp.
      rewrite lookup_ge_None_2 by (rewrite length_replicate; exact Hp). reflexivity.
Qed.

Lemma fill_zero_over_zeros data k e :
  fill (data ++ replicate k 0) 0 (len data) e = data ++ replicate k 0.
Proof.
  unfold len. apply list_eq. intros i. unfold fill. rewrite list_lookup_imap.
  destruct (Nat.lt_ge_cases i (length data)) as [Hi|Hi].
  - rewrite !lookup_app_l by exact Hi.
    destruct (data !! i) as [x|]; [cbn|reflexivity].
    destruct (Z.leb_spec (Z.of_nat (length data)) (Z.of_nat i)); [lia|reflexivity].
  - rewrite !lookup_app_r by exact Hi.
    destruct (replicate k 0 !! (i - length data)%nat) as [y|] eqn:Hy; [cbn|reflexivity].
    apply lookup_replicate_1 in Hy. destruct Hy as [-> _].
    destruct (_ && _); reflexivity.
Qed.

(** The padding length that [_addPadding] computes. *)
Lemma padding_length_range blockSize n :
  0 < blockSize -> 0 <= n ->
  let p := blockSize - rem n blockSize in
  1 <= p <= blockSize /\ (p =? 0) = false /\ (n + p) mod blockSize = 0.
Proof.
  intros Hbs Hn p. subst p. unfold rem. rewrite Z.rem_mod_nonneg by lia.
  pose proof (Z.mod_pos_bound n blockSize Hbs) as Hm.
  split; [lia|]. split; [apply Z.eqb_neq; lia|].
  replace (n + (blockSize - n mod blockSize))
    with (n - n mod blockSize + 1 * blockSize) by lia.
  rewrite Z.mod_add by lia.
  rewrite Zminus_mod_idemp_r, Z.sub_diag. apply Z.mod_0_l. lia.
Qed.

Lemma length_padOf padding p : 1 <= p -> length (padOf padding p) = Z.to_nat p.
Proof.
  intros Hp. unfold padOf.
  destruct padding; rewrite ?length_app, ?length_replicate; cbn [length]; lia.
Qed.

(** [_addPadding] appends [padOf] of the padding length. *)
Lemma addPadding_eq blockSize padding data :
  0 < blockSize < 256 -> padding = PKCS7 \/ padding = ANSIX923 ->
  _addPadding (Ok blockSize) random padding data =
    Ok (data ++ padOf padding (blockSize - rem (len data) blockSize)).
Proof.
  intros Hbs Hpad. unfold _addPadding. cbn [rbind].
  destruct (padding_length_range blockSize (len data)) as (Hp & Hp0 & _);
    [lia|unfold len; lia|].
  cbv zeta in Hp, Hp0. rewrite Hp0.
  set (p := blockSize - rem (len data) blockSize) in *.
  assert (Hu8 : ToUint8 p = p) by (apply ToUint8_id; lia).
  destruct Hpad as [-> | ->]; cbn [padOf]; rewrite Hu8; f_equal.
  - rewrite fill_app by (unfold len; rewrite length_app; lia).
    rewrite length_replicate. reflexivity.
  - rewrite fill_zero_over_zeros.
    rewrite set_nat by (unfold len; rewrite length_app, length_replicate; lia).
    replace (Z.to_nat (len (data ++ replicate (Z.to_nat p) 0) - 1))
      with (length data + (Z.to_nat p - 1))%nat
      by (unfold len; rewrite length_app, length_replicate; lia).
    rewrite insert_app_r.
    destruct (Z.to_nat p) as [|k] eqn:Ek; [lia|].
    replace (S k - 1)%nat with k by lia.
    rewrite replicate_S_end.
    rewrite insert_app_r_alt by (rewrite length_replicate; lia).
    rewrite length_replicate, Nat.sub_diag. reflexivity.
Qed.

Lemma idx_app_pad (data pad : list Z) (i : nat) :
  idx (data ++ pad) (len data + Z.of_nat i) = pad !! i.
Proof.
  unfold idx, len. destruct (Z.ltb_spec (Z.of_nat (length data) + Z.of_nat i) 0); [lia|].
  replace (Z.to_nat (Z.of_nat (length data) + Z.of_nat i)) with (length data + i)%nat by lia.
  rewrite lookup_app_r by lia. f_equal. lia.
Qed.

Lemma existsb_range_false (f : Z -> bool) a k :
  (forall i : nat, (i < k)%nat -> f (a + Z.of_nat i) = false) ->
  existsb f (range a k) = false.
Proof.
  intros Hf. destruct (existsb f (range a k)) eqn:E; [|reflexivity].
  apply existsb_exists in E. destruct E as (x & Hin & Hx).
  unfold range in Hin. apply in_map_iff in Hin. destruct Hin as (i & <- & Hi).
  apply in_seq in Hi. rewrite Hf in Hx by lia. discriminate Hx.
Qed.

Lemma lookup_padOf_last padding p :
  1 <= p -> padding = PKCS7 \/ padding = ANSIX923 ->
  padOf padding p !! (Z.to_nat p - 1)%nat = Some p.
Proof.
  intros Hp [-> | ->]; cbn [padOf].
  - apply lookup_replicate_2. lia.
  - rewrite lookup_app_r by (rewrite length_replicate; lia).
    rewrite length_replicate, Nat.sub_diag. reflexivity.
Qed.

(** [_removePadding] strips a pad built by [padOf]. *)
Lemma removePadding_padOf blockSize padding data p :
  0 < blockSize -> padding = PKCS7 \/ padding = ANSIX923 ->
  1 <= p <= blockSize -> (len data + p) mod blockSize = 0 ->
  _removePadding (Ok blockSize) padding (data ++ padOf padding p) = Ok data.
Proof.
  intros Hbs Hpad Hp Hal. unfold _removePadding. cbn [rbind].
  assert (Hlen : len (data ++ padOf padding p) = len data + p)
    by (unfold len; rewrite length_app, length_padOf by lia; lia).
  assert (Hd : 0 <= len data) by (unfold len; lia).
  rewrite Hlen. unfold rem. rewrite Z.rem_mod_nonneg, Hal by lia.
  cbn [Z.eqb negb].
  assert (Hlast : idx (data ++ padOf padding p) (len data + p - 1) = Some p).
  { replace (len data + p - 1) with (len data + Z.of_nat (Z.to_nat p - 1)) by lia.
    rewrite idx_app_pad. apply lookup_padOf_last; [lia|exact Hpad]. }
  assert (Hrange : (p >? blockSize) || (p =? 0) = false).
  { rewrite Z.gtb_ltb. apply orb_false_intro; [apply Z.ltb_ge|apply Z.eqb_neq]; lia. }
  assert (Hdecl : declaredPadding padding blockSize (data ++ padOf padding p) = Ok (Some p)).
  { unfold declaredPadding. rewrite Hlen.
    destruct Hpad as [-> | ->]; rewrite Hlast, Hrange.
    - rewrite existsb_range_false; [reflexivity|]. intros i Hi.
      replace (len data + p - (1 + Z.of_nat i))
        with (len data + Z.of_nat (Z.to_nat p - 1 - i)) by lia.
      rewrite idx_app_pad. cbn [padOf]. rewrite lookup_replicate_2 by lia.
      cbn [strictNe]. rewrite Z.eqb_refl. reflexivity.
    - rewrite existsb_range_false; [reflexivity|]. intros i Hi.
      replace (len data + p - 1 - (1 + Z.of_nat i))
        with (len data + Z.of_nat (Z.to_nat p - 2 - i)) by lia.
      rewrite idx_app_pad. cbn [padOf].
      rewrite lookup_app_l by (rewrite length_replicate; lia).
      rewrite lookup_replicate_2 by lia. reflexivity. }
  rewrite Hdecl. cbn [rbind].
  assert (Hlt : (len data + p <? p) = false) by (apply Z.ltb_ge; lia).
  rewrite Hlt. f_equal. unfold slice.
  replace (Z.to_nat (len data + p - p - 0)) with (length data) by (unfold len; lia).
  change (Z.to_nat 0) with 0%nat. rewrite drop_0. apply take_app_length.
Qed.

End PaddingFacts.

(** ** C7: padding round trip *)

(** C7.  For a session whose block size is [blockSize] (16 for Cipher A, 8
    for Cipher B; any size from 1 to 255), under PKCS7 and under ANSIX923,
    [_addPadding] returns a padded buffer for every message, of whatever
    length, and [_removePadding] of that buffer returns the message. *)
Theorem C7_padding_round_trip
    (random : Z -> Z) (blockSize : Z) (padding : CipherPadding) (data : list Z) :
  0 < blockSize < 256 ->
  padding = PKCS7 \/ padding = ANSIX923 ->
  exists padded,
    Session._addPadding (Ok blockSize) random padding data = Ok padded
    /\ Session._removePadding (Ok blockSize) padding padded = Ok data.
Proof.
  intros Hbs Hpad. eexists. split; [apply addPadding_eq; assumption|].
  destruct (padding_length_range blockSize (JS.len data)) as (Hp & _ & Hal);
    [lia|unfold JS.len; lia|].
  apply removePadding_padOf; [lia|exact Hpad|exact Hp|exact Hal].
Qed.

(** The twoFish session (block size 16) under PKCS7 on a 5-byte message. *)
Lemma C7_padding_round_trip_witness :
  Session.getBlockSizeBytes = Ok 16
  /\ exists padded,
       Session._addPadding Session.getBlockSizeBytes (fun _ => 0) PKCS7 [1; 2; 3; 4; 5]
         = Ok padded
       /\ Session._removePadding Session.getBlockSizeBytes PKCS7 padded = Ok [1; 2; 3; 4; 5].
Proof.
  split; [reflexivity|].
  apply (C7_padding_round_trip (fun _ => 0) 16 PKCS7 [1; 2; 3; 4; 5]).
  - lia.
  - left. reflexivity.
Defined.

(** ** C8: PKCS7 rejection *)

(** C8.  Under PKCS7, on a non-empty buffer whose length is a multiple of
    the block size and whose last byte is [p]: [_removePadding] throws the
    invalid-length error when [p] is zero or exceeds the block size, and
    throws the invalid-bytes error when [p] is in range but one of the last
    [p] bytes differs from [p]. *)
Theorem C8_pkcs7_rejects_bad_padding (blockSize : Z) (data : list Z) (p : Z) :
  0 < blockSize ->
  JS.rem (JS.len data) blockSize = 0 ->
  JS.idx data (JS.len data - 1) = Some p ->
  (p = 0 \/ p > blockSize ->
   Session._removePadding (Ok blockSize) PKCS7 data = Throw (PaddingLengthInvalid PKCS7))
  /\ (1 <= p <= blockSize ->
      (exists j, 1 <= j <= p /\ JS.idx data (JS.len data - j) <> Some p) ->
      Session._removePadding (Ok blockSize) PKCS7 data = Throw (PaddingBytesInvalid PKCS7)).
Proof.
  intros Hbs Hal Hlast. unfold Session._removePadding. cbn [rbind].
  rewrite Hal. cbn [Z.eqb negb]. unfold Session.declaredPadding. rewrite Hlast. split.
  - intros Hp.
    assert (Hr : (p >? blockSize) || (p =? 0) = true).
    { apply orb_true_iff. destruct Hp as [->|Hp]; [right; reflexivity|].
      left. rewrite Z.gtb_ltb. apply Z.ltb_lt. lia. }
    rewrite Hr. reflexivity.
  - intros Hp (j & Hj & Hne).
    assert (Hr : (p >? blockSize) || (p =? 0) = false).
    { rewrite Z.gtb_ltb. apply orb_false_intro; [apply Z.ltb_ge|apply Z.eqb_neq]; lia. }
    rewrite Hr.
    assert (Hex : existsb (fun j => Session.strictNe (JS.idx data (JS.len data - j)) p)
                          (JS.range 1 (Z.to_nat p)) = true).
    { apply existsb_exists. exists j. split.
      - unfold JS.range. apply in_map_iff. exists (Z.to_nat (j - 1)).
        split; [lia|]. apply in_seq. lia.
      - destruct (JS.idx data (JS.len data - j)) as [y|]; [|reflexivity].
        cbn [Session.strictNe]. apply negb_true_iff, Z.eqb_neq. congruence. }
    rewrite Hex. reflexivity.
Qed.

(** A 16-byte buffer whose last byte is 17, and one that ends 9, 3, 3. *)
Lemma C8_pkcs7_rejects_bad_padding_witness :
  Session._removePadding (Ok 16) PKCS7 (replicate 15 0 ++ [17])
    = Throw (PaddingLengthInvalid PKCS7)
  /\ Session._removePadding (Ok 16) PKCS7 (replicate 13 0 ++ [9; 3; 3])
    = Throw (PaddingBytesInvalid PKCS7).
Proof.
  split.
  - apply (C8_pkcs7_rejects_bad_padding 16 (replicate 15 0 ++ [17]) 17);
      [lia|reflexivity|reflexivity|right; lia].
  - apply (C8_pkcs7_rejects_bad_padding 16 (replicate 13 0 ++ [9; 3; 3]) 3);
      [lia|reflexivity|reflexivity|lia|].
    exists 3. split; [lia|]. vm_compute. discriminate.
Defined.

(** ** The loop of [multiplyGF] ends within 32 turns *)

Section MultiplyGF.
Import JS TwoFish.

Lemma multiplyGF_loop_done n a b r : b <= 0 -> multiplyGF_loop n a b r = r.
Proof.
  intros Hb. destruct n; [reflexivity|]. cbn [multiplyGF_loop].
  destruct (Z.gtb_spec b 0); [lia|reflexivity].
Qed.

Lemma multiplyGF_loop_S n a b r :
  multiplyGF_loop (S n) a b r =
    if b >? 0
    then multiplyGF_loop n
           (if negb (((a << 1) .& 0x100) =? 0) then (a << 1) .^ RS_POLY else a << 1)
           (b >> 1)
           (if negb ((b .& 1) =? 0) then r .^ a else r)
    else r.
Proof. reflexivity. Qed.

Lemma sar_1_halves b : 0 < b < 2^31 -> b >> 1 = b / 2.
Proof.
  intros Hb. unfold sar. change (1 mod 32) with 1.
  rewrite ToInt32_id by (unfold int32; lia).
  rewrite Z.shiftr_div_pow2 by lia. reflexivity.
Qed.

Lemma multiplyGF_loop_small (k : nat) : forall n a b r,
  (k <= 31)%nat -> (k <= n)%nat -> b < 2 ^ Z.of_nat k ->
  multiplyGF_loop n a b r = multiplyGF_loop k a b r.
Proof.
  induction k as [|k IH]; intros n a b r Hk Hn Hb.
  - rewrite !multiplyGF_loop_done by (cbn in Hb; lia). reflexivity.
  - destruct (Z.le_gt_cases b 0) as [Hle|Hgt];
      [rewrite !multiplyGF_loop_done by exact Hle; reflexivity|].
    destruct n as [|n]; [lia|]. cbn [multiplyGF_loop].
    destruct (Z.gtb_spec b 0); [|lia]. cbv zeta.
    apply IH; [lia|lia|].
    assert (H31 : 2 ^ Z.of_nat (S k) <= 2 ^ 31) by (apply Z.pow_le_mono_r; lia).
    rewrite sar_1_halves by lia.
    rewrite Nat2Z.inj_succ, Z.pow_succ_r in Hb by lia.
    apply Z.div_lt_upper_bound; lia.
Qed.

(** Whatever [b] is, extra fuel beyond 32 turns changes nothing: the
    [while] loop has ended. *)
Lemma multiplyGF_loop_terminates n a b r :
  (32 <= n)%nat -> multiplyGF_loop n a b r = multiplyGF_loop 32 a b r.
Proof.
  intros Hn.
  destruct (Z.le_gt_cases b 0) as [Hle|Hgt];
    [rewrite !multiplyGF_loop_done by exact Hle; reflexivity|].
  destruct n as [|n]; [lia|].
  rewrite (multiplyGF_loop_S n), (multiplyGF_loop_S 31).
  destruct (Z.gtb_spec b 0); [|lia].
  assert (Hb : b >> 1 < 2 ^ Z.of_nat 30).
  { unfold sar. change (1 mod 32) with 1. rewrite Z.shiftr_div_pow2 by lia.
    pose proof (ToInt32_range b) as Hr. unfold int32 in Hr.
    apply Z.div_lt_upper_bound; [lia|]. change (2 ^ 1 * 2 ^ Z.of_nat 30) with (2 ^ 31). lia. }
  rewrite (multiplyGF_loop_small 30 n) by (lia || exact Hb).
  rewrite (multiplyGF_loop_small 30 31) by (lia || exact Hb). reflexivity.
Qed.

End MultiplyGF.

(** * Further properties of the code

    The properties below cover the functions that the claims above leave
    out, and the way the functions compose. *)

(** ** bits_operation.ts: [xorBytes] *)

(** ** The helpers of bits_operation.ts *)

Section BitHelpers.
Import JS Bits.

Lemma get_indices (f : Z -> Z) (n i : nat) :
  (i < n)%nat -> (map f (map Z.of_nat (seq 0 n))).[Z.of_nat i] = f (Z.of_nat i).
Proof.
  intros Hi. unfold get. rewrite idx_of_nat, !list_lookup_fmap, lookup_seq_lt by exact Hi.
  reflexivity.
Qed.

Lemma xorBytes_eq a b :
  length a = length b ->
  xorBytes a b = Ok (map (fun i => ToUint8 (a.[i] .^ b.[i])) (map Z.of_nat (seq 0 (length a)))).
Proof.
  intros H. unfold xorBytes, len. rewrite H, Z.eqb_refl. reflexivity.
Qed.

Lemma xorBytes_throws a b :
  length a <> length b -> xorBytes a b = Throw XorLengthMismatch.
Proof.
  intros H. unfold xorBytes, len.
  destruct (Z.eqb_spec (Z.of_nat (length a)) (Z.of_nat (length b))); [lia|reflexivity].
Qed.

Lemma xorBytes_length a b c : xorBytes a b = Ok c -> length c = length a /\ length a = length b.
Proof.
  destruct (Nat.eq_dec (length a) (length b)) as [E|E].
  - rewrite xorBytes_eq by exact E. intros H. apply Ok_inj in H. subst c.
    rewrite !length_map, length_seq. auto.
  - rewrite xorBytes_throws by exact E. intros H. exfalso. revert H. apply Throw_ne_Ok.
Qed.

Lemma xorBytes_bytes a b c : xorBytes a b = Ok c -> bytes c.
Proof.
  destruct (Nat.eq_dec (length a) (length b)) as [E|E].
  - rewrite xorBytes_eq by exact E. intros H. apply Ok_inj in H. subst c.
    unfold bytes. apply List.Forall_forall. intros x Hx. apply in_map_iff in Hx.
    destruct Hx as (i & <- & _). apply ToUint8_range.
  - rewrite xorBytes_throws by exact E. intros H. exfalso. revert H. apply Throw_ne_Ok.
Qed.

Lemma ToUint8_bxor_cancel x y : 0 <= x < 256 -> ToUint8 (ToUint8 (x .^ y) .^ y) = x.
Proof.
  intros Hx. apply Z.bits_inj'. intros n Hn. rewrite ToUint8_testbit by lia.
  destruct (Z.ltb_spec n 8) as [Hlt|Hge].
  - cbn [andb]. unfold bxor at 1. rewrite Z.lxor_spec, !ToInt32_testbit_low by lia.
    rewrite ToUint8_testbit by lia. replace (n <? 8) with true by lia. cbn [andb].
    unfold bxor. rewrite Z.lxor_spec, !ToInt32_testbit_low by lia.
    destruct (Z.testbit x n), (Z.testbit y n); reflexivity.
  - cbn [andb]. symmetry. apply byte_testbit_high; lia.
Qed.

Lemma xorBytes_cancel a b c :
  bytes a -> xorBytes a b = Ok c -> xorBytes c b = Ok a.
Proof.
  intros Ha Hc. destruct (xorBytes_length _ _ _ Hc) as [Hl1 Hl2].
  rewrite xorBytes_eq by lia. f_equal.
  rewrite xorBytes_eq in Hc by exact Hl2. apply Ok_inj in Hc.
  apply list_eq. intros i. rewrite !list_lookup_fmap.
  destruct (Nat.lt_ge_cases i (length a)) as [Hi|Hi].
  - rewrite Hl1, lookup_seq_lt by exact Hi. cbn [fmap option_fmap option_map].
    rewrite <- Hc, get_indices by exact Hi.
    rewrite ToUint8_bxor_cancel by (apply get_byte, Ha).
    unfold get. rewrite idx_of_nat. cbn [Nat.add].
    destruct (lookup_lt_is_Some_2 a i Hi) as [x Hx]. rewrite Hx. reflexivity.
  - rewrite Hl1, lookup_seq_ge by exact Hi. cbn. symmetry. apply lookup_ge_None_2. exact Hi.
Qed.

End BitHelpers.

(** X1.  [xorBytes] throws exactly when the two arrays differ in length;
    otherwise it returns an array of bytes of that length, and applying it
    a second time with the same second operand gives back a first operand
    made of bytes. *)
Theorem xorBytes_self_inverse (a b : list Z) :
  (length a <> length b -> Bits.xorBytes a b = Throw XorLengthMismatch)
  /\ (length a = length b ->
      exists c, Bits.xorBytes a b = Ok c /\ length c = length a /\ bytes c
                /\ (bytes a -> Bits.xorBytes c b = Ok a)).
Proof.
  split; [apply xorBytes_throws|]. intros H.
  eexists. split; [apply xorBytes_eq, H|].
  pose proof (xorBytes_eq a b H) as Hc.
  split; [apply (xorBytes_length _ _ _ Hc)|].
  split; [apply (xorBytes_bytes _ _ _ Hc)|].
  intros Ha. apply (xorBytes_cancel a b _ Ha Hc).
Qed.

(** ** bits_operation.ts: [rot] for every shift count *)

Section Rotation.
Import JS Bits.




End Rotation.


(** ** bits_operation.ts: [bytesToWords] and [wordsToBytes] on any length *)

Section WordsOfBytes.
Import JS Bits.

Lemma get_cons (b : Z) (l : list Z) (i : Z) : 0 <= i -> (b :: l).[i + 1] = l.[i].
Proof.
  intros Hi. unfold get, idx.
  replace (i + 1 <? 0) with false by lia. replace (i <? 0) with false by lia.
  replace (Z.to_nat (i + 1)) with (S (Z.to_nat i)) by lia. reflexivity.
Qed.

Lemma get_cons4 (b0 b1 b2 b3 : Z) (l : list Z) (i : Z) :
  0 <= i -> (b0 :: b1 :: b2 :: b3 :: l).[i + 4] = l.[i].
Proof.
  intros Hi. replace (i + 4) with (i + 1 + 1 + 1 + 1) by lia.
  rewrite !get_cons by lia. reflexivity.
Qed.

Lemma bytesToWords_cons4 b0 b1 b2 b3 rest :
  bytesToWords (b0 :: b1 :: b2 :: b3 :: rest) = word_of b0 b1 b2 b3 :: bytesToWords rest.
Proof.
  unfold bytesToWords. cbn [length].
  replace (S (S (S (S (length rest)))) + 3)%nat with (length rest + 3 + 1 * 4)%nat by lia.
  rewrite Nat.div_add by lia. rewrite Nat.add_1_r.
  cbn [seq map]. cbv zeta. apply (f_equal2 cons).
  - change (4 * Z.of_nat 0) with 0.
    change ((b0 :: b1 :: b2 :: b3 :: rest).[0]) with b0.
    change ((b0 :: b1 :: b2 :: b3 :: rest).[0 + 1]) with b1.
    change ((b0 :: b1 :: b2 :: b3 :: rest).[0 + 2]) with b2.
    change ((b0 :: b1 :: b2 :: b3 :: rest).[0 + 3]) with b3.
    unfold word_of. reflexivity.
  - rewrite <- seq_shift, map_map. apply map_ext. intros j.
    replace (4 * Z.of_nat (S j)) with (4 * Z.of_nat j + 4) by lia.
    replace (4 * Z.of_nat j + 4 + 1) with (4 * Z.of_nat j + 1 + 4) by lia.
    replace (4 * Z.of_nat j + 4 + 2) with (4 * Z.of_nat j + 2 + 4) by lia.
    replace (4 * Z.of_nat j + 4 + 3) with (4 * Z.of_nat j + 3 + 4) by lia.
    rewrite !get_cons4 by lia. reflexivity.
Qed.

Lemma wordsToBytes_cons w ws :
  wordsToBytes (w :: ws) =
    byte_at w 24 :: byte_at w 16 :: byte_at w 8 :: byte_at w 0 :: wordsToBytes ws.
Proof. unfold wordsToBytes. cbn [flat_map app]. rewrite (byte_at_0 w). reflexivity. Qed.

Lemma bytesToWords_short bs :
  (0 < length bs < 4)%nat ->
  bytesToWords bs = [word_of bs.[0] bs.[1] bs.[2] bs.[3]].
Proof.
  intros Hl. unfold bytesToWords.
  replace ((length bs + 3) / 4)%nat with 1%nat
    by (apply Nat.div_unique with (r := (length bs - 1)%nat); lia).
  cbn [seq map]. cbv zeta. change (4 * Z.of_nat 0) with 0.
  change (0 + 1) with 1. change (0 + 2) with 2. change (0 + 3) with 3.
  unfold word_of. reflexivity.
Qed.

Lemma wordsToBytes_bytesToWords_upto (n : nat) : forall bs,
  (length bs <= 4 * n)%nat -> bytes bs ->
  wordsToBytes (bytesToWords bs) = bs ++ replicate ((4 - length bs mod 4) mod 4) 0.
Proof.
  induction n as [|n IH]; intros bs Hl Hb.
  - destruct bs; [reflexivity|cbn [length] in Hl; lia].
  - destruct bs as [|b0 [|b1 [|b2 [|b3 rest]]]].
    + reflexivity.
    + inversion_clear Hb as [|? ? H0 _].
      rewrite bytesToWords_short by (cbn [length]; lia). rewrite wordsToBytes_cons.
      change ([b0].[0]) with b0. change ([b0].[1]) with 0. change ([b0].[2]) with 0.
      change ([b0].[3]) with 0.
      destruct (byte_at_word_of b0 0 0 0) as (-> & -> & -> & ->); try lia. reflexivity.
    + inversion_clear Hb as [|? ? H0 Hb']. inversion_clear Hb' as [|? ? H1 _].
      rewrite bytesToWords_short by (cbn [length]; lia). rewrite wordsToBytes_cons.
      change ([b0; b1].[0]) with b0. change ([b0; b1].[1]) with b1.
      change ([b0; b1].[2]) with 0. change ([b0; b1].[3]) with 0.
      destruct (byte_at_word_of b0 b1 0 0) as (-> & -> & -> & ->); try lia. reflexivity.
    + inversion_clear Hb as [|? ? H0 Hb']. inversion_clear Hb' as [|? ? H1 Hb''].
      inversion_clear Hb'' as [|? ? H2 _].
      rewrite bytesToWords_short by (cbn [length]; lia). rewrite wordsToBytes_cons.
      change ([b0; b1; b2].[0]) with b0. change ([b0; b1; b2].[1]) with b1.
      change ([b0; b1; b2].[2]) with b2. change ([b0; b1; b2].[3]) with 0.
      destruct (byte_at_word_of b0 b1 b2 0) as (-> & -> & -> & ->); try lia. reflexivity.
    + inversion_clear Hb as [|? ? H0 Hb']. inversion_clear Hb' as [|? ? H1 Hb''].
      inversion_clear Hb'' as [|? ? H2 Hb3]. inversion_clear Hb3 as [|? ? H3 Hrest].
      rewrite bytesToWords_cons4, wordsToBytes_cons.
      destruct (byte_at_word_of b0 b1 b2 b3) as (-> & -> & -> & ->); try lia.
      cbn [length] in Hl. rewrite IH by (assumption || lia).
      cbn [length app].
      replace (S (S (S (S (length rest))))) with (length rest + 1 * 4)%nat by lia.
      rewrite Nat.Div0.mod_add. reflexivity.
Qed.

(** X3.  Signed 32-bit words survive the trip through bytes:
    [bytesToWords] of [wordsToBytes] gives the words back. *)
Theorem bytesToWords_wordsToBytes (ws : list Z) :
  Forall int32 ws -> bytesToWords (wordsToBytes ws) = ws.
Proof.
  induction 1 as [|w ws Hw _ IH]; [reflexivity|].
  rewrite wordsToBytes_cons, bytesToWords_cons4, IH, word_of_byte_at by exact Hw.
  reflexivity.
Qed.

End WordsOfBytes.

(** X4.  Bytes survive the trip through words: [wordsToBytes] of
    [bytesToWords] gives the bytes back, followed by the zero bytes that
    fill the last started group of four. *)
Theorem wordsToBytes_bytesToWords (bs : list Z) :
  bytes bs ->
  Bits.wordsToBytes (Bits.bytesToWords bs) =
    bs ++ replicate ((4 - length bs mod 4) mod 4) 0.
Proof. intros Hb. apply (wordsToBytes_bytesToWords_upto (length bs)); [lia|exact Hb]. Qed.

Lemma wordsToBytes_bytesToWords_witness :
  bytes [1; 2; 3; 4; 5]
  /\ Bits.wordsToBytes (Bits.bytesToWords [1; 2; 3; 4; 5]) = [1; 2; 3; 4; 5] ++ [0; 0; 0].
Proof.
  assert (Hb : bytes [1; 2; 3; 4; 5]) by (repeat constructor; lia).
  split; [exact Hb|]. exact (wordsToBytes_bytesToWords [1; 2; 3; 4; 5] Hb).
Defined.

Lemma bytesToWords_wordsToBytes_witness :
  Forall int32 [-1; 305419896]
  /\ Bits.bytesToWords (Bits.wordsToBytes [-1; 305419896]) = [-1; 305419896].
Proof.
  assert (Hw : Forall int32 [-1; 305419896]) by (repeat constructor; unfold int32; lia).
  split; [exact Hw|]. exact (bytesToWords_wordsToBytes _ Hw).
Defined.

(** ** bits_operation.ts: [getBit] and [setBit] *)

Section SingleBits.
Import JS BitOps.

Lemma testbit_1 n : 0 <= n -> Z.testbit 1 n = (n =? 0).
Proof.
  intros Hn. change 1 with (Z.ones 1). rewrite Z.testbit_ones_nonneg by lia.
  destruct (Z.ltb_spec n 1), (Z.eqb_spec n 0); lia || reflexivity.
Qed.

(** [(b >> p) & 1] is bit [p] of [b]. *)
Lemma bit_at b p : 0 <= p < 32 -> (b >> p) .& 1 = Z.b2z (Z.testbit b p).
Proof.
  intros Hp. apply Z.bits_inj'. intros n Hn. unfold band. change (ToInt32 1) with 1.
  rewrite Z.land_spec, testbit_1 by lia.
  destruct (Z.eqb_spec n 0) as [->|Hne].
  - rewrite andb_true_r. rewrite ToInt32_testbit_low by lia.
    rewrite sar_testbit by lia. rewrite Z.add_0_l, Z.b2z_bit0. reflexivity.
  - rewrite andb_false_r. symmetry.
    destruct (Z.testbit b p); cbn [Z.b2z]; [|apply Z.bits_0].
    rewrite testbit_1 by lia. apply Z.eqb_neq. exact Hne.
Qed.

Lemma shl1_testbit p n : 0 <= p < 32 -> 0 <= n < 32 -> Z.testbit (1 << p) n = (n =? p).
Proof.
  intros Hp Hn. rewrite shl_testbit by lia.
  destruct (Z.leb_spec p n); cbn [andb].
  - rewrite testbit_1 by lia. destruct (Z.eqb_spec (n - p) 0), (Z.eqb_spec n p); lia || reflexivity.
  - symmetry. apply Z.eqb_neq. lia.
Qed.

Lemma set_bit_testbit byte p n :
  0 <= p < 8 -> 0 <= n < 8 ->
  Z.testbit (ToUint8 (byte .| (1 << p))) n = (n =? p) || Z.testbit byte n.
Proof.
  intros Hp Hn. rewrite ToUint8_testbit by lia. replace (n <? 8) with true by lia.
  cbn [andb]. rewrite bor_testbit, shl1_testbit by lia. apply orb_comm.
Qed.

Lemma clear_bit_testbit byte p n :
  0 <= p < 8 -> 0 <= n < 8 ->
  Z.testbit (ToUint8 (byte .& bnot (1 << p))) n = negb (n =? p) && Z.testbit byte n.
Proof.
  intros Hp Hn. rewrite ToUint8_testbit by lia. replace (n <? 8) with true by lia.
  cbn [andb]. unfold band, bnot. rewrite Z.land_spec, !ToInt32_testbit_low by lia.
  rewrite Z.lnot_spec, ToInt32_testbit_low, shl1_testbit by lia. apply andb_comm.
Qed.

Lemma get_set_eq data q x : 0 <= q < len data -> (set data q x).[q] = x.
Proof.
  intros Hq. unfold len in Hq. unfold get, idx, set. replace (q <? 0) with false by lia.
  rewrite list_lookup_insert_eq by lia. reflexivity.
Qed.

Lemma get_set_ne data q q' x : 0 <= q' -> q <> q' -> (set data q x).[q'] = data.[q'].
Proof.
  intros Hq' Hne. unfold get, idx, set. replace (q' <? 0) with false by lia.
  destruct (Z.ltb_spec q 0); [reflexivity|].
  rewrite list_lookup_insert_ne by lia. reflexivity.
Qed.

Lemma length_set data q x : length (set data q x) = length data.
Proof. unfold set. destruct (q <? 0); [reflexivity|]. apply length_insert. Qed.

Lemma len_set data q x : len (set data q x) = len data.
Proof. unfold len, set. destruct (q <? 0); [reflexivity|]. rewrite length_insert. reflexivity. Qed.

(** The position inside its byte of the bit with index [i]. *)
Lemma getBit_in data i (l : bool) :
  0 <= i < 8 * len data ->
  getBit data i l =
    Done (Z.b2z (Z.testbit data.[i / 8] (if l then i mod 8 else 7 - i mod 8))).
Proof.
  intros Hi. unfold getBit. cbv zeta.
  pose proof (Z.mod_pos_bound i 8 eq_refl) as Hm.
  assert (Hq : 0 <= i / 8 < len data) by (Z.to_euclidean_division_equations; lia).
  replace (i / 8 <? 0) with false by lia. replace (i / 8 >=? len data) with false by lia.
  cbn [orb]. unfold rem. rewrite Z.rem_mod_nonneg by lia.
  destruct l; rewrite bit_at by lia; reflexivity.
Qed.

Lemma getBit_out data i l :
  ~ (0 <= i < 8 * len data) -> getBit data i l = Raise (BitIndexOutOfBounds (i / 8)).
Proof.
  intros Hi. unfold getBit. cbv zeta.
  destruct (Z.ltb_spec (i / 8) 0); [reflexivity|].
  destruct (Z.geb_spec (i / 8) (len data)); [reflexivity|].
  exfalso. apply Hi. Z.to_euclidean_division_equations; lia.
Qed.

Lemma setBit_in data i v (l : bool) :
  0 <= i < 8 * len data -> v = 0 \/ v = 1 ->
  exists byte,
    setBit data i v l = Done (set data (i / 8) byte)
    /\ forall n, 0 <= n < 8 ->
         Z.testbit byte n =
           if n =? (if l then i mod 8 else 7 - i mod 8) then (v =? 1)
           else Z.testbit data.[i / 8] n.
Proof.
  intros Hi Hv. unfold setBit. cbv zeta.
  pose proof (Z.mod_pos_bound i 8 eq_refl) as Hm.
  assert (Hq : 0 <= i / 8 < len data) by (Z.to_euclidean_division_equations; lia).
  replace (i / 8 <? 0) with false by lia. replace (i / 8 >=? len data) with false by lia.
  cbn [orb]. unfold rem. rewrite Z.rem_mod_nonneg by lia.
  destruct Hv as [-> | ->]; cbn [Z.eqb Pos.eqb negb andb]; destruct l;
    (eexists; split; [reflexivity|]); intros n Hn;
    rewrite ?set_bit_testbit, ?clear_bit_testbit by lia;
    match goal with |- context [n =? ?p] => destruct (n =? p) end; reflexivity.
Qed.

Lemma setBit_out data i v l :
  ~ (0 <= i < 8 * len data) -> setBit data i v l = Raise (BitIndexOutOfBounds (i / 8)).
Proof.
  intros Hi. unfold setBit. cbv zeta.
  destruct (Z.ltb_spec (i / 8) 0); [reflexivity|].
  destruct (Z.geb_spec (i / 8) (len data)); [reflexivity|].
  exfalso. apply Hi. Z.to_euclidean_division_equations; lia.
Qed.

Lemma byte_pos_inj (l : bool) i j :
  0 <= i -> 0 <= j -> i / 8 = j / 8 ->
  (if l then i mod 8 else 7 - i mod 8) = (if l then j mod 8 else 7 - j mod 8) -> i = j.
Proof. intros Hi Hj Hq Hp. destruct l; Z.to_euclidean_division_equations; lia. Qed.

Lemma setBit_getBit data i v l :
  0 <= i < 8 * len data -> v = 0 \/ v = 1 ->
  exists data',
    setBit data i v l = Done data' /\ length data' = length data
    /\ getBit data' i l = Done v
    /\ forall j, j <> i -> getBit data' j l = getBit data j l.
Proof.
  intros Hi Hv. destruct (setBit_in data i v l Hi Hv) as (byte & Hset & Hbits).
  pose proof (Z.mod_pos_bound i 8 eq_refl) as Hm.
  assert (Hq : 0 <= i / 8 < len data) by (Z.to_euclidean_division_equations; lia).
  assert (Hp : 0 <= (if l then i mod 8 else 7 - i mod 8) < 8) by (destruct l; lia).
  exists (set data (i / 8) byte). split; [exact Hset|].
  split; [pose proof (len_set data (i / 8) byte) as H; unfold len in H; lia|].
  split.
  - rewrite getBit_in by (rewrite len_set; exact Hi).
    rewrite get_set_eq by exact Hq. rewrite Hbits by exact Hp. rewrite Z.eqb_refl.
    destruct Hv as [-> | ->]; reflexivity.
  - intros j Hj.
    destruct (Z_lt_dec j 0) as [Hneg|Hnn];
      [rewrite !getBit_out by (rewrite ?len_set; lia);reflexivity|].
    destruct (Z_lt_dec j (8 * len data)) as [Hlt|Hge];
      [|rewrite !getBit_out by (rewrite ?len_set; lia); reflexivity].
    rewrite !getBit_in by (rewrite ?len_set; lia).
    pose proof (Z.mod_pos_bound j 8 eq_refl) as Hmj.
    destruct (Z.eq_dec (i / 8) (j / 8)) as [E|E].
    + rewrite <- E, get_set_eq by exact Hq.
      rewrite Hbits by (destruct l; lia).
      destruct (Z.eqb_spec (if l then j mod 8 else 7 - j mod 8)
                           (if l then i mod 8 else 7 - i mod 8)) as [E'|E']; [|reflexivity].
      exfalso. apply Hj. symmetry. apply (byte_pos_inj l); auto; lia.
    + rewrite get_set_ne by (Z.to_euclidean_division_equations; lia). reflexivity.
Qed.

Lemma getBit_01 data i l b : getBit data i l = Done b -> b = 0 \/ b = 1.
Proof.
  destruct (Z_lt_dec i 0) as [Hneg|Hnn]; [rewrite getBit_out by lia; discriminate|].
  destruct (Z_lt_dec i (8 * len data)) as [Hlt|Hge];
    [|rewrite getBit_out by lia; discriminate].
  rewrite getBit_in by lia. intros [= <-].
  destruct (Z.testbit _ _); cbn [Z.b2z]; auto.
Qed.

End SingleBits.

(** X5.  [getBit] and [setBit] address the same bit: after a bit is set
    to 0 or 1 inside the array, reading it back gives that value, every
    other index reads (or fails) as before, and the length is kept. *)
Theorem setBit_then_getBit (data : list Z) (i v : Z) (lsbFirst : bool) :
  0 <= i < 8 * JS.len data -> v = 0 \/ v = 1 ->
  exists data',
    BitOps.setBit data i v lsbFirst = BitOps.Done data' /\ length data' = length data
    /\ BitOps.getBit data' i lsbFirst = BitOps.Done v
    /\ forall j, j <> i -> BitOps.getBit data' j lsbFirst = BitOps.getBit data j lsbFirst.
Proof. apply setBit_getBit. Qed.

Lemma setBit_then_getBit_witness :
  exists data',
    BitOps.setBit [0; 255] 9 0 false = BitOps.Done data' /\ length data' = 2%nat
    /\ BitOps.getBit data' 9 false = BitOps.Done 0
    /\ forall j, j <> 9 -> BitOps.getBit data' j false = BitOps.getBit [0; 255] j false.
Proof.
  apply (setBit_then_getBit [0; 255] 9 0 false); [cbv; split; [discriminate|reflexivity]|].
  left. reflexivity.
Defined.

(** X6.  [getBit] and [setBit] fail exactly on a bit index outside the
    array, reporting the byte index [floor(bitIndex / 8)]; inside the array
    [getBit] returns 0 or 1, and [setBit] refuses any value but 0 and 1. *)
Theorem bit_index_bounds (data : list Z) (i v : Z) (lsbFirst : bool) :
  match BitOps.getBit data i lsbFirst with
  | BitOps.Done b => 0 <= i < 8 * JS.len data /\ (b = 0 \/ b = 1)
  | BitOps.Raise e => ~ (0 <= i < 8 * JS.len data)
                      /\ e = BitOps.BitIndexOutOfBounds (i / 8)
                      /\ BitOps.setBit data i v lsbFirst = BitOps.Raise e
  end
  /\ match BitOps.setBit data i v lsbFirst with
     | BitOps.Done _ => 0 <= i < 8 * JS.len data /\ (v = 0 \/ v = 1)
     | BitOps.Raise e => e = BitOps.BitValueInvalid <->
                         (0 <= i < 8 * JS.len data /\ v <> 0 /\ v <> 1)
     end.
Proof.
  destruct (Z_lt_dec i 0) as [Hneg|Hnn];
    [rewrite getBit_out, setBit_out by lia;
     split; [split; [lia|split; reflexivity]|split; [discriminate|lia]]|].
  destruct (Z_lt_dec i (8 * JS.len data)) as [Hlt|Hge];
    [|rewrite getBit_out, setBit_out by lia;
      split; [split; [lia|split; reflexivity]|split; [discriminate|lia]]].
  split.
  - destruct (BitOps.getBit data i lsbFirst) as [b|e] eqn:E.
    + split; [lia|]. apply (getBit_01 _ _ _ _ E).
    + rewrite getBit_in in E by lia. discriminate E.
  - destruct (Z.eq_dec v 0) as [->|H0];
      [destruct (setBit_in data i 0 lsbFirst) as (byte & -> & _); [lia|auto|split; [lia|auto]]|].
    destruct (Z.eq_dec v 1) as [->|H1];
      [destruct (setBit_in data i 1 lsbFirst) as (byte & -> & _); [lia|auto|split; [lia|auto]]|].
    unfold BitOps.setBit. cbv zeta.
    assert (Hq : 0 <= i / 8 < JS.len data) by (Z.to_euclidean_division_equations; lia).
    replace (i / 8 <? 0) with false by lia.
    replace (i / 8 >=? JS.len data) with false by lia. cbn [orb].
    destruct (Z.eqb_spec v 0); [lia|]. destruct (Z.eqb_spec v 1); [lia|]. cbn [negb andb].
    split; [intros _; lia|reflexivity].
Qed.

(** ** bits_operation.ts: [permuteBits] and [cycleOffset] *)

Section Permute.
Import JS BitOps.

Lemma permuteLoop_spec inputData lin lout : forall rest i out,
  0 <= i -> i + len rest <= 8 * len out ->
  Forall (fun e => 1 <= e <= 8 * len inputData) rest ->
  exists out',
    permuteLoop inputData lin lout i rest out = Done out'
    /\ length out' = length out
    /\ (forall j, j < i -> getBit out' j lout = getBit out j lout)
    /\ (forall k : nat, (k < length rest)%nat ->
          getBit out' (i + Z.of_nat k) lout = getBit inputData (nth k rest 0 - 1) lin).
Proof.
  induction rest as [|entry rest IH]; intros i out Hi Hfit Hall.
  - exists out. cbn [permuteLoop length].
    split; [reflexivity|]. split; [reflexivity|]. split; [reflexivity|]. intros k Hk. lia.
  - inversion_clear Hall as [|? ? He Hrest]. cbn [permuteLoop]. cbv zeta.
    replace (entry - 1 <? 0) with false by lia.
    replace (entry - 1 >=? len inputData * 8) with false by lia. cbn [orb].
    assert (Hfit' : i + 1 + len rest <= 8 * len out)
      by (unfold len in *; cbn [length] in Hfit; lia).
    destruct (getBit inputData (entry - 1) lin) as [bit|e] eqn:Ebit;
      [|rewrite getBit_in in Ebit by lia; discriminate Ebit].
    cbn [obind].
    assert (Hlr : 0 <= len rest) by (unfold len; lia).
    destruct (setBit_getBit out i bit lout) as (out1 & Hset & Hlen1 & Hget1 & Hframe1);
      [lia|apply (getBit_01 _ _ _ _ Ebit)|].
    rewrite Hset. cbn [obind].
    destruct (IH (i + 1) out1) as (out' & Hloop & Hlen' & Hframe' & Hbits');
      [lia|unfold len in *; rewrite Hlen1; lia|exact Hrest|].
    exists out'. split; [exact Hloop|]. split; [lia|]. split.
    + intros j Hj. rewrite Hframe' by lia. apply Hframe1. lia.
    + intros [|k] Hk.
      * cbn [nth]. rewrite Z.add_0_r, Hframe' by lia. rewrite Hget1. symmetry. exact Ebit.
      * cbn [nth]. cbn [length] in Hk.
        replace (i + Z.of_nat (S k)) with (i + 1 + Z.of_nat k) by lia.
        apply Hbits'. lia.
Qed.

Lemma permuteLoop_raises inputData lin lout : forall rest i out,
  0 <= i -> i + len rest <= 8 * len out ->
  ~ Forall (fun e => 1 <= e <= 8 * len inputData) rest ->
  exists e k, permuteLoop inputData lin lout i rest out = Raise (TableIndexOutOfBounds e k).
Proof.
  induction rest as [|entry rest IH]; intros i out Hi Hfit Hbad.
  - exfalso. apply Hbad. constructor.
  - cbn [permuteLoop]. cbv zeta.
    assert (Hfit' : i + 1 + len rest <= 8 * len out)
      by (unfold len in *; cbn [length] in Hfit; lia).
    assert (Hlr : 0 <= len rest) by (unfold len; lia).
    destruct (Z.ltb_spec (entry - 1) 0); [cbn [orb]; eauto|].
    destruct (Z.geb_spec (entry - 1) (len inputData * 8)); [cbn [orb]; eauto|]. cbn [orb].
    destruct (getBit inputData (entry - 1) lin) as [bit|e] eqn:Ebit;
      [|rewrite getBit_in in Ebit by lia; discriminate Ebit].
    cbn [obind].
    destruct (setBit_getBit out i bit lout) as (out1 & Hset & Hlen1 & _);
      [lia|apply (getBit_01 _ _ _ _ Ebit)|].
    rewrite Hset. cbn [obind]. apply IH; [lia|unfold len in *; rewrite Hlen1; lia|].
    intros Hrest. apply Hbad. constructor; [lia|exact Hrest].
Qed.

Lemma output_fits n : 0 <= n -> n <= 8 * len (replicate (Z.to_nat ((n + 7) / 8)) 0).
Proof.
  intros Hn. unfold len. rewrite length_replicate, Z2Nat.id
    by (Z.to_euclidean_division_equations; lia).
  Z.to_euclidean_division_equations; lia.
Qed.

End Permute.

(** X7.  [permuteBits] returns exactly when every table entry lies
    between 1 and the number of input bits.  It then returns
    [ceil(n / 8)] bytes in which output bit [k] is input bit [table[k] - 1],
    each read in its own bit order; otherwise it throws the table-index
    error, whatever the other entries are. *)
Theorem permuteBits_places_bits (inputData table : list Z) (lsbIn lsbOut : bool) :
  match BitOps.permuteBits inputData table lsbIn lsbOut with
  | BitOps.Done out =>
      Forall (fun e => 1 <= e <= 8 * JS.len inputData) table
      /\ JS.len out = (JS.len table + 7) / 8
      /\ forall k : nat, (k < length table)%nat ->
           BitOps.getBit out (Z.of_nat k) lsbOut =
             BitOps.getBit inputData (nth k table 0 - 1) lsbIn
  | BitOps.Raise e =>
      ~ Forall (fun e => 1 <= e <= 8 * JS.len inputData) table
      /\ exists i k, e = BitOps.TableIndexOutOfBounds i k
  end.
Proof.
  unfold BitOps.permuteBits. cbv zeta.
  assert (Hfit : 0 + JS.len table
                 <= 8 * JS.len (replicate (Z.to_nat ((JS.len table + 7) / 8)) 0))
    by (rewrite Z.add_0_l; apply output_fits; unfold JS.len; lia).
  destruct (List.Forall_dec (fun e => 1 <= e <= 8 * JS.len inputData)) with (l := table)
    as [Hall|Hbad].
  { intros e. destruct (Z_le_dec 1 e), (Z_le_dec e (8 * JS.len inputData));
      (left; lia) || (right; lia). }
  - destruct (permuteLoop_spec inputData lsbIn lsbOut table 0
                (replicate (Z.to_nat ((JS.len table + 7) / 8)) 0))
      as (out & Hloop & Hlen & _ & Hbits); [lia|exact Hfit|exact Hall|].
    rewrite Hloop. split; [exact Hall|]. split.
    + unfold JS.len at 1. rewrite Hlen, length_replicate.
      apply Z2Nat.id. unfold JS.len. Z.to_euclidean_division_equations; lia.
    + intros k Hk. rewrite <- (Hbits k Hk). reflexivity.
  - destruct (permuteLoop_raises inputData lsbIn lsbOut table 0
                (replicate (Z.to_nat ((JS.len table + 7) / 8)) 0))
      as (i & k & Hloop); [lia|exact Hfit|exact Hbad|].
    rewrite Hloop. split; [exact Hbad|]. exists i, k. reflexivity.
Qed.

Section Cycle.
Import JS BitOps.

Lemma typedSet0_fits buffer source :
  (length source <= length buffer)%nat ->
  typedSet0 buffer source = Ok (source ++ drop (length source) buffer).
Proof.
  intros H. unfold typedSet0, len.
  destruct (Z.gtb_spec (Z.of_nat (length source)) (Z.of_nat (length buffer))); [lia|].
  reflexivity.
Qed.

Lemma ArrayBuffer_slice_nonneg buf b e :
  0 <= b -> 0 <= e ->
  ArrayBuffer_slice buf b e =
    take (Z.to_nat (Z.min e (len buf)) - Z.to_nat (Z.min b (len buf)))
         (drop (Z.to_nat (Z.min b (len buf))) buf).
Proof.
  intros Hb He. unfold ArrayBuffer_slice, clampIndex. cbv zeta.
  replace (b <? 0) with false by lia. replace (e <? 0) with false by lia.
  f_equal. lia.
Qed.

Lemma cycleOffset_eq buf o :
  let m := Z.to_nat (Z.min (Z.max o 0) (len buf)) in
  cycleOffset buf o =
    Ok (drop m buf ++ drop (length buf - m) (take m buf ++ replicate (length buf - m) 0)).
Proof.
  intros m. unfold cycleOffset. cbv zeta.
  assert (Hl : 0 <= len buf) by (unfold len; lia).
  assert (Hml : (m <= length buf)%nat) by (subst m; unfold len; lia).
  replace (Z.to_nat (len buf)) with (length buf) by (unfold len; lia).
  destruct (Z.ltb_spec o 0) as [Hneg|Hnn]; rewrite !ArrayBuffer_slice_nonneg by lia.
  - assert (Hm : m = 0%nat) by (subst m; lia). rewrite Hm.
    replace (Z.to_nat (Z.min (len buf - o) (len buf))) with (length buf) by (unfold len; lia).
    replace (Z.to_nat (Z.min (len buf) (len buf))) with (length buf) by (unfold len; lia).
    replace (Z.to_nat (Z.min 0 (len buf))) with 0%nat by lia.
    rewrite Nat.sub_diag, Nat.sub_0_r. rewrite !take_0, !drop_0, firstn_all.
    rewrite typedSet0_fits by (cbn [length]; lia). cbn [rbind length app].
    rewrite drop_0, typedSet0_fits by (rewrite length_replicate; lia). cbn [rbind app].
    reflexivity.
  - replace (Z.to_nat (Z.min o (len buf))) with m by (subst m; lia).
    replace (Z.to_nat (Z.min (len buf) (len buf))) with (length buf) by (unfold len; lia).
    replace (Z.to_nat (Z.min 0 (len buf))) with 0%nat by lia.
    rewrite Nat.sub_0_r, drop_0.
    rewrite (take_ge (drop m buf)) by (rewrite length_drop; lia).
    rewrite typedSet0_fits by (rewrite length_take, length_replicate; lia).
    cbn [rbind]. rewrite length_take, Nat.min_l by lia.
    rewrite typedSet0_fits
      by (rewrite length_drop, length_app, length_take, length_drop, length_replicate; lia).
    cbn [rbind]. rewrite length_drop, drop_replicate. reflexivity.
Qed.

End Cycle.

(** X8.  [cycleOffset] never fails and keeps the length, but it does not
    rotate: both pieces are written at position 0.  With an offset that is
    negative, zero, or at least the length the buffer comes back unchanged;
    with an offset of at most half the length the first [offset] bytes are
    dropped and as many zero bytes are appended. *)
Theorem cycleOffset_drops_bytes (buf : list Z) (offset : Z) :
  exists r,
    BitOps.cycleOffset buf offset = Ok r /\ length r = length buf
    /\ (offset <= 0 \/ JS.len buf <= offset -> r = buf)
    /\ (0 <= 2 * offset <= JS.len buf ->
        r = drop (Z.to_nat offset) buf ++ replicate (Z.to_nat offset) 0).
Proof.
  eexists. split; [apply cycleOffset_eq|]. cbv zeta. unfold JS.len.
  set (m := Z.to_nat (Z.min (Z.max offset 0) (Z.of_nat (length buf)))).
  assert (Hml : (m <= length buf)%nat) by (subst m; lia).
  split; [|split].
  - rewrite length_app, !length_drop, length_app, length_take, length_replicate. lia.
  - intros [H|H].
    + assert (Hm : m = 0%nat) by (subst m; lia). rewrite Hm. rewrite take_0, drop_0. cbn [app].
      rewrite Nat.sub_0_r, drop_replicate, Nat.sub_diag. apply app_nil_r.
    + assert (Hm : m = length buf) by (subst m; lia). rewrite Hm.
      rewrite drop_all, Nat.sub_diag, firstn_all. cbn [replicate app]. rewrite drop_0, app_nil_r. cbn [app].
      reflexivity.
  - intros H. assert (Hm : m = Z.to_nat offset) by (subst m; lia). rewrite Hm.
    f_equal. rewrite drop_app_ge by (rewrite length_take; lia).
    rewrite length_take, drop_replicate. f_equal. lia.
Qed.

(** ** bits_operation.ts: [reverseByteBits] *)

Section ReverseBits.
Import JS BitOps.

(** A check made on every byte holds for every byte. *)
Lemma forall_bytes (P : Z -> bool) :
  forallb P (range 0 256) = true -> forall b, 0 <= b < 256 -> P b = true.
Proof.
  intros H b Hb. rewrite forallb_forall in H. apply H.
  unfold range. apply in_map_iff. exists (Z.to_nat b). split; [lia|].
  apply in_seq. lia.
Qed.

Lemma bit_at_low x i : 0 <= i < 8 -> (x >> i) .& 1 = (ToUint8 x >> i) .& 1.
Proof.
  intros Hi. rewrite !bit_at by lia. rewrite ToUint8_testbit by lia.
  replace (i <? 8) with true by lia. reflexivity.
Qed.

Lemma reverseByteBits_low x : reverseByteBits x = reverseByteBits (ToUint8 x).
Proof.
  unfold reverseByteBits.
  change (range 0 8) with [0; 1; 2; 3; 4; 5; 6; 7]. cbn [fold_left].
  rewrite (bit_at_low x 0), (bit_at_low x 1), (bit_at_low x 2), (bit_at_low x 3),
    (bit_at_low x 4), (bit_at_low x 5), (bit_at_low x 6), (bit_at_low x 7) by lia.
  reflexivity.
Qed.

Lemma reverseByteBits_bytes b :
  0 <= b < 256 ->
  (0 <=? reverseByteBits b) && (reverseByteBits b <? 256)
  && (reverseByteBits (reverseByteBits b) =? b)
  && forallb (fun i => Bool.eqb (Z.testbit (reverseByteBits b) i) (Z.testbit b (7 - i)))
             (range 0 8) = true.
Proof. revert b. apply forall_bytes. vm_compute. reflexivity. Qed.

End ReverseBits.

(** X9.  [reverseByteBits] mirrors the low eight bits of its argument:
    bit [i] of the result is bit [7 - i] of the argument, the result is a
    byte, and reversing twice gives back the argument's low byte. *)
Theorem reverseByteBits_mirror (x i : Z) :
  0 <= i < 8 ->
  Z.testbit (BitOps.reverseByteBits x) i = Z.testbit x (7 - i)
  /\ 0 <= BitOps.reverseByteBits x < 256
  /\ BitOps.reverseByteBits (BitOps.reverseByteBits x) = JS.ToUint8 x.
Proof.
  intros Hi. rewrite (reverseByteBits_low x).
  pose proof (reverseByteBits_bytes (JS.ToUint8 x) (ToUint8_range x)) as H.
  apply andb_prop in H. destruct H as [H Hbits].
  apply andb_prop in H. destruct H as [H Hinv].
  apply andb_prop in H. destruct H as [Hlo Hhi].
  split; [|split; [lia|lia]].
  rewrite forallb_forall in Hbits.
  assert (Hin : In i (JS.range 0 8)).
  { unfold JS.range. apply in_map_iff. exists (Z.to_nat i). split; [lia|]. apply in_seq. lia. }
  apply Hbits in Hin. apply Bool.eqb_prop in Hin. rewrite Hin.
  rewrite ToUint8_testbit by lia. replace (7 - i <? 8) with true by lia. reflexivity.
Qed.

Lemma reverseByteBits_mirror_witness :
  Z.testbit (BitOps.reverseByteBits 1) 7 = Z.testbit 1 (7 - 7)
  /\ 0 <= BitOps.reverseByteBits 1 < 256
  /\ BitOps.reverseByteBits (BitOps.reverseByteBits 1) = JS.ToUint8 1.
Proof. apply (reverseByteBits_mirror 1 7). lia. Defined.

(** ** twoFish/tools.ts: the [q] permutations *)

Section Tools.
Import JS TwoFish.

Lemma nibble_low x : x .& 0xF = ToUint8 x .& 0xF.
Proof.
  apply Z.bits_inj'. intros n Hn. unfold band. change (ToInt32 15) with (Z.ones 4).
  rewrite !Z.land_spec, Z.testbit_ones_nonneg by lia.
  destruct (Z.ltb_spec n 4); [|rewrite !andb_false_r; reflexivity].
  rewrite !andb_true_r, !ToInt32_testbit_low, ToUint8_testbit by lia.
  replace (n <? 8) with true by lia. reflexivity.
Qed.

Lemma high_nibble_low x : (x >> 4) .& 0xF = (ToUint8 x >> 4) .& 0xF.
Proof.
  apply Z.bits_inj'. intros n Hn. unfold band. change (ToInt32 15) with (Z.ones 4).
  rewrite !Z.land_spec, Z.testbit_ones_nonneg by lia.
  destruct (Z.ltb_spec n 4); [|rewrite !andb_false_r; reflexivity].
  rewrite !andb_true_r, !ToInt32_testbit_low, !sar_testbit, ToUint8_testbit by lia.
  replace (n + 4 <? 8) with true by lia. reflexivity.
Qed.

(** [q] reads the low byte of its argument only. *)
Lemma q_low x t : q x t = q (ToUint8 x) t.
Proof. unfold q. rewrite (nibble_low x), (high_nibble_low x). reflexivity. Qed.

(** The 256 values of [q] on bytes: all bytes, and every byte among them. *)
Lemma q_table_check t :
  t = Q0 \/ t = Q1 ->
  let table := map (fun b => q b t) (range 0 256) in
  forallb (fun v => (0 <=? v) && (v <? 256)) table
  && forallb (fun y => existsb (Z.eqb y) table) (range 0 256) = true.
Proof. intros [-> | ->]; vm_compute; reflexivity. Qed.

Lemma NoDup_range a n : NoDup (range a n).
Proof.
  unfold range. apply NoDup_fmap_2; [|apply NoDup_seq].
  intros i j H. lia.
Qed.

Lemma q_table t :
  t = Q0 \/ t = Q1 ->
  let table := map (fun b => q b t) (range 0 256) in
  Forall (fun v => 0 <= v < 256) table /\ NoDup table
  /\ forall y, 0 <= y < 256 -> In y table.
Proof.
  intros Ht table. pose proof (q_table_check t Ht) as H. cbv zeta in H. fold table in H.
  apply andb_prop in H. destruct H as [Hrange Hsurj].
  assert (Hin : forall y, 0 <= y < 256 -> In y table).
  { intros y Hy. pose proof (forall_bytes _ Hsurj y Hy) as Hex. cbv beta in Hex.
    apply existsb_exists in Hex. destruct Hex as (v & Hv & E).
    apply Z.eqb_eq in E. subst v. exact Hv. }
  split; [|split; [|exact Hin]].
  - apply List.Forall_forall. intros v Hv. rewrite forallb_forall in Hrange.
    apply Hrange in Hv. lia.
  - apply NoDup_ListNoDup. apply (List.NoDup_incl_NoDup (l := range 0 256)).
    + apply NoDup_ListNoDup, NoDup_range.
    + subst table. rewrite length_map. lia.
    + intros y Hy. apply Hin. unfold range in Hy. apply in_map_iff in Hy.
      destruct Hy as (i & <- & Hi). apply in_seq in Hi. lia.
Qed.

End Tools.

(** X10.  Each of the two [q] permutations is a bijection of the bytes:
    [q] reads only the low byte of its argument, returns a byte, takes
    different bytes to different bytes, and reaches every byte. *)
Theorem q_permutes_bytes (t : TwoFish.QTable) (x y : Z) :
  t = TwoFish.Q0 \/ t = TwoFish.Q1 ->
  TwoFish.q x t = TwoFish.q (JS.ToUint8 x) t
  /\ 0 <= TwoFish.q x t < 256
  /\ (TwoFish.q x t = TwoFish.q y t -> JS.ToUint8 x = JS.ToUint8 y)
  /\ exists b, 0 <= b < 256 /\ TwoFish.q b t = JS.ToUint8 y.
Proof.
  intros Ht. destruct (q_table t Ht) as (Hrange & Hnodup & Hsurj).
  assert (Hlook : forall b, 0 <= b < 256 ->
            map (fun b => TwoFish.q b t) (JS.range 0 256) !! Z.to_nat b = Some (TwoFish.q b t)).
  { intros b Hb. rewrite list_lookup_fmap, lookup_range by lia. cbn. f_equal. f_equal. lia. }
  split; [apply q_low|]. split; [|split].
  - rewrite q_low. rewrite Forall_lookup in Hrange.
    apply (Hrange _ _ (Hlook _ (ToUint8_range x))).
  - rewrite (q_low x), (q_low y). intros E.
    pose proof (Hlook _ (ToUint8_range x)) as Hx.
    pose proof (Hlook _ (ToUint8_range y)) as Hy. rewrite <- E in Hy.
    pose proof (NoDup_lookup _ _ _ _ Hnodup Hx Hy) as Hxy.
    pose proof (ToUint8_range x). pose proof (ToUint8_range y). lia.
  - specialize (Hsurj _ (ToUint8_range y)). apply in_map_iff in Hsurj.
    destruct Hsurj as (b & Hb & Hin). exists b. split; [|exact Hb].
    unfold JS.range in Hin. apply in_map_iff in Hin. destruct Hin as (i & <- & Hi).
    apply in_seq in Hi. lia.
Qed.

Lemma q_permutes_bytes_witness :
  TwoFish.q 300 TwoFish.Q0 = TwoFish.q (JS.ToUint8 300) TwoFish.Q0
  /\ 0 <= TwoFish.q 300 TwoFish.Q0 < 256
  /\ (TwoFish.q 300 TwoFish.Q0 = TwoFish.q 7 TwoFish.Q0 -> JS.ToUint8 300 = JS.ToUint8 7)
  /\ exists b, 0 <= b < 256 /\ TwoFish.q b TwoFish.Q0 = JS.ToUint8 7.
Proof. apply (q_permutes_bytes TwoFish.Q0 300 7). left. reflexivity. Defined.

(** ** twoFish/tools.ts: [multiplyGF] and [PHT] *)

Section FieldProduct.
Import JS TwoFish.

Lemma bxor_byte a b : 0 <= a < 256 -> 0 <= b < 256 -> 0 <= a .^ b < 256.
Proof.
  intros Ha Hb. replace (a .^ b) with (ToUint8 (a .^ b)); [apply ToUint8_range|].
  apply Z.bits_inj'. intros n Hn. rewrite ToUint8_testbit by lia.
  destruct (Z.ltb_spec n 8); [reflexivity|]. cbn [andb]. symmetry.
  unfold bxor. rewrite Z.lxor_spec, !ToInt32_testbit by lia.
  rewrite !byte_testbit_high by lia. reflexivity.
Qed.

(** Doubling in the field: [a <<= 1; if (a & 0x100) a ^= RS_POLY]. *)
Lemma double_byte a :
  0 <= a < 256 ->
  0 <= (if negb (((a << 1) .& 0x100) =? 0) then (a << 1) .^ RS_POLY else a << 1) < 256.
Proof.
  intros Ha.
  pose proof (forall_bytes
    (fun a => let d := if negb (((a << 1) .& 0x100) =? 0) then (a << 1) .^ RS_POLY else a << 1 in
              (0 <=? d) && (d <? 256))) as H.
  cbv zeta in H. specialize (H ltac:(vm_compute; reflexivity) a Ha). cbv beta in H.
  destruct (negb (((a << 1) .& 0x100) =? 0)); lia.
Qed.

Lemma multiplyGF_loop_byte (n : nat) : forall a b r,
  0 <= a < 256 -> 0 <= r < 256 -> 0 <= multiplyGF_loop n a b r < 256.
Proof.
  induction n as [|n IH]; intros a b r Ha Hr; [exact Hr|].
  rewrite multiplyGF_loop_S. destruct (b >? 0); [|exact Hr].
  apply IH; [apply double_byte, Ha|].
  destruct (negb ((b .& 1) =? 0)); [apply bxor_byte; assumption|exact Hr].
Qed.

Lemma multiplyGF_one a :
  0 <= a < 256 -> (multiplyGF a 1 =? a) && (multiplyGF 1 a =? a) = true.
Proof. revert a. apply forall_bytes. vm_compute. reflexivity. Qed.

End FieldProduct.

(** X11.  [multiplyGF] on a byte: the loop has ended after 32 turns (more
    turns change nothing), the product is again a byte whatever the second
    factor is, and 1 is neutral on both sides. *)
Theorem multiplyGF_stays_in_field (a b : Z) (n : nat) :
  0 <= a < 256 -> (32 <= n)%nat ->
  TwoFish.multiplyGF_loop n a b 0 = TwoFish.multiplyGF a b
  /\ 0 <= TwoFish.multiplyGF a b < 256
  /\ TwoFish.multiplyGF a 1 = a /\ TwoFish.multiplyGF 1 a = a.
Proof.
  intros Ha Hn. split; [apply multiplyGF_loop_terminates, Hn|].
  split; [apply multiplyGF_loop_byte; lia|].
  pose proof (multiplyGF_one a Ha). lia.
Qed.

Lemma multiplyGF_stays_in_field_witness :
  TwoFish.multiplyGF_loop 40 239 200 0 = TwoFish.multiplyGF 239 200
  /\ 0 <= TwoFish.multiplyGF 239 200 < 256
  /\ TwoFish.multiplyGF 239 1 = 239 /\ TwoFish.multiplyGF 1 239 = 239.
Proof. apply (multiplyGF_stays_in_field 239 200 40); lia. Defined.

Section Hadamard.
Import JS TwoFish.

Lemma ToInt32_congr x y k : x = y + k * 2^32 -> ToInt32 x = ToInt32 y.
Proof. intros ->. unfold ToInt32. rewrite Z.mod_add by lia. reflexivity. Qed.

Lemma rem_quot x : rem x (2^32) = x - (x ÷ 2^32) * 2^32.
Proof. unfold rem. pose proof (Z.quot_rem' x (2^32)). lia. Qed.

End Hadamard.

(** X12.  [PHT] mixes two words invertibly modulo 2^32: from the pair it
    returns, [2A - B] and [B - A] give back the two arguments as signed
    32-bit values.  The components themselves keep the sign of the sums, so
    they lie strictly between -2^32 and 2^32. *)
Theorem PHT_invertible (a b : Z) :
  let '(A, B) := TwoFish.PHT a b in
  JS.ToInt32 (2 * A - B) = JS.ToInt32 a /\ JS.ToInt32 (B - A) = JS.ToInt32 b
  /\ - 2^32 < A < 2^32 /\ - 2^32 < B < 2^32.
Proof.
  unfold TwoFish.PHT. rewrite !rem_quot.
  split; [|split].
  - apply (ToInt32_congr _ _ ((a + 2 * b) ÷ 2^32 - 2 * ((a + b) ÷ 2^32))). lia.
  - apply (ToInt32_congr _ _ ((a + b) ÷ 2^32 - (a + 2 * b) ÷ 2^32)). lia.
  - rewrite <- !rem_quot. unfold JS.rem.
    pose proof (Z.rem_bound_abs (a + b) (2^32)).
    pose proof (Z.rem_bound_abs (a + 2 * b) (2^32)). lia.
Qed.

(** ** twoFish/KeyExpansion.ts: the key vectors and the repeated round keys *)

Section KeyVectors.
Import JS TwoFish.

(** The state of the constructor's loop after [m] turns: both vectors
    keep their length and the first [2m] entries of [M] are the key read as
    little-endian words. *)
Lemma vectorsMS_loop masterKey k (m : nat) :
  Z.of_nat m <= k ->
  let st := fold_left (fillMS masterKey k) (range 0 m)
                      (replicate (Z.to_nat (2 * k)) 0, replicate (Z.to_nat k) 0) in
  length (fst st) = Z.to_nat (2 * k) /\ length (snd st) = Z.to_nat k
  /\ forall j, 0 <= j < 2 * Z.of_nat m ->
       (fst st).[j] =
         masterKey.[4 * j] .| (masterKey.[4 * j + 1] << 8) .|
         (masterKey.[4 * j + 2] << 16) .| (masterKey.[4 * j + 3] << 24).
Proof.
  induction m as [|m IH]; intros Hm; cbv zeta.
  - cbn [range seq map fold_left fst snd]. rewrite !length_replicate.
    split; [reflexivity|]. split; [reflexivity|]. intros j Hj. lia.
  - rewrite (range_S 0 m), fold_left_app. cbn [fold_left].
    specialize (IH ltac:(lia)). cbv zeta in IH.
    destruct (fold_left (fillMS masterKey k) (range 0 m) _) as [vM vS].
    cbn [fst snd] in IH. destruct IH as (HlM & HlS & Hw).
    unfold fillMS. cbv zeta. cbn [fst snd]. rewrite Z.add_0_l.
    split; [|split].
    + rewrite !length_set. exact HlM.
    + rewrite length_set. exact HlS.
    + intros j Hj.
      assert (HM : len vM = 2 * k) by (unfold len; lia).
      destruct (Z.eq_dec j (2 * Z.of_nat m + 1)) as [->|Hn1].
      * rewrite get_set_eq by (rewrite len_set; lia).
        replace (4 * (2 * Z.of_nat m + 1)) with (8 * Z.of_nat m + 4) by lia.
        replace (8 * Z.of_nat m + 4 + 1) with (8 * Z.of_nat m + 5) by lia.
        replace (8 * Z.of_nat m + 4 + 2) with (8 * Z.of_nat m + 6) by lia.
        replace (8 * Z.of_nat m + 4 + 3) with (8 * Z.of_nat m + 7) by lia.
        reflexivity.
      * rewrite get_set_ne by lia.
        destruct (Z.eq_dec j (2 * Z.of_nat m)) as [->|Hn0].
        -- rewrite get_set_eq by lia.
           replace (4 * (2 * Z.of_nat m)) with (8 * Z.of_nat m) by lia. reflexivity.
        -- rewrite get_set_ne by lia. apply Hw. lia.
Qed.

Lemma vectorsMS_words masterKey :
  let k := len masterKey / 8 in
  length (fst (vectorsMS masterKey)) = Z.to_nat (2 * k)
  /\ length (snd (vectorsMS masterKey)) = Z.to_nat k
  /\ forall j, 0 <= j < 2 * k ->
       (fst (vectorsMS masterKey)).[j] =
         masterKey.[4 * j] .| (masterKey.[4 * j + 1] << 8) .|
         (masterKey.[4 * j + 2] << 16) .| (masterKey.[4 * j + 3] << 24).
Proof.
  intros k. unfold vectorsMS. fold k.
  assert (Hk : 0 <= k) by (subst k; unfold len; Z.to_euclidean_division_equations; lia).
  pose proof (vectorsMS_loop masterKey k (Z.to_nat k) ltac:(lia)) as H. cbv zeta in H.
  destruct H as (H1 & H2 & H3). split; [exact H1|]. split; [exact H2|].
  intros j Hj. apply H3. lia.
Qed.

Lemma get_beyond (l : list Z) i : len l <= i -> l.[i] = 0.
Proof.
  intros H. unfold len in H. unfold get, idx. destruct (i <? 0); [reflexivity|].
  rewrite lookup_ge_None_2 by lia. reflexivity.
Qed.

End KeyVectors.

(** X13.  The twoFish key schedule reads the master key as little-endian
    words: with [k = floor(length / 8)], the vector [M] has [2k] entries,
    the vector [S] has [k], and [M[j]] packs key bytes [4j .. 4j+3], lowest
    byte first. *)
Theorem key_vector_little_endian (masterKey : list Z) (j : Z) :
  0 <= j < 2 * (JS.len masterKey / 8) ->
  JS.len (fst (TwoFish.vectorsMS masterKey)) = 2 * (JS.len masterKey / 8)
  /\ JS.len (snd (TwoFish.vectorsMS masterKey)) = JS.len masterKey / 8
  /\ (fst (TwoFish.vectorsMS masterKey)).[j] =
       masterKey.[4 * j] .| (masterKey.[4 * j + 1] << 8) .|
       (masterKey.[4 * j + 2] << 16) .| (masterKey.[4 * j + 3] << 24).
Proof.
  intros Hj. destruct (vectorsMS_words masterKey) as (H1 & H2 & H3).
  unfold JS.len in *. split; [lia|]. split; [lia|]. apply H3. exact Hj.
Qed.

(** X14.  The twoFish round keys repeat: for a key of [8k] bytes
    ([k] = 2, 3 or 4) every pair of round-key words from pair [k] on is the
    same pair, [PHT(h(0, M), h(0, M))], because [M] has only [2k] entries.
    Pairs 4 to 19 are the subkeys of the 16 rounds, so all rounds use one
    subkey pair. *)
Theorem round_keys_repeat_from_k (masterKey : list Z) (i : Z) :
  In (JS.len masterKey) TwoFish.MASTER_KEY_SIZE_BYTES ->
  JS.len masterKey / 8 <= i < 20 ->
  exists ke rk,
    TwoFish.newKeyExpansion masterKey = Ok ke
    /\ Iface.roundKeys_ (TwoFish.base ke) = Some rk
    /\ JS.idx rk (2 * i) =
         Some (fst (TwoFish.PHT (TwoFish.h 0 (TwoFish.M ke)) (TwoFish.h 0 (TwoFish.M ke))))
    /\ JS.idx rk (2 * i + 1) =
         Some (snd (TwoFish.PHT (TwoFish.h 0 (TwoFish.M ke)) (TwoFish.h 0 (TwoFish.M ke)))).
Proof.
  intros Hlen Hi. unfold TwoFish.newKeyExpansion.
  assert (Hmod : negb (JS.len masterKey mod 8 =? 0) = false).
  { unfold TwoFish.MASTER_KEY_SIZE_BYTES in Hlen. cbn [In] in Hlen.
    destruct Hlen as [<-|[<-|[<-|[]]]]; reflexivity. }
  rewrite Hmod. destruct (vectorsMS_words masterKey) as (HlM & _ & _).
  destruct (TwoFish.vectorsMS masterKey) as [vM vS]. cbn [fst] in HlM.
  do 2 eexists. split; [reflexivity|]. cbn [TwoFish.base TwoFish.M Iface.roundKeys_].
  split; [reflexivity|].
  assert (Hk : 0 <= JS.len masterKey / 8)
    by (unfold JS.len; Z.to_euclidean_division_equations; lia).
  destruct (round_keys_of_code vM i ltac:(lia)) as (_ & H0 & H1).
  rewrite (get_beyond vM (2 * i)) in H0, H1 by (unfold JS.len; lia).
  rewrite (get_beyond vM (2 * i + 1)) in H0, H1 by (unfold JS.len; lia).
  split; assumption.
Qed.

Lemma key_vector_little_endian_witness :
  JS.len (fst (TwoFish.vectorsMS [1; 2; 3; 4; 5; 6; 7; 8; 9; 10; 11; 12; 13; 14; 15; 16])) = 4
  /\ JS.len (snd (TwoFish.vectorsMS [1; 2; 3; 4; 5; 6; 7; 8; 9; 10; 11; 12; 13; 14; 15; 16])) = 2
  /\ (fst (TwoFish.vectorsMS [1; 2; 3; 4; 5; 6; 7; 8; 9; 10; 11; 12; 13; 14; 15; 16])).[3] =
       13 .| (14 << 8) .| (15 << 16) .| (16 << 24).
Proof.
  apply (key_vector_little_endian [1; 2; 3; 4; 5; 6; 7; 8; 9; 10; 11; 12; 13; 14; 15; 16] 3).
  vm_compute. split; [discriminate|reflexivity].
Defined.

Lemma round_keys_repeat_from_k_witness :
  exists ke rk,
    TwoFish.newKeyExpansion (replicate 24 7) = Ok ke
    /\ Iface.roundKeys_ (TwoFish.base ke) = Some rk
    /\ JS.idx rk (2 * 11) =
         Some (fst (TwoFish.PHT (TwoFish.h 0 (TwoFish.M ke)) (TwoFish.h 0 (TwoFish.M ke))))
    /\ JS.idx rk (2 * 11 + 1) =
         Some (snd (TwoFish.PHT (TwoFish.h 0 (TwoFish.M ke)) (TwoFish.h 0 (TwoFish.M ke)))).
Proof.
  apply (round_keys_repeat_from_k (replicate 24 7) 11).
  - right. left. reflexivity.
  - vm_compute. split; [discriminate|reflexivity].
Defined.

(** ** The session: the IV invariant *)

Section SessionInvariant.
Import JS Bits Session.
Context {K : Type}.

Lemma setIv_iv_ok (ctx : Context K) iv r ctx' :
  iv_ok ctx -> setIv iv ctx = (r, ctx') -> iv_ok ctx'.
Proof.
  intros Hok. destruct iv as [v|].
  - rewrite setIv_Some. destruct (Z.eqb_spec (len v) MacGuffin.BLOCK_SIZE_BYTES) as [E|E];
      intros [= <- <-]; [exact E|exact Hok].
  - intros [= <- <-]. exact I.
Qed.

Lemma ctrBranch_iv_ok (ctx : Context K) blk roundKeys :
  iv_ok ctx -> iv_ok (snd (ctrBranch blk roundKeys ctx)).
Proof. rewrite ctrBranch_keeps_context. auto. Qed.

Lemma encrypt_iv_ok (ctx : Context K) blk : iv_ok ctx -> iv_ok (snd (encrypt blk ctx)).
Proof.
  intros Hok. unfold encrypt, bind, this, throw, lift, ret.
  destruct (Iface.roundKeys_ (_keyExpansion ctx)) as [rk|]; [|exact Hok].
  destruct (len blk =? 0); [exact Hok|].
  destruct (_mode ctx); try exact Hok; try (apply ctrBranch_iv_ok, Hok);
    try (destruct (Iface.encryptBlock _ blk rk) as [c|]; exact Hok);
    (destruct (_iv ctx) as [iv|] eqn:Eiv; [|exact Hok]).
  - destruct (xorBytes blk iv) as [x|]; [|exact Hok].
    destruct (Iface.encryptBlock _ x rk) as [c|]; [|exact Hok].
    destruct (setIv (Some c) ctx) as [[[]|e] ctx'] eqn:E; cbn [snd];
      apply (setIv_iv_ok _ _ _ _ Hok E).
  - destruct (xorBytes blk iv) as [x|]; [|exact Hok].
    destruct (Iface.encryptBlock _ x rk) as [c|]; [|exact Hok].
    destruct (xorBytes blk c) as [n|]; [|exact Hok].
    destruct (setIv (Some n) ctx) as [[[]|e] ctx'] eqn:E; cbn [snd];
      apply (setIv_iv_ok _ _ _ _ Hok E).
  - destruct (Iface.encryptBlock _ iv rk) as [s|]; [|exact Hok].
    destruct (xorBytes blk s) as [c|]; [|exact Hok].
    destruct (setIv (Some c) ctx) as [[[]|e] ctx'] eqn:E; cbn [snd];
      apply (setIv_iv_ok _ _ _ _ Hok E).
  - destruct (Iface.encryptBlock _ iv rk) as [s|]; [|exact Hok].
    destruct (setIv (Some s) ctx) as [[[]|e] ctx'] eqn:E; cbn [snd];
      pose proof (setIv_iv_ok _ _ _ _ Hok E) as Hok'; [|exact Hok'].
    destruct (xorBytes blk s); exact Hok'.
Qed.

Lemma decrypt_iv_ok (ctx : Context K) blk : iv_ok ctx -> iv_ok (snd (decrypt blk ctx)).
Proof.
  intros Hok. unfold decrypt, bind, this, throw, lift, ret.
  destruct (Iface.roundKeys_ (_keyExpansion ctx)) as [rk|]; [|exact Hok].
  destruct (len blk =? 0); [exact Hok|].
  destruct (Iface.getBlockSizeBytes (_blockCipher ctx)) as [bs|]; [|exact Hok].
  destruct (negb (rem (len blk) bs =? 0)); [exact Hok|].
  destruct (_mode ctx); try exact Hok; try (apply ctrBranch_iv_ok, Hok);
    try (destruct (Iface.decryptBlock _ blk rk) as [d|]; exact Hok);
    (destruct (_iv ctx) as [iv|] eqn:Eiv; [|exact Hok]).
  - destruct (Iface.decryptBlock _ blk rk) as [d|]; [|exact Hok].
    destruct (xorBytes d iv) as [p|]; [|exact Hok].
    destruct (setIv (Some blk) ctx) as [[[]|e] ctx'] eqn:E; cbn [snd];
      apply (setIv_iv_ok _ _ _ _ Hok E).
  - destruct (Iface.decryptBlock _ blk rk) as [d|]; [|exact Hok].
    destruct (xorBytes d iv) as [p|]; [|exact Hok].
    destruct (xorBytes p blk) as [n|]; [|exact Hok].
    destruct (setIv (Some n) ctx) as [[[]|e] ctx'] eqn:E; cbn [snd];
      apply (setIv_iv_ok _ _ _ _ Hok E).
  - destruct (Iface.encryptBlock _ iv rk) as [s|]; [|exact Hok].
    destruct (xorBytes blk s) as [p|]; [|exact Hok].
    destruct (setIv (Some blk) ctx) as [[[]|e] ctx'] eqn:E; cbn [snd];
      apply (setIv_iv_ok _ _ _ _ Hok E).
  - destruct (Iface.encryptBlock _ iv rk) as [s|]; [|exact Hok].
    destruct (setIv (Some s) ctx) as [[[]|e] ctx'] eqn:E; cbn [snd];
      pose proof (setIv_iv_ok _ _ _ _ Hok E) as Hok'; [|exact Hok'].
    destruct (xorBytes blk s); exact Hok'.
Qed.

End SessionInvariant.

(** X15.  The session's IV is always [null] or exactly 8 bytes long: a
    new context starts that way, and [setIv], [encrypt], [decrypt] and the
    other setters, whether they return or throw, leave a context in which
    it still holds. *)
Theorem iv_length_invariant {K : Type} (ctx : Session.Context K) (blk : list Z)
        (iv : option (list Z)) (m : CipherMode) (p : CipherPadding)
        (bc : Iface.IBlockCipher K) (ke : Iface.IKeyExpansion K) :
  iv_ok ctx ->
  iv_ok (Session.newContext K)
  /\ iv_ok (snd (Session.setIv iv ctx))
  /\ iv_ok (snd (Session.encrypt blk ctx))
  /\ iv_ok (snd (Session.decrypt blk ctx))
  /\ iv_ok (snd (Session.setMode m ctx)) /\ iv_ok (snd (Session.setPadding p ctx))
  /\ iv_ok (snd (Session.setBlockCipher bc ctx))
  /\ iv_ok (snd (Session.setKeyExpansion ke ctx)).
Proof.
  intros Hok. split; [exact I|]. split.
  - destruct (Session.setIv iv ctx) as [r ctx'] eqn:E. apply (setIv_iv_ok _ _ _ _ Hok E).
  - split; [apply encrypt_iv_ok, Hok|]. split; [apply decrypt_iv_ok, Hok|].
    repeat split; exact Hok.
Qed.

Lemma iv_length_invariant_witness :
  iv_ok (Session.newContext (list Z))
  /\ iv_ok (snd (Session.setIv (Some [1; 2; 3]) (Session.newContext (list Z))))
  /\ iv_ok (snd (Session.encrypt [1] (Session.newContext (list Z))))
  /\ iv_ok (snd (Session.decrypt [1] (Session.newContext (list Z))))
  /\ iv_ok (snd (Session.setMode CBC (Session.newContext (list Z))))
  /\ iv_ok (snd (Session.setPadding PKCS7 (Session.newContext (list Z))))
  /\ iv_ok (snd (Session.setBlockCipher (Iface.stub (list Z)) (Session.newContext (list Z))))
  /\ iv_ok (snd (Session.setKeyExpansion (Iface.noKeys (list Z)) (Session.newContext (list Z)))).
Proof.
  apply (iv_length_invariant (Session.newContext (list Z)) [1] (Some [1; 2; 3]) CBC PKCS7
           (Iface.stub (list Z)) (Iface.noKeys (list Z))).
  exact I.
Defined.

(** ** The session: calls that cannot return *)

Section CipherASession.
Import JS Bits Session.

Lemma twoFish_encryptBlock_16 ke x rk c :
  Iface.encryptBlock (TwoFish_FeistelBlockCipher ke) x rk = Ok c -> length c = 16%nat.
Proof.
  cbn [Iface.encryptBlock TwoFish_FeistelBlockCipher]. apply encryptBlock_length.
Qed.

Lemma setIv_16_throws {K} (ctx : Context K) v :
  length v = 16%nat -> setIv (Some v) ctx = (Throw InvalidIvLength, ctx).
Proof.
  intros Hl. rewrite setIv_Some. unfold len. rewrite Hl. reflexivity.
Qed.

End CipherASession.

(** X16.  A Cipher A session never returns a ciphertext in a chaining
    mode: under CBC, PCBC, CFB, OFB and CTR, [encrypt] throws for every
    input and every session state, because the engine returns 16-byte
    blocks and [setIv] accepts 8 bytes only (and CTR asks the engine for its
    block size).  Only ECB can return. *)
Theorem cipherA_chaining_modes_throw (ke : Iface.IKeyExpansion (list Z))
        (ctx : Session.Context (list Z)) (blk : list Z) :
  Session._blockCipher ctx = TwoFish_FeistelBlockCipher ke ->
  In (Session._mode ctx) [CBC; PCBC; CFB; OFB; CTR] ->
  exists e, fst (Session.encrypt blk ctx) = Throw e.
Proof.
  intros Hbc Hmode.
  unfold Session.encrypt, Session.bind, Session.this, Session.throw, Session.lift,
    Session.ret, Session.ctrBranch, Session.bind, Session.this, Session.throw, Session.lift.
  destruct (Iface.roundKeys_ (Session._keyExpansion ctx)) as [rk|]; [|eexists; reflexivity].
  destruct (JS.len blk =? 0); [eexists; reflexivity|].
  rewrite Hbc. cbn [In] in Hmode.
  destruct Hmode as [<-|[<-|[<-|[<-|[<-|[]]]]]];
    (destruct (Session._iv ctx) as [iv|]; [|eexists; reflexivity]).
  - destruct (Bits.xorBytes blk iv) as [x|]; [|eexists; reflexivity].
    destruct (Iface.encryptBlock _ x rk) as [c|] eqn:Ec; [|eexists; reflexivity].
    rewrite (setIv_16_throws ctx c (twoFish_encryptBlock_16 _ _ _ _ Ec)).
    eexists; reflexivity.
  - destruct (Bits.xorBytes blk iv) as [x|] eqn:Ex; [|eexists; reflexivity].
    destruct (Iface.encryptBlock _ x rk) as [c|] eqn:Ec; [|eexists; reflexivity].
    destruct (Bits.xorBytes blk c) as [n|] eqn:En; [|eexists; reflexivity].
    destruct (xorBytes_length _ _ _ En) as [Hn Hbc'].
    pose proof (twoFish_encryptBlock_16 _ _ _ _ Ec) as Hc.
    rewrite (setIv_16_throws ctx n) by lia. eexists; reflexivity.
  - destruct (Iface.encryptBlock _ iv rk) as [s|] eqn:Es; [|eexists; reflexivity].
    destruct (Bits.xorBytes blk s) as [c|] eqn:Ec; [|eexists; reflexivity].
    destruct (xorBytes_length _ _ _ Ec) as [Hc Hbs].
    pose proof (twoFish_encryptBlock_16 _ _ _ _ Es) as Hs.
    rewrite (setIv_16_throws ctx c) by lia. eexists; reflexivity.
  - destruct (Iface.encryptBlock _ iv rk) as [s|] eqn:Es; [|eexists; reflexivity].
    rewrite (setIv_16_throws ctx s (twoFish_encryptBlock_16 _ _ _ _ Es)).
    eexists; reflexivity.
  - cbv beta iota. rewrite Hbc.
    cbn [Iface.getBlockSizeBytes TwoFish_FeistelBlockCipher Iface.stub].
    eexists; reflexivity.
Qed.

Lemma cipherA_chaining_modes_throw_witness :
  exists e,
    fst (Session.encrypt [1; 2; 3; 4; 5; 6; 7; 8]
           {| Session._blockCipher := TwoFish_FeistelBlockCipher (Iface.noKeys (list Z));
              Session._keyExpansion := {| Iface.sBoxes_ := None; Iface.roundKeys_ := Some [] |};
              Session._mode := CBC; Session._padding := Zeros;
              Session._iv := Some [0; 0; 0; 0; 0; 0; 0; 0] |}) = Throw e.
Proof.
  apply (cipherA_chaining_modes_throw (Iface.noKeys (list Z))); [reflexivity|].
  left. reflexivity.
Defined.

(** X17.  With either engine installed, [decrypt] never returns and never
    changes the session: both engine classes declare [getBlockSizeBytes] as
    a static method only, so the call on the instance throws as soon as a
    key is set and the input is not empty; without a key or with empty
    input [decrypt] throws earlier. *)
Theorem decrypt_never_returns (ke : Iface.IKeyExpansion (list Z))
        (ctxA : Session.Context (list Z))
        (LOOKUP_MASKS : MacGuffin.MaskTable) (OUTPUT_MASKS stable_ : list Z)
        (ctxB : Session.Context MacGuffin.MacGuffinKey) (blk : list Z) :
  Session._blockCipher ctxA = TwoFish_FeistelBlockCipher ke ->
  Session._blockCipher ctxB = MacGuffin.FeistelBlockCipher LOOKUP_MASKS OUTPUT_MASKS stable_ ->
  (exists e, Session.decrypt blk ctxA = (Throw e, ctxA)
             /\ In e [RoundKeysNotSet; EmptyOrMisaligned; NotImplemented_getBlockSizeBytes])
  /\ (exists e, Session.decrypt blk ctxB = (Throw e, ctxB)
                /\ In e [RoundKeysNotSet; EmptyOrMisaligned; NotImplemented_getBlockSizeBytes]).
Proof.
  intros HA HB.
  split; unfold Session.decrypt, Session.bind, Session.this, Session.throw, Session.lift,
    Session.ret.
  - destruct (Iface.roundKeys_ (Session._keyExpansion ctxA)) as [rk|];
      [|eexists; split; [reflexivity|cbn; auto]].
    destruct (JS.len blk =? 0); [eexists; split; [reflexivity|cbn; auto]|].
    rewrite HA. eexists; split; [reflexivity|cbn; auto].
  - destruct (Iface.roundKeys_ (Session._keyExpansion ctxB)) as [rk|];
      [|eexists; split; [reflexivity|cbn; auto]].
    destruct (JS.len blk =? 0); [eexists; split; [reflexivity|cbn; auto]|].
    rewrite HB. eexists; split; [reflexivity|cbn; auto].
Qed.

Lemma decrypt_never_returns_witness :
  let ctxA := {| Session._blockCipher := TwoFish_FeistelBlockCipher (Iface.noKeys (list Z));
                 Session._keyExpansion := {| Iface.sBoxes_ := None; Iface.roundKeys_ := Some [] |};
                 Session._mode := ECB; Session._padding := Zeros; Session._iv := None |} in
  let ctxB := {| Session._blockCipher := MacGuffin.FeistelBlockCipher sampleMasks sampleOutputMasks sampleStable;
                 Session._keyExpansion :=
                   {| Iface.sBoxes_ := None;
                      Iface.roundKeys_ := Some sampleKey |};
                 Session._mode := ECB; Session._padding := Zeros; Session._iv := None |} in
  (exists e, Session.decrypt [1; 2; 3; 4; 5; 6; 7; 8] ctxA = (Throw e, ctxA)
             /\ In e [RoundKeysNotSet; EmptyOrMisaligned; NotImplemented_getBlockSizeBytes])
  /\ (exists e, Session.decrypt [1; 2; 3; 4; 5; 6; 7; 8] ctxB = (Throw e, ctxB)
                /\ In e [RoundKeysNotSet; EmptyOrMisaligned; NotImplemented_getBlockSizeBytes]).
Proof.
  intros ctxA ctxB.
  apply (decrypt_never_returns (Iface.noKeys (list Z)) ctxA sampleMasks sampleOutputMasks sampleStable ctxB); reflexivity.
Defined.

(** X18.  A throwing call is not rolled back.  In OFB mode over the
    MacGuffin engine, [encrypt] of a non-empty block that is not 8 bytes
    long throws the [xorBytes] length error, yet the session's IV has
    already moved on to the encryption of the old IV. *)
Theorem ofb_throw_keeps_advanced_iv (LOOKUP_MASKS : MacGuffin.MaskTable)
        (OUTPUT_MASKS stable_ : list Z) (ctx : Session.Context MacGuffin.MacGuffinKey)
        (rk : MacGuffin.MacGuffinKey) (iv blk : list Z) :
  Session._blockCipher ctx = MacGuffin.FeistelBlockCipher LOOKUP_MASKS OUTPUT_MASKS stable_ ->
  Iface.roundKeys_ (Session._keyExpansion ctx) = Some rk ->
  Session._mode ctx = OFB -> Session._iv ctx = Some iv ->
  JS.len blk <> 0 -> JS.len blk <> 8 ->
  Session.encrypt blk ctx =
    (Throw XorLengthMismatch,
     {| Session._blockCipher := Session._blockCipher ctx;
        Session._keyExpansion := Session._keyExpansion ctx;
        Session._mode := OFB; Session._padding := Session._padding ctx;
        Session._iv :=
          Some (MacGuffin.encryptBlock LOOKUP_MASKS OUTPUT_MASKS stable_ iv rk) |}).
Proof.
  intros Hbc Hrk Hmode Hiv H0 H8.
  unfold Session.encrypt, Session.bind, Session.this, Session.throw, Session.lift, Session.ret.
  rewrite Hrk. destruct (Z.eqb_spec (JS.len blk) 0) as [E|_]; [contradiction|].
  rewrite Hmode, Hiv. rewrite Hbc at 1.
  cbn [Iface.encryptBlock MacGuffin.FeistelBlockCipher].
  generalize (macGuffin_encryptBlock_length LOOKUP_MASKS OUTPUT_MASKS stable_ iv rk).
  generalize (MacGuffin.encryptBlock LOOKUP_MASKS OUTPUT_MASKS stable_ iv rk).
  intros s Hs. rewrite setIv_Some. unfold JS.len at 1. rewrite Hs.
  change (Z.of_nat 8 =? MacGuffin.BLOCK_SIZE_BYTES) with true. cbv iota.
  rewrite xorBytes_throws by (unfold JS.len in H8; lia). rewrite Hmode. reflexivity.
Qed.

Lemma ofb_throw_keeps_advanced_iv_witness :
  let ctx := {| Session._blockCipher := MacGuffin.FeistelBlockCipher sampleMasks sampleOutputMasks sampleStable;
                Session._keyExpansion :=
                  {| Iface.sBoxes_ := None;
                     Iface.roundKeys_ := Some sampleKey |};
                Session._mode := OFB; Session._padding := Zeros;
                Session._iv := Some [1; 2; 3; 4; 5; 6; 7; 8] |} in
  Session.encrypt [1; 2; 3] ctx =
    (Throw XorLengthMismatch,
     {| Session._blockCipher := Session._blockCipher ctx;
        Session._keyExpansion := Session._keyExpansion ctx;
        Session._mode := OFB; Session._padding := Session._padding ctx;
        Session._iv :=
          Some (MacGuffin.encryptBlock sampleMasks sampleOutputMasks sampleStable [1; 2; 3; 4; 5; 6; 7; 8]
                  sampleKey) |}).
Proof.
  intros ctx.
  apply (ofb_throw_keeps_advanced_iv sampleMasks sampleOutputMasks sampleStable ctx sampleKey
           [1; 2; 3; 4; 5; 6; 7; 8] [1; 2; 3]);
    try reflexivity; vm_compute; discriminate.
Defined.

(** ** The session: the chaining modes over a conforming engine *)

Section ModeRoundTrip.
Import JS Bits Session.
Context {K : Type}.
Variable bc : Iface.IBlockCipher K.
Variable ke : Iface.IKeyExpansion K.
Variable rk : K.
Hypothesis Hrk : Iface.roundKeys_ ke = Some rk.
Hypothesis Hbs : Iface.getBlockSizeBytes bc = Ok 8.
Hypothesis Hengine : forall blk, bytes blk -> length blk = 8%nat ->
  exists c, Iface.encryptBlock bc blk rk = Ok c /\ bytes c /\ length c = 8%nat
            /\ Iface.decryptBlock bc c rk = Ok blk.

Lemma setIv_8 (ctx : Context K) v :
  length v = 8%nat ->
  setIv (Some v) ctx =
    (Ok tt, {| _blockCipher := _blockCipher ctx; _keyExpansion := _keyExpansion ctx;
               _mode := _mode ctx; _padding := _padding ctx; _iv := Some v |}).
Proof. intros Hl. rewrite setIv_Some. unfold len. rewrite Hl. reflexivity. Qed.

Lemma xorBytes_8 a b :
  bytes a -> length a = 8%nat -> length b = 8%nat ->
  exists c, xorBytes a b = Ok c /\ bytes c /\ length c = 8%nat /\ xorBytes c b = Ok a.
Proof.
  intros Ha Hla Hlb. pose proof (xorBytes_eq a b ltac:(lia)) as Hc.
  eexists. split; [exact Hc|]. split; [apply (xorBytes_bytes _ _ _ Hc)|].
  split; [destruct (xorBytes_length _ _ _ Hc); lia|apply (xorBytes_cancel _ _ _ Ha Hc)].
Qed.

Lemma mode_round_trip m p iv blk :
  In m [ECB; CBC; PCBC; CFB; OFB] ->
  bytes iv -> length iv = 8%nat -> bytes blk -> length blk = 8%nat ->
  let ctx := {| _blockCipher := bc; _keyExpansion := ke; _mode := m; _padding := p;
                _iv := Some iv |} in
  exists c ctx1 ctx2,
    encrypt blk ctx = (Ok (Some c), ctx1)
    /\ decrypt c ctx = (Ok (Some blk), ctx2)
    /\ ctx2 = ctx1 /\ length c = 8%nat.
Proof.
  intros Hm Hiv Hliv Hblk Hlblk ctx. subst ctx.
  assert (Hne : forall c : list Z, length c = 8%nat -> (len c =? 0) = false)
    by (intros c Hc; unfold len; rewrite Hc; reflexivity).
  assert (Hal : forall c : list Z, length c = 8%nat -> negb (rem (len c) 8 =? 0) = false)
    by (intros c Hc; unfold len; rewrite Hc; reflexivity).
  unfold encrypt, decrypt, bind, this, throw, lift, ret.
  cbn [_blockCipher _keyExpansion _mode _padding _iv]. rewrite Hrk, Hbs.
  rewrite (Hne blk Hlblk). cbn [In] in Hm.
  destruct Hm as [<-|[<-|[<-|[<-|[<-|[]]]]]].
  - destruct (Hengine blk Hblk Hlblk) as (c & Ec & Hc & Hlc & Dc).
    rewrite Ec. exists c. do 2 eexists. split; [reflexivity|].
    rewrite (Hne c Hlc), (Hal c Hlc), Dc.
    split; [reflexivity|split; [reflexivity|exact Hlc]].
  - destruct (xorBytes_8 blk iv Hblk Hlblk Hliv) as (x & Ex & Hx & Hlx & Ex').
    destruct (Hengine x Hx Hlx) as (c & Ec & Hc & Hlc & Dc).
    rewrite Ex, Ec, (setIv_8 _ c Hlc). exists c. do 2 eexists. split; [reflexivity|].
    rewrite (Hne c Hlc), (Hal c Hlc), Dc, Ex', (setIv_8 _ c Hlc).
    split; [reflexivity|split; [reflexivity|exact Hlc]].
  - destruct (xorBytes_8 blk iv Hblk Hlblk Hliv) as (x & Ex & Hx & Hlx & Ex').
    destruct (Hengine x Hx Hlx) as (c & Ec & Hc & Hlc & Dc).
    destruct (xorBytes_8 blk c Hblk Hlblk Hlc) as (n & En & Hn & Hln & _).
    rewrite Ex, Ec, En, (setIv_8 _ n Hln). exists c. do 2 eexists. split; [reflexivity|].
    rewrite (Hne c Hlc), (Hal c Hlc), Dc, Ex', En, (setIv_8 _ n Hln).
    split; [reflexivity|split; [reflexivity|exact Hlc]].
  - destruct (Hengine iv Hiv Hliv) as (s & Es & Hs & Hls & _).
    destruct (xorBytes_8 blk s Hblk Hlblk Hls) as (c & Ec & Hc & Hlc & Ec').
    rewrite Es, Ec, (setIv_8 _ c Hlc). exists c. do 2 eexists. split; [reflexivity|].
    rewrite (Hne c Hlc), (Hal c Hlc), Ec', (setIv_8 _ c Hlc).
    split; [reflexivity|split; [reflexivity|exact Hlc]].
  - destruct (Hengine iv Hiv Hliv) as (s & Es & Hs & Hls & _).
    destruct (xorBytes_8 blk s Hblk Hlblk Hls) as (c & Ec & Hc & Hlc & Ec').
    rewrite Es, (setIv_8 _ s Hls), Ec. exists c. do 2 eexists. split; [reflexivity|].
    rewrite (Hne c Hlc), (Hal c Hlc), (setIv_8 _ s Hls), Ec'.
    split; [reflexivity|split; [reflexivity|exact Hlc]].
Qed.

End ModeRoundTrip.

(** X19.  The chaining logic itself is sound.  For any engine object whose
    [getBlockSizeBytes] returns 8 and whose [decryptBlock] inverts
    [encryptBlock] on 8-byte blocks, under ECB, CBC, PCBC, CFB and OFB:
    [decrypt], started from the same IV, maps the block that [encrypt]
    returns back to the plaintext block, and both calls leave the session
    with the same next IV, so the two sides stay in step. *)
Theorem chaining_modes_round_trip {K : Type} (bc : Iface.IBlockCipher K)
        (ke : Iface.IKeyExpansion K) (rk : K) (m : CipherMode) (p : CipherPadding)
        (iv blk : list Z) :
  Iface.roundKeys_ ke = Some rk ->
  Iface.getBlockSizeBytes bc = Ok 8 ->
  (forall b, bytes b -> length b = 8%nat ->
     exists c, Iface.encryptBlock bc b rk = Ok c /\ bytes c /\ length c = 8%nat
               /\ Iface.decryptBlock bc c rk = Ok b) ->
  In m [ECB; CBC; PCBC; CFB; OFB] ->
  bytes iv -> length iv = 8%nat -> bytes blk -> length blk = 8%nat ->
  let ctx := {| Session._blockCipher := bc; Session._keyExpansion := ke;
                Session._mode := m; Session._padding := p; Session._iv := Some iv |} in
  exists c ctx1 ctx2,
    Session.encrypt blk ctx = (Ok (Some c), ctx1)
    /\ Session.decrypt c ctx = (Ok (Some blk), ctx2)
    /\ ctx2 = ctx1 /\ length c = 8%nat.
Proof.
  intros Hrk Hbs Hengine Hm Hiv Hliv Hblk Hlblk ctx.
  apply (mode_round_trip bc ke rk Hrk Hbs Hengine m p iv blk Hm Hiv Hliv Hblk Hlblk).
Qed.

Lemma chaining_modes_round_trip_witness :
  let bc := {| Iface.getBlockSizeBytes := Ok 8;
               Iface.encryptBlock := fun blk key =>
                 Ok (MacGuffin.encryptBlock sampleMasks sampleOutputMasks sampleStable blk key);
               Iface.decryptBlock := fun blk key =>
                 Ok (MacGuffin.decryptBlock sampleMasks sampleOutputMasks sampleStable blk key) |} in
  let ke := {| Iface.sBoxes_ := None; Iface.roundKeys_ := Some sampleKey |} in
  let ctx := {| Session._blockCipher := bc; Session._keyExpansion := ke;
                Session._mode := PCBC; Session._padding := Zeros;
                Session._iv := Some [8; 7; 6; 5; 4; 3; 2; 1] |} in
  exists c ctx1 ctx2,
    Session.encrypt [1; 2; 3; 4; 5; 6; 7; 8] ctx = (Ok (Some c), ctx1)
    /\ Session.decrypt c ctx = (Ok (Some [1; 2; 3; 4; 5; 6; 7; 8]), ctx2)
    /\ ctx2 = ctx1 /\ length c = 8%nat.
Proof.
  intros bc ke ctx.
  apply (chaining_modes_round_trip bc ke sampleKey PCBC Zeros
           [8; 7; 6; 5; 4; 3; 2; 1] [1; 2; 3; 4; 5; 6; 7; 8]).
  - reflexivity.
  - reflexivity.
  - intros b Hb Hl. eexists. split; [reflexivity|].
    split; [apply store_bytes|]. split; [apply macGuffin_encryptBlock_length|].
    cbn [Iface.decryptBlock bc]. f_equal.
    apply MacGuffin_decryptBlock_encryptBlock;
      [exact sampleStable_uint16|assumption|assumption].
  - right. right. left. reflexivity.
  - repeat constructor; lia.
  - reflexivity.
  - repeat constructor; lia.
  - reflexivity.
Defined.

(** ** The session: the counter block of the CTR branch *)

Section CounterArithmetic.
Import JS Session.

Lemma bigEndian_from l acc :
  fold_left (fun acc b => acc * 256 + b) l acc = acc * 256 ^ len l + bigEndian l.
Proof.
  unfold bigEndian, len. revert acc. induction l as [|b l IH]; intros acc.
  - cbn [length fold_left]. change (256 ^ Z.of_nat 0) with 1. lia.
  - cbn [fold_left length]. rewrite (IH (acc * 256 + b)), (IH (0 * 256 + b)).
    rewrite Nat2Z.inj_succ, Z.pow_succ_r by lia. ring.
Qed.

Lemma bigEndian_app l1 l2 :
  bigEndian (l1 ++ l2) = bigEndian l1 * 256 ^ len l2 + bigEndian l2.
Proof. unfold bigEndian at 1. rewrite fold_left_app. apply bigEndian_from. Qed.

Lemma bigEndian_zeros n : bigEndian (replicate n 0) = 0.
Proof.
  unfold bigEndian. induction n as [|n IH]; [reflexivity|].
  rewrite replicate_S_end, fold_left_app, IH. reflexivity.
Qed.

Lemma bigEndian_range l : bytes l -> 0 <= bigEndian l < 256 ^ len l.
Proof.
  unfold len. induction l as [|b l IH] using rev_ind; intros Hb.
  - cbn. lia.
  - unfold bytes in Hb. apply Forall_app in Hb. destruct Hb as [Hl Hb].
    inversion_clear Hb as [|? ? Hb0 _]. specialize (IH Hl).
    rewrite bigEndian_app. unfold len. rewrite length_app. cbn [length].
    change (bigEndian [b]) with (0 * 256 + b).
    rewrite Nat2Z.inj_add, Z.pow_add_r by lia. change (256 ^ Z.of_nat 1) with 256. nia.
Qed.

Lemma low_byte sum : 0 <= sum < 2^31 -> ToUint8 (sum .& 0xFF) = sum mod 256.
Proof.
  intros Hs. apply Z.bits_inj'. intros n Hn.
  rewrite ToUint8_testbit, band_255_testbit by lia.
  change 256 with (2 ^ 8). rewrite Z.testbit_mod_pow2 by lia.
  destruct (n <? 8); reflexivity.
Qed.

Lemma high_part sum : 0 <= sum < 2^31 -> sum >> 8 = sum / 256.
Proof.
  intros Hs. unfold sar. change (8 mod 32) with 8.
  rewrite ToInt32_id by (unfold int32; lia). apply Z.shiftr_div_pow2. lia.
Qed.

Lemma shift_mod a s m :
  0 <= s < 256 -> 0 < m -> (256 * a + s) mod (256 * m) = 256 * (a mod m) + s.
Proof.
  intros Hs Hm. pose proof (Z.mod_pos_bound a m Hm) as Ha.
  symmetry. apply (Z.mod_unique_pos _ _ (a / m)); [nia|].
  rewrite (Z.div_mod a m) at 1 by lia. ring.
Qed.

(** The carry loop adds [carry] to the number that the last [n] bytes of
    the counter block spell, modulo [256 ^ n], as long as every sum stays
    below 2^31. *)
Lemma addCarry_adds (n : nat) : forall counterBlock carry,
  (n <= length counterBlock)%nat -> bytes counterBlock -> 0 <= carry < 2^31 - 255 ->
  let r := addCarry n counterBlock carry in
  length r = length counterBlock /\ bytes r /\ drop n r = drop n counterBlock
  /\ bigEndian (take n r) = (bigEndian (take n counterBlock) + carry) mod 256 ^ Z.of_nat n.
Proof.
  induction n as [|k IH]; intros cb carry Hn Hb Hc; cbv zeta.
  - cbn [addCarry]. rewrite !take_0. change (256 ^ Z.of_nat 0) with 1.
    rewrite Z.mod_1_r. repeat split; auto.
  - cbn [addCarry]. destruct (Z.gtb_spec carry 0) as [Hpos|Hzero].
    + cbv zeta.
      destruct (lookup_lt_is_Some_2 cb k ltac:(lia)) as [b Hk].
      assert (Hbk : 0 <= b < 256)
        by (unfold bytes in Hb; rewrite Forall_lookup in Hb; exact (Hb _ _ Hk)).
      assert (Hget : cb.[Z.of_nat k] = b) by (unfold get; rewrite idx_of_nat, Hk; reflexivity).
      rewrite Hget. set (sum := b + carry).
      assert (Hsum : 0 <= sum < 2^31) by (subst sum; lia).
      rewrite low_byte, high_part by exact Hsum.
      rewrite <- (Z.add_0_l (Z.of_nat k)), set_of_nat.
      assert (Hq : 0 <= sum / 256 < 2^31 - 255).
      { split; [apply Z.div_pos; lia|].
        apply Z.div_lt_upper_bound; [lia|]. subst sum. lia. }
      assert (Hs : 0 <= sum mod 256 < 256) by (apply Z.mod_pos_bound; lia).
      destruct (IH (<[k := sum mod 256]> cb) (sum / 256)) as (Hl & Hbr & Hdrop & Hval);
        [rewrite length_insert; lia|apply Forall_insert; assumption|exact Hq|].
      set (r := addCarry k (<[k := sum mod 256]> cb) (sum / 256)) in *.
      rewrite length_insert in Hl. rewrite take_insert_ge in Hval by lia.
      assert (Hrk : r !! k = Some (sum mod 256)).
      { rewrite <- (Nat.add_0_r k), <- lookup_drop, Hdrop, lookup_drop, Nat.add_0_r.
        apply list_lookup_insert_eq. lia. }
      split; [exact Hl|]. split; [exact Hbr|]. split.
      * replace (S k) with (k + 1)%nat by lia.
        rewrite <- !drop_drop, Hdrop, !drop_drop. apply drop_insert_lt. lia.
      * rewrite (take_S_r r k _ Hrk), (take_S_r cb k _ Hk), !bigEndian_app.
        change (len [sum mod 256]) with 1. change (len [b]) with 1.
        change (bigEndian [sum mod 256]) with (0 * 256 + sum mod 256).
        change (bigEndian [b]) with (0 * 256 + b). rewrite Hval.
        rewrite Nat2Z.inj_succ, Z.pow_succ_r by lia. change (256 ^ 1) with 256.
        assert (Hm : 0 < 256 ^ Z.of_nat k) by (apply Z.pow_pos_nonneg; lia).
        generalize dependent (bigEndian (take k cb)). intros X Hval.
        transitivity (256 * ((X + sum / 256) mod 256 ^ Z.of_nat k) + sum mod 256); [ring|].
        rewrite <- shift_mod by (exact Hs || exact Hm).
        f_equal. pose proof (Z.div_mod sum 256 ltac:(lia)). subst sum. lia.
    + assert (carry = 0) by lia. subst carry. rewrite Z.add_0_r.
      split; [reflexivity|]. split; [exact Hb|]. split; [reflexivity|].
      symmetry. apply Z.mod_small.
      assert (Hbt : bytes (take (S k) cb)) by (apply Forall_take; exact Hb).
      pose proof (bigEndian_range _ Hbt) as Hr. unfold len in Hr.
      rewrite length_take, Nat.min_l in Hr by lia. exact Hr.
Qed.

End CounterArithmetic.

(** X20.  The counter block of the CTR branch is a sum.  The IV is laid at
    the left of a block of [blockSize] zero bytes, and the number read from
    the first four bytes of the data is added at the right end: the block
    handed to the engine spells, as a big-endian number,
    [IV * 256^(blockSize - length IV) + number] modulo [256^blockSize].  This
    holds while the number is below 2^31 - 255; above, [sum >> 8] turns
    negative and the carry is lost. *)
Theorem ctr_counter_block_is_sum (blockSize : Z) (iv currentBlock : list Z) (number : Z) :
  bytes iv -> JS.len iv <= blockSize ->
  Session.getUint32 currentBlock = Ok number -> 0 <= number < 2^31 - 255 ->
  exists counterBlock,
    Session.ctrCounterBlock blockSize iv currentBlock = Ok counterBlock
    /\ JS.len counterBlock = blockSize /\ bytes counterBlock
    /\ bigEndian counterBlock =
         (bigEndian iv * 256 ^ (blockSize - JS.len iv) + number) mod 256 ^ blockSize.
Proof.
  intros Hiv Hlen Hnum Hrange. unfold Session.ctrCounterBlock, Session.newCounterBlock.
  assert (Hl : 0 <= JS.len iv) by (unfold JS.len; lia).
  destruct (Z.ltb_spec blockSize 0); [lia|].
  destruct (Z.gtb_spec (JS.len iv) blockSize); [lia|]. cbn [rbind]. rewrite Hnum. cbn [rbind].
  set (cb := iv ++ replicate (Z.to_nat (blockSize - JS.len iv)) 0).
  assert (Hcl : length cb = Z.to_nat blockSize)
    by (subst cb; rewrite length_app, length_replicate; unfold JS.len in *; lia).
  assert (Hcb : bytes cb).
  { subst cb. unfold bytes. apply Forall_app. split; [exact Hiv|].
    apply Forall_replicate. lia. }
  destruct (addCarry_adds (length cb) cb number ltac:(lia) Hcb Hrange)
    as (Hrl & Hrb & _ & Hval).
  eexists. split; [reflexivity|]. split; [unfold JS.len; lia|]. split; [exact Hrb|].
  rewrite <- Hrl in Hval at 1. rewrite !firstn_all in Hval. rewrite Hval.
  rewrite Hcl, Z2Nat.id by lia. f_equal. subst cb.
  rewrite bigEndian_app, bigEndian_zeros. unfold JS.len at 1.
  rewrite length_replicate, Z2Nat.id by lia. lia.
Qed.

Lemma ctr_counter_block_is_sum_witness :
  exists counterBlock,
    Session.ctrCounterBlock 8 [0; 0; 0; 0; 0; 1; 255; 255]
      ([0; 1; 0; 1] ++ replicate 36 170) = Ok counterBlock
    /\ JS.len counterBlock = 8 /\ bytes counterBlock
    /\ bigEndian counterBlock =
         (bigEndian [0; 0; 0; 0; 0; 1; 255; 255] * 256 ^ (8 - JS.len [0; 0; 0; 0; 0; 1; 255; 255])
          + 65537) mod 256 ^ 8.
Proof.
  apply (ctr_counter_block_is_sum 8 [0; 0; 0; 0; 0; 1; 255; 255]
           ([0; 1; 0; 1] ++ replicate 36 170) 65537).
  - repeat constructor; lia.
  - vm_compute. discriminate.
  - reflexivity.
  - lia.
Defined.

(** ** The session: [setMasterKey] *)

(** X21.  [setMasterKey] is all or nothing.  A key of 16, 24 or 32 bytes
    installs a new engine and key expansion built from that key and keeps
    the mode, the padding and the IV of the session; any other length throws
    and leaves every field, an earlier key included, as it was. *)
Theorem setMasterKey_all_or_nothing (masterKey : list Z) (ctx : Session.Context (list Z)) :
  (In (JS.len masterKey) TwoFish.MASTER_KEY_SIZE_BYTES ->
   exists ke rk sb,
     TwoFish.newKeyExpansion masterKey = Ok ke
     /\ Iface.roundKeys_ (TwoFish.base ke) = Some rk
     /\ Iface.sBoxes_ (TwoFish.base ke) = Some sb
     /\ Session.setMasterKey masterKey ctx =
          (Ok tt, {| Session._blockCipher := TwoFish_FeistelBlockCipher (TwoFish.base ke);
                     Session._keyExpansion := TwoFish.base ke;
                     Session._mode := Session._mode ctx;
                     Session._padding := Session._padding ctx;
                     Session._iv := Session._iv ctx |}))
  /\ (~ In (JS.len masterKey) TwoFish.MASTER_KEY_SIZE_BYTES ->
      Session.setMasterKey masterKey ctx = (Throw InvalidKeyLength, ctx)).
Proof.
  split.
  - intros Hlen. destruct (twoFish_newKeyExpansion_Ok masterKey Hlen) as (ke & rk & sb & Hke & Hrk & Hsb).
    exists ke, rk, sb. split; [exact Hke|]. split; [exact Hrk|]. split; [exact Hsb|].
    unfold Session.setMasterKey.
    assert (Hex : existsb (fun length => length =? JS.len masterKey)
                          TwoFish.MASTER_KEY_SIZE_BYTES = true).
    { apply existsb_exists. exists (JS.len masterKey). split; [exact Hlen|apply Z.eqb_refl]. }
    rewrite Hex. cbn [negb]. unfold Session.bind, Session.lift. rewrite Hke. reflexivity.
  - intros Hlen. unfold Session.setMasterKey.
    assert (Hex : existsb (fun length => length =? JS.len masterKey)
                          TwoFish.MASTER_KEY_SIZE_BYTES = false).
    { destruct (existsb _ _) eqn:E; [|reflexivity]. exfalso. apply Hlen.
      apply existsb_exists in E. destruct E as (x & Hin & Hx).
      apply Z.eqb_eq in Hx. subst x. exact Hin. }
    rewrite Hex. reflexivity.
Qed.

(** ** Padding: the remaining schemes and the shape of the padded buffer *)

Section MorePadding.
Import JS Session.
Variable random : Z -> Z.

Lemma leadingZeros_replicate n l :
  leadingZeros (replicate n 0 ++ l) = Z.of_nat n + leadingZeros l.
Proof.
  induction n as [|n IH]; [cbn [replicate app]; lia|].
  cbn [replicate app leadingZeros]. rewrite IH. lia.
Qed.

Lemma leadingZeros_range l : 0 <= leadingZeros l <= len l.
Proof.
  unfold len. induction l as [|x l IH]; [cbn; lia|].
  cbn [leadingZeros length]. destruct x; lia.
Qed.

Lemma addPadding_length blockSize padding data padded :
  0 < blockSize ->
  _addPadding (Ok blockSize) random padding data = Ok padded ->
  len padded = (len data / blockSize + 1) * blockSize.
Proof.
  intros Hbs. unfold _addPadding. cbn [rbind].
  assert (Hn : 0 <= len data) by (unfold len; lia).
  destruct (padding_length_range blockSize (len data) Hbs Hn) as (Hp & Hp0 & _).
  cbv zeta in Hp, Hp0. rewrite Hp0.
  assert (Hlen : len (data ++ replicate (Z.to_nat (blockSize - rem (len data) blockSize)) 0)
                 = (len data / blockSize + 1) * blockSize).
  { unfold len. rewrite length_app, length_replicate. unfold len, rem in *.
    rewrite Z.rem_mod_nonneg in * by lia.
    Z.to_euclidean_division_equations; nia. }
  destruct padding; intros H; try (exfalso; revert H; apply Throw_ne_Ok);
    apply Ok_inj in H; subst padded; unfold len, fill, set in *;
    repeat match goal with |- context [if ?c then _ else _] => destruct c end;
    rewrite ?length_insert, ?length_imap; exact Hlen.
Qed.

End MorePadding.

Section PadShapes.
Import JS Session.
Variable random : Z -> Z.

(** The bytes that [_addPadding] appends under each scheme, for a padding
    length [p]. *)
Lemma addPadding_iso blockSize data :
  0 < blockSize ->
  let p := blockSize - rem (len data) blockSize in
  _addPadding (Ok blockSize) random ISO10126 data =
    Ok (data ++ map (fun i => ToUint8 (random (len data + i))) (range 0 (Z.to_nat p - 1))
             ++ [ToUint8 p]).
Proof.
  intros Hbs p. unfold _addPadding. cbn [rbind].
  assert (Hn : 0 <= len data) by (unfold len; lia).
  destruct (padding_length_range blockSize (len data) Hbs Hn) as (Hp & Hp0 & _).
  cbv zeta in Hp, Hp0. rewrite Hp0. fold p in Hp |- *.
  assert (Hlen : len (data ++ replicate (Z.to_nat p) 0) = len data + p)
    by (unfold len; rewrite length_app, length_replicate; lia).
  assert (Hli : forall f : nat -> Z -> Z, len (imap f (data ++ replicate (Z.to_nat p) 0)) = len data + p)
    by (intros f; unfold len in *; rewrite length_imap; exact Hlen).
  rewrite Hli, Hlen. f_equal.
  rewrite set_nat by lia. apply list_eq. intros i. unfold len in *.
  destruct (Nat.eq_dec i (length data + (Z.to_nat p - 1))%nat) as [->|Hne].
  - replace (Z.to_nat (Z.of_nat (length data) + p - 1))
      with (length data + (Z.to_nat p - 1))%nat by lia.
    rewrite list_lookup_insert_eq
      by (rewrite length_imap, length_app, length_replicate; lia).
    rewrite lookup_app_r by lia.
    rewrite lookup_app_r by (rewrite length_map, length_range; lia).
    rewrite length_map, length_range.
    replace (length data + (Z.to_nat p - 1) - length data - (Z.to_nat p - 1))%nat
      with 0%nat by lia.
    reflexivity.
  - rewrite list_lookup_insert_ne by lia. rewrite list_lookup_imap.
    destruct (Nat.lt_ge_cases i (length data)) as [Hi|Hi].
    + rewrite !lookup_app_l by lia.
      destruct (data !! i) as [x|]; [cbn|reflexivity].
      replace (Z.of_nat (length data) <=? Z.of_nat i) with false by lia. reflexivity.
    + rewrite !lookup_app_r by lia.
      destruct (Nat.lt_ge_cases (i - length data)%nat (Z.to_nat p - 1)%nat) as [Hj|Hj].
      * rewrite lookup_replicate_2 by lia.
        rewrite lookup_app_l by (rewrite length_map, length_range; lia).
        rewrite list_lookup_fmap, lookup_range by lia. cbn.
        replace (Z.of_nat (length data) <=? Z.of_nat i) with true by lia.
        replace (Z.of_nat i <? Z.of_nat (length data) + p - 1) with true by lia.
        cbn [andb]. do 3 f_equal. lia.
      * rewrite (lookup_ge_None_2 (replicate _ _)) by (rewrite length_replicate; lia).
        rewrite lookup_app_r by (rewrite length_map, length_range; lia).
        rewrite length_map, length_range. cbn.
        destruct (i - length data - (Z.to_nat p - 1))%nat as [|k] eqn:Ek; [lia|].
        reflexivity.
Qed.

End PadShapes.

Section PadTheorems.
Import JS Session.
Variable random : Z -> Z.

Lemma lookup_fill_before (l : list Z) v s e (i : nat) :
  Z.of_nat i < s -> fill l v s e !! i = l !! i.
Proof.
  intros Hi. unfold fill. rewrite list_lookup_imap.
  destruct (l !! i) as [x|]; [cbn|reflexivity].
  replace (s <=? Z.of_nat i) with false by lia. reflexivity.
Qed.

Lemma lookup_set_other (l : list Z) q v (i : nat) :
  Z.of_nat i <> q -> set l q v !! i = l !! i.
Proof.
  intros Hi. unfold set. destruct (Z.ltb_spec q 0); [reflexivity|].
  apply list_lookup_insert_ne. lia.
Qed.

(** [_addPadding] leaves the data where they are. *)
Lemma addPadding_prefix blockSize padding data padded :
  0 < blockSize ->
  _addPadding (Ok blockSize) random padding data = Ok padded ->
  take (length data) padded = data.
Proof.
  intros Hbs Hadd.
  pose proof (addPadding_length random blockSize padding data padded Hbs Hadd) as Hpl.
  revert Hadd. unfold _addPadding. cbn [rbind].
  assert (Hn : 0 <= len data) by (unfold len; lia).
  destruct (padding_length_range blockSize (len data) Hbs Hn) as (Hp & Hp0 & _).
  cbv zeta in Hp, Hp0. rewrite Hp0.
  set (p := blockSize - rem (len data) blockSize) in *.
  assert (Hlen : len (data ++ replicate (Z.to_nat p) 0) = len data + p)
    by (unfold len; rewrite length_app, length_replicate; lia).
  assert (Hfl : forall v s e, len (fill (data ++ replicate (Z.to_nat p) 0) v s e) = len data + p)
    by (intros; unfold fill, len in *; rewrite length_imap; exact Hlen).
  assert (Hli : forall f : nat -> Z -> Z,
            len (imap f (data ++ replicate (Z.to_nat p) 0)) = len data + p)
    by (intros f; unfold len in *; rewrite length_imap; exact Hlen).
  intros H.
  assert (Hlook : forall i : nat, (i < length data)%nat -> padded !! i = data !! i).
  { intros i Hi. unfold len in *.
    destruct padding; try (exfalso; revert H; apply Throw_ne_Ok);
      apply Ok_inj in H; subst padded.
    - apply lookup_app_l. exact Hi.
    - rewrite Hfl, lookup_set_other, lookup_fill_before by lia. apply lookup_app_l. exact Hi.
    - rewrite lookup_fill_before by lia. apply lookup_app_l. exact Hi.
    - rewrite Hli, lookup_set_other by lia. rewrite list_lookup_imap.
      rewrite lookup_app_l by exact Hi. destruct (data !! i) as [x|]; [cbn|reflexivity].
      replace (Z.of_nat (length data) <=? Z.of_nat i) with false by lia. reflexivity. }
  assert (Hge : len data <= len padded).
  { rewrite Hpl. unfold len. Z.to_euclidean_division_equations; nia. }
  apply list_eq. intros i. destruct (Nat.lt_ge_cases i (length data)) as [Hi|Hi].
  - rewrite lookup_take_lt by exact Hi. apply Hlook, Hi.
  - rewrite lookup_take_ge by exact Hi. symmetry. apply lookup_ge_None_2. exact Hi.
Qed.

Lemma rev_replicate {A} n (x : A) : rev (replicate n x) = replicate n x.
Proof.
  induction n as [|n IH]; [reflexivity|].
  cbn [replicate rev]. rewrite IH. symmetry. apply replicate_S_end.
Qed.

Lemma zeros_round_trip blockSize data :
  0 < blockSize ->
  let p := blockSize - rem (len data) blockSize in
  _addPadding (Ok blockSize) random Zeros data = Ok (data ++ replicate (Z.to_nat p) 0)
  /\ _removePadding (Ok blockSize) Zeros (data ++ replicate (Z.to_nat p) 0) =
       Ok (take (length data - Z.to_nat (trailingZeros data)) data).
Proof.
  intros Hbs p.
  assert (Hn : 0 <= len data) by (unfold len; lia).
  destruct (padding_length_range blockSize (len data) Hbs Hn) as (Hp & Hp0 & Hal).
  cbv zeta in Hp, Hp0, Hal. fold p in Hp, Hal.
  split; [unfold _addPadding; cbn [rbind]; rewrite Hp0; reflexivity|].
  unfold _removePadding. cbn [rbind].
  assert (Hlen : len (data ++ replicate (Z.to_nat p) 0) = len data + p)
    by (unfold len; rewrite length_app, length_replicate; lia).
  rewrite Hlen. unfold rem. rewrite Z.rem_mod_nonneg, Hal by lia. cbn [Z.eqb negb].
  cbn [declaredPadding rbind]. unfold trailingZeros.
  rewrite rev_app_distr, rev_replicate, leadingZeros_replicate.
  pose proof (leadingZeros_range (rev data)) as Hz. unfold len in Hz.
  rewrite length_rev in Hz.
  destruct (Z.ltb_spec (len data + p) (Z.of_nat (Z.to_nat p) + leadingZeros (rev data)));
    [unfold len in *; lia|].
  f_equal. unfold slice. change (Z.to_nat 0) with 0%nat. rewrite drop_0.
  replace (Z.to_nat (len data + p - (Z.of_nat (Z.to_nat p) + leadingZeros (rev data)) - 0))
    with (length data - Z.to_nat (leadingZeros (rev data)))%nat by (unfold len; lia).
  apply take_app_le. lia.
Qed.

(** X22.  ISO10126 padding round-trips whatever the random bytes are: for
    a block size below 256, [_removePadding] of [_addPadding data] is
    [data]. *)
Theorem iso10126_padding_round_trip (blockSize : Z) (data : list Z) :
  0 < blockSize < 256 ->
  exists padded,
    _addPadding (Ok blockSize) random ISO10126 data = Ok padded
    /\ _removePadding (Ok blockSize) ISO10126 padded = Ok data.
Proof.
  intros Hbs. eexists. split; [apply addPadding_iso; lia|]. cbv zeta.
  assert (Hn : 0 <= len data) by (unfold len; lia).
  destruct (padding_length_range blockSize (len data) ltac:(lia) Hn) as (Hp & Hp0 & Hal).
  cbv zeta in Hp, Hp0, Hal.
  set (p := blockSize - rem (len data) blockSize) in *.
  set (rnd := map (fun i => ToUint8 (random (len data + i))) (range 0 (Z.to_nat p - 1))).
  assert (Hlr : length rnd = (Z.to_nat p - 1)%nat)
    by (subst rnd; rewrite length_map, length_range; reflexivity).
  rewrite (ToUint8_id p) by lia.
  unfold _removePadding. cbn [rbind].
  assert (Hlen : len (data ++ rnd ++ [p]) = len data + p)
    by (unfold len; rewrite !length_app, Hlr; cbn [length]; lia).
  rewrite Hlen. unfold rem. rewrite Z.rem_mod_nonneg, Hal by lia. cbn [Z.eqb negb].
  assert (Hlast : idx (data ++ rnd ++ [p]) (len data + p - 1) = Some p).
  { replace (len data + p - 1) with (len data + Z.of_nat (Z.to_nat p - 1)) by lia.
    rewrite idx_app_pad. rewrite lookup_app_r by lia. rewrite Hlr, Nat.sub_diag.
    reflexivity. }
  assert (Hrange : (p >? blockSize) || (p =? 0) = false).
  { rewrite Z.gtb_ltb. apply orb_false_intro; [apply Z.ltb_ge|apply Z.eqb_neq]; lia. }
  unfold declaredPadding. rewrite Hlen, Hlast, Hrange. cbn [rbind].
  replace (len data + p <? p) with false by lia.
  f_equal. unfold slice. change (Z.to_nat 0) with 0%nat. rewrite drop_0.
  replace (Z.to_nat (len data + p - p - 0)) with (length data) by (unfold len; lia).
  apply take_app_length.
Qed.

End PadTheorems.

(** X23.  Under every padding scheme [_addPadding] only appends: the data
    stay in front, between 1 and [blockSize] bytes follow, and the padded
    length is the next multiple of the block size above the data length (a
    full block is added to data that are already aligned). *)
Theorem addPadding_appends_to_next_block (random : Z -> Z) (blockSize : Z)
        (padding : CipherPadding) (data : list Z) :
  0 < blockSize -> padding <> OtherPadding ->
  exists pad,
    Session._addPadding (Ok blockSize) random padding data = Ok (data ++ pad)
    /\ 1 <= JS.len pad <= blockSize
    /\ JS.len (data ++ pad) = (JS.len data / blockSize + 1) * blockSize.
Proof.
  intros Hbs Hp.
  destruct (Session._addPadding (Ok blockSize) random padding data) as [padded|e] eqn:E.
  2:{ exfalso. unfold Session._addPadding in E. cbn [rbind] in E.
      destruct padding; try contradiction; revert E; apply (fun H => Throw_ne_Ok _ _ (eq_sym H)). }
  pose proof (addPadding_prefix random _ _ _ _ Hbs E) as Hpre.
  pose proof (addPadding_length random _ _ _ _ Hbs E) as Hlen.
  exists (drop (length data) padded).
  assert (Hsplit : padded = data ++ drop (length data) padded).
  { rewrite <- Hpre at 1. symmetry. apply take_drop. }
  rewrite <- Hsplit. split; [reflexivity|]. split; [|exact Hlen].
  unfold JS.len in *. rewrite length_drop.
  assert (Hd : 0 <= Z.of_nat (length data)) by lia.
  Z.to_euclidean_division_equations; nia.
Qed.

Lemma addPadding_appends_to_next_block_witness :
  exists pad,
    Session._addPadding (Ok 8) (fun _ => 77) ISO10126 [1; 2; 3] = Ok ([1; 2; 3] ++ pad)
    /\ 1 <= JS.len pad <= 8
    /\ JS.len ([1; 2; 3] ++ pad) = (JS.len [1; 2; 3] / 8 + 1) * 8.
Proof.
  apply (addPadding_appends_to_next_block (fun _ => 77) 8 ISO10126 [1; 2; 3]);
    [lia|discriminate].
Defined.

(** X24.  Zeros padding does not round-trip in general: [_removePadding]
    strips every trailing zero byte, the ones that belonged to the data
    included.  What comes back is the data without their trailing zeros, so
    the data come back unchanged exactly when they do not end in a zero
    byte. *)
Theorem zeros_padding_strips_data_zeros (random : Z -> Z) (blockSize : Z) (data : list Z) :
  0 < blockSize ->
  exists padded,
    Session._addPadding (Ok blockSize) random Zeros data = Ok padded
    /\ Session._removePadding (Ok blockSize) Zeros padded =
         Ok (take (length data - Z.to_nat (Session.trailingZeros data)) data)
    /\ (Session._removePadding (Ok blockSize) Zeros padded = Ok data
        <-> Session.trailingZeros data = 0).
Proof.
  intros Hbs. destruct (zeros_round_trip random blockSize data Hbs) as [Ha Hr].
  cbv zeta in Ha, Hr. eexists. split; [exact Ha|]. split; [exact Hr|].
  rewrite Hr. pose proof (leadingZeros_range (rev data)) as Hz.
  unfold JS.len in Hz. rewrite length_rev in Hz. fold (Session.trailingZeros data) in Hz.
  split.
  - intros H. apply Ok_inj in H. apply (f_equal length) in H.
    rewrite length_take in H. lia.
  - intros ->. f_equal. change (Z.to_nat 0) with 0%nat. rewrite Nat.sub_0_r.
    apply firstn_all.
Qed.

Lemma zeros_padding_strips_data_zeros_witness :
  exists padded,
    Session._addPadding (Ok 8) (fun _ => 0) Zeros [5; 0; 0] = Ok padded
    /\ Session._removePadding (Ok 8) Zeros padded =
         Ok (take (length [5; 0; 0] - Z.to_nat (Session.trailingZeros [5; 0; 0])) [5; 0; 0])
    /\ (Session._removePadding (Ok 8) Zeros padded = Ok [5; 0; 0]
        <-> Session.trailingZeros [5; 0; 0] = 0).
Proof. apply (zeros_padding_strips_data_zeros (fun _ => 0) 8 [5; 0; 0]). lia. Defined.

Lemma iso10126_padding_round_trip_witness :
  exists padded,
    Session._addPadding (Ok 16) (fun i => 3 * i + 1000) ISO10126 [9; 8; 7; 0; 0] = Ok padded
    /\ Session._removePadding (Ok 16) ISO10126 padded = Ok [9; 8; 7; 0; 0].
Proof.
  apply (iso10126_padding_round_trip (fun i => 3 * i + 1000) 16 [9; 8; 7; 0; 0]). lia.
Defined.

(** X25.  What [_removePadding] accepts.  On a non-empty buffer whose
    length is a multiple of the block size and whose last byte [p] lies
    between 1 and the block size: under ISO10126 the last [p] bytes are
    removed without looking at them; under ANSIX923 they are removed exactly
    when the [p - 1] bytes before the last one are zero, and the invalid-bytes
    error is thrown otherwise.  The final check that the padding is not
    longer than the data can never fire for such a buffer. *)
Theorem removePadding_accepts (blockSize : Z) (data : list Z) (p : Z) :
  0 < blockSize ->
  JS.rem (JS.len data) blockSize = 0 ->
  JS.idx data (JS.len data - 1) = Some p ->
  1 <= p <= blockSize ->
  p <= JS.len data
  /\ Session._removePadding (Ok blockSize) ISO10126 data =
       Ok (take (length data - Z.to_nat p) data)
  /\ ((forall j, 1 <= j < p -> JS.idx data (JS.len data - 1 - j) = Some 0) ->
      Session._removePadding (Ok blockSize) ANSIX923 data =
        Ok (take (length data - Z.to_nat p) data))
  /\ ((exists j, 1 <= j < p /\ JS.idx data (JS.len data - 1 - j) <> Some 0) ->
      Session._removePadding (Ok blockSize) ANSIX923 data =
        Throw (PaddingBytesInvalid ANSIX923)).
Proof.
  intros Hbs Hal Hlast Hp.
  assert (Hne : 0 < JS.len data).
  { unfold JS.idx in Hlast. destruct (Z.ltb_spec (JS.len data - 1) 0) as [Hneg|Hnn];
      [discriminate Hlast|lia]. }
  assert (Hlen : p <= JS.len data).
  { unfold JS.rem in Hal. rewrite Z.rem_mod_nonneg in Hal by lia.
    apply Z.mod_divide in Hal; [|lia]. destruct Hal as [q Hq].
    assert (1 <= q) by nia. nia. }
  assert (Hr : (p >? blockSize) || (p =? 0) = false).
  { rewrite Z.gtb_ltb. apply orb_false_intro; [apply Z.ltb_ge|apply Z.eqb_neq]; lia. }
  assert (Hslice : JS.slice data 0 (JS.len data - p) = take (length data - Z.to_nat p) data).
  { unfold JS.slice. change (Z.to_nat 0) with 0%nat. rewrite drop_0. f_equal.
    unfold JS.len. lia. }
  split; [exact Hlen|].
  unfold Session._removePadding. cbn [rbind]. rewrite Hal. cbn [Z.eqb negb].
  unfold Session.declaredPadding. rewrite Hlast, Hr. cbn [rbind].
  destruct (Z.ltb_spec (JS.len data) p) as [Hlt|_]; [lia|].
  split; [rewrite Hslice; reflexivity|]. split.
  - intros Hz. rewrite existsb_range_false.
    + cbn [rbind]. destruct (Z.ltb_spec (JS.len data) p) as [Hlt|_]; [lia|].
      rewrite Hslice. reflexivity.
    + intros i Hi. rewrite Hz by lia. reflexivity.
  - intros (j & Hj & Hne0).
    assert (Hex : existsb (fun j => Session.strictNe (JS.idx data (JS.len data - 1 - j)) 0)
                          (JS.range 1 (Z.to_nat (p - 1))) = true).
    { apply existsb_exists. exists j. split.
      - unfold JS.range. apply in_map_iff. exists (Z.to_nat (j - 1)).
        split; [lia|]. apply in_seq. lia.
      - destruct (JS.idx data (JS.len data - 1 - j)) as [y|]; [|reflexivity].
        cbn [Session.strictNe]. apply negb_true_iff, Z.eqb_neq. congruence. }
    rewrite Hex. reflexivity.
Qed.

Lemma removePadding_accepts_witness :
  3 <= JS.len [7; 7; 7; 7; 7; 9; 0; 3]
  /\ Session._removePadding (Ok 8) ISO10126 [7; 7; 7; 7; 7; 9; 0; 3] =
       Ok (take (length [7; 7; 7; 7; 7; 9; 0; 3] - Z.to_nat 3) [7; 7; 7; 7; 7; 9; 0; 3])
  /\ ((forall j, 1 <= j < 3 ->
         JS.idx [7; 7; 7; 7; 7; 9; 0; 3] (JS.len [7; 7; 7; 7; 7; 9; 0; 3] - 1 - j) = Some 0) ->
      Session._removePadding (Ok 8) ANSIX923 [7; 7; 7; 7; 7; 9; 0; 3] =
        Ok (take (length [7; 7; 7; 7; 7; 9; 0; 3] - Z.to_nat 3) [7; 7; 7; 7; 7; 9; 0; 3]))
  /\ ((exists j, 1 <= j < 3
                 /\ JS.idx [7; 7; 7; 7; 7; 9; 0; 3]
                      (JS.len [7; 7; 7; 7; 7; 9; 0; 3] - 1 - j) <> Some 0) ->
      Session._removePadding (Ok 8) ANSIX923 [7; 7; 7; 7; 7; 9; 0; 3] =
        Throw (PaddingBytesInvalid ANSIX923)).
Proof.
  apply (removePadding_accepts 8 [7; 7; 7; 7; 7; 9; 0; 3] 3);
    [lia|reflexivity|reflexivity|lia].
Defined.

(** ** [uploadBlockHeader] *)

Section Header.
Import JS BlockHeader.

Lemma setUint32_value v :
  let b := setUint32 v in
  length b = 4%nat /\ bytes b
  /\ ((b.[0] * 256 + b.[1]) * 256 + b.[2]) * 256 + b.[3] = ToUint32 v.
Proof.
  unfold setUint32. cbv zeta.
  pose proof (Z.mod_pos_bound v (2^32) eq_refl) as Hu. fold (ToUint32 v) in Hu.
  generalize dependent (ToUint32 v). intros u Hu.
  change (2^32) with 4294967296 in Hu. change (2^24) with 16777216.
  change (2^16) with 65536. change (2^8) with 256.
  split; [reflexivity|]. split.
  - unfold bytes. repeat (apply Forall_cons_2; [apply Z.mod_pos_bound; reflexivity|]).
    apply Forall_nil_2.
  - change ([u / 16777216 mod 256; u / 65536 mod 256; u / 256 mod 256; u mod 256].[0])
      with (u / 16777216 mod 256).
    change ([u / 16777216 mod 256; u / 65536 mod 256; u / 256 mod 256; u mod 256].[1])
      with (u / 65536 mod 256).
    change ([u / 16777216 mod 256; u / 65536 mod 256; u / 256 mod 256; u mod 256].[2])
      with (u / 256 mod 256).
    change ([u / 16777216 mod 256; u / 65536 mod 256; u / 256 mod 256; u mod 256].[3])
      with (u mod 256).
    Z.to_euclidean_division_equations. lia.
Qed.

Lemma setBigInt64_value v :
  let b := setBigInt64 v in
  length b = 8%nat /\ bytes b
  /\ bigEndian b = v mod 2^64.
Proof.
  unfold setBigInt64, bigEndian. cbv zeta.
  pose proof (Z.mod_pos_bound v (2^64) eq_refl) as Hu.
  generalize dependent (v mod 2^64). intros u Hu.
  cbn [map fold_left].
  change (2^64) with 18446744073709551616 in Hu.
  change (2 ^ (8 * 7)) with 72057594037927936. change (2 ^ (8 * 6)) with 281474976710656.
  change (2 ^ (8 * 5)) with 1099511627776. change (2 ^ (8 * 4)) with 4294967296.
  change (2 ^ (8 * 3)) with 16777216. change (2 ^ (8 * 2)) with 65536.
  change (2 ^ (8 * 1)) with 256. change (2 ^ (8 * 0)) with 1.
  split; [reflexivity|]. split.
  - unfold bytes. repeat (apply Forall_cons_2; [apply Z.mod_pos_bound; reflexivity|]).
    apply Forall_nil_2.
  - Z.to_euclidean_division_equations. lia.
Qed.

End Header.

Section HeaderLayout.
Import JS BlockHeader.

Lemma getUint32_app b rest :
  length b = 4%nat ->
  Session.getUint32 (b ++ rest) =
    Ok (((b.[0] * 256 + b.[1]) * 256 + b.[2]) * 256 + b.[3]).
Proof.
  intros Hl. do 4 (destruct b as [|? b]; [discriminate Hl|]).
  destruct b; [|discriminate Hl]. unfold Session.getUint32, len.
  cbn [app length].
  destruct (Z.ltb_spec (Z.of_nat (S (S (S (S (length rest)))))) 4); [lia|].
  reflexivity.
Qed.

End HeaderLayout.

(** X26.  [uploadBlockHeader] puts a 16-byte header in front of the data:
    [receiver_id] and [blockId] as unsigned 32-bit big-endian numbers
    (reduced modulo 2^32), then the date as a 64-bit big-endian number.
    The number that the CTR branch reads from the start of a block as its
    counter offset is therefore [receiver_id], and since that branch skips
    32 bytes, it also skips the first 16 bytes of the data. *)
Theorem uploadBlockHeader_layout (blockId date receiver_id : Z) (data : list Z) :
  let block := BlockHeader.uploadBlockHeader blockId date receiver_id data in
  JS.len block = 16 + JS.len data
  /\ bytes (take 16 block)
  /\ drop 16 block = data
  /\ Session.getUint32 block = Ok (JS.ToUint32 receiver_id)
  /\ Session.getUint32 (drop 4 block) = Ok (JS.ToUint32 blockId)
  /\ bigEndian (take 8 (drop 8 block)) = date mod 2^64
  /\ JS.slice_from block 32 = drop 16 data.
Proof.
  cbv zeta. unfold BlockHeader.uploadBlockHeader.
  destruct (setUint32_value receiver_id) as (Hl1 & Hb1 & Hv1).
  destruct (setUint32_value blockId) as (Hl2 & Hb2 & Hv2).
  destruct (setBigInt64_value date) as (Hl3 & Hb3 & Hv3).
  generalize dependent (BlockHeader.setUint32 receiver_id). intros h1 Hl1 Hb1 Hv1.
  generalize dependent (BlockHeader.setUint32 blockId). intros h2 Hl2 Hb2 Hv2.
  generalize dependent (BlockHeader.setBigInt64 date). intros h3 Hl3 Hb3 Hv3.
  assert (Hlh : length (h1 ++ h2 ++ h3) = 16%nat) by (rewrite !length_app; lia).
  split; [unfold JS.len; rewrite length_app; lia|].
  split.
  { rewrite take_app_length' by (symmetry; exact Hlh). unfold bytes in *.
    apply Forall_app; split; [exact Hb1|]. apply Forall_app; split; assumption. }
  split; [apply drop_app_length'; symmetry; exact Hlh|].
  split; [rewrite <- !app_assoc, getUint32_app, Hv1 by exact Hl1; reflexivity|].
  split.
  { rewrite <- !app_assoc. rewrite drop_app_length' by (symmetry; exact Hl1).
    rewrite getUint32_app, Hv2 by exact Hl2. reflexivity. }
  split.
  { rewrite <- !app_assoc.
    replace 8%nat with (length h1 + length h2)%nat at 2 by lia.
    rewrite (app_assoc h1 h2), drop_app_length' by (rewrite length_app; lia).
    rewrite take_app_length' by (symmetry; exact Hl3). exact Hv3. }
  unfold JS.slice_from. change (Z.to_nat 32) with (16 + 16)%nat.
  rewrite <- drop_drop. rewrite drop_app_length' by (symmetry; exact Hlh). reflexivity.
Qed.

(** ** keys_worker.ts: [modPow] and the Diffie-Hellman keys *)

Section ModPow.
Import JS KeysWorker.

Lemma pow_rem b n m : m <> 0 -> 0 <= n -> Z.rem (Z.rem b m ^ n) m = Z.rem (b ^ n) m.
Proof.
  intros Hm Hn. revert n Hn. apply natlike_ind; [reflexivity|].
  intros n Hn IH. rewrite !Z.pow_succ_r by exact Hn.
  rewrite Z.mul_rem, IH, Z.rem_rem by exact Hm.
  symmetry. apply Z.mul_rem. exact Hm.
Qed.

Lemma modPow_loop_S n b e m r :
  modPow_loop (S n) b e m r =
    if e >? 0
    then modPow_loop n (rem (b * b) m) (Z.shiftr e 1) m
           (if rem e 2 =? 1 then rem (r * b) m else r)
    else r.
Proof. reflexivity. Qed.

Lemma modPow_loop_spec m (Hm : m <> 0) (n : nat) : forall b e r,
  0 <= e < 2 ^ Z.of_nat n -> Z.rem r m = r ->
  modPow_loop n b e m r = Z.rem (r * b ^ e) m.
Proof.
  induction n as [|n IH]; intros b e r He Hr.
  - change (2 ^ Z.of_nat 0) with 1 in He. replace e with 0 by lia.
    cbn [modPow_loop]. rewrite Z.pow_0_r, Z.mul_1_r. symmetry. exact Hr.
  - rewrite modPow_loop_S. destruct (Z.gtb_spec e 0) as [Hpos|Hle].
    2:{ replace e with 0 by lia. rewrite Z.pow_0_r, Z.mul_1_r. symmetry. exact Hr. }
    assert (Hhalf : Z.shiftr e 1 = e / 2) by (rewrite Z.shiftr_div_pow2 by lia; reflexivity).
    assert (Hsplit : e = 2 * (e / 2) + e mod 2) by (apply Z.div_mod; lia).
    assert (Hd : 0 <= e mod 2 < 2) by (apply Z.mod_pos_bound; lia).
    assert (He' : 0 <= e / 2 < 2 ^ Z.of_nat n).
    { rewrite Nat2Z.inj_succ, Z.pow_succ_r in He by lia.
      split; [apply Z.div_pos; lia|apply Z.div_lt_upper_bound; lia]. }
    unfold rem. rewrite (Z.rem_mod_nonneg e 2) by lia. rewrite Hhalf.
    rewrite IH; [|exact He'|destruct (e mod 2 =? 1); [apply Z.rem_rem|]; assumption].
    assert (Hsq : forall x, Z.rem (x * Z.rem (b * b) m ^ (e / 2)) m
                            = Z.rem (x * (b * b) ^ (e / 2)) m).
    { intros x. rewrite Z.mul_rem, pow_rem by lia. symmetry. apply Z.mul_rem. exact Hm. }
    rewrite Hsq.
    assert (Hpow : (b * b) ^ (e / 2) = b ^ (2 * (e / 2))).
    { rewrite Z.pow_mul_r by lia. f_equal. lia. }
    destruct (Z.eqb_spec (e mod 2) 1) as [H1|H0].
    + rewrite Z.mul_rem_idemp_l by exact Hm. f_equal.
      rewrite Hsplit at 2. rewrite H1, Z.pow_add_r, Z.pow_1_r, Hpow by lia. lia.
    + f_equal. rewrite Hsplit at 2. replace (e mod 2) with 0 by lia.
      rewrite Z.add_0_r, Hpow. reflexivity.
Qed.

Lemma log2_fuel e : 0 <= e -> 0 <= e < 2 ^ Z.of_nat (S (Z.to_nat (Z.log2 e))).
Proof.
  intros He. split; [exact He|].
  rewrite Nat2Z.inj_succ, Z2Nat.id by apply Z.log2_nonneg.
  destruct (Z.eq_dec e 0) as [->|Hne]; [reflexivity|].
  apply Z.log2_spec. lia.
Qed.

Lemma modPow_eq b e m :
  0 <= e -> 0 < m -> modPow b e m = Ok (Z.rem (b ^ e) m).
Proof.
  intros He Hm. unfold modPow.
  destruct (Z.eqb_spec m 1) as [->|H1]; [rewrite Z.rem_1_r; reflexivity|].
  destruct (Z.eqb_spec m 0) as [->|H0]; [lia|]. f_equal.
  rewrite (modPow_loop_spec m H0) by (apply log2_fuel, He || (apply Z.rem_small; lia)).
  unfold rem. rewrite Z.mul_1_l. apply pow_rem; assumption.
Qed.

Lemma randomValue_nonneg (f : Z -> Z) l :
  (forall i, 0 <= f i) -> forall acc, 0 <= acc ->
  0 <= fold_left (fun randomValue i => Z.lor (Z.shiftl randomValue 8) (f i)) l acc.
Proof.
  intros Hf. induction l as [|i l IH]; intros acc Hacc; [exact Hacc|].
  cbn [fold_left]. apply IH. apply Z.lor_nonneg. split; [|apply Hf].
  apply Z.shiftl_nonneg. exact Hacc.
Qed.

Lemma generateRandomBigInt_range getRandomValues max :
  0 < max ->
  exists a, generateRandomBigInt getRandomValues max = Ok a /\ 0 <= a < max.
Proof.
  intros Hmax. unfold generateRandomBigInt. cbv zeta.
  destruct (Z.eqb_spec max 0); [lia|]. eexists. split; [reflexivity|].
  unfold rem. apply Z.rem_bound_pos; [|exact Hmax].
  apply randomValue_nonneg; [|lia].
  intros i. apply get_byte. unfold bytes. apply List.Forall_forall. intros x Hx.
  apply in_map_iff in Hx. destruct Hx as (j & <- & _). apply ToUint8_range.
Qed.

End ModPow.

(** X27.  [modPow] is modular exponentiation: for an exponent that is not
    negative and a positive modulus it returns [base ^ exponent] reduced
    with the remainder of [%] (the usual residue when the base is not
    negative), and the loop has ended after one turn per binary digit of
    the exponent: more turns give the same value. *)
Theorem modPow_is_power (base exponent modulus : Z) (n : nat) :
  0 <= exponent -> 0 < modulus -> (S (Z.to_nat (Z.log2 exponent)) <= n)%nat ->
  KeysWorker.modPow base exponent modulus = Ok (Z.rem (base ^ exponent) modulus)
  /\ (0 <= base -> Z.rem (base ^ exponent) modulus = base ^ exponent mod modulus)
  /\ (modulus <> 1 ->
      KeysWorker.modPow_loop n (JS.rem base modulus) exponent modulus 1 =
        Z.rem (base ^ exponent) modulus).
Proof.
  intros He Hm Hn. split; [apply modPow_eq; assumption|]. split.
  - intros Hb. apply Z.rem_mod_nonneg; [apply Z.pow_nonneg; exact Hb|exact Hm].
  - intros H1. rewrite (modPow_loop_spec modulus) by
      (lia || (apply Z.rem_small; lia) ||
       (pose proof (log2_fuel exponent He) as [H0 Hlt]; split; [exact H0|];
        eapply Z.lt_le_trans; [exact Hlt|]; apply Z.pow_le_mono_r; lia)).
    unfold JS.rem. rewrite Z.mul_1_l. apply pow_rem; lia.
Qed.

Lemma modPow_is_power_witness :
  KeysWorker.modPow 5 117 23 = Ok (Z.rem (5 ^ 117) 23)
  /\ (0 <= 5 -> Z.rem (5 ^ 117) 23 = 5 ^ 117 mod 23)
  /\ (23 <> 1 -> KeysWorker.modPow_loop 64 (JS.rem 5 23) 117 23 1 = Z.rem (5 ^ 117) 23).
Proof. apply (modPow_is_power 5 117 23 64); [lia|lia|]. vm_compute. lia. Defined.

(** X28.  Diffie-Hellman agreement.  For a modulus [p > 1] and any
    generator, whatever bytes the random source delivers to the two
    parties, [generateDHKeys] returns for each a private key in
    [0, p - 2] and a public key, and raising the other party's public key
    to one's own private key with [modPow] gives both the same secret. *)
Theorem diffie_hellman_agreement (random1 random2 : Z -> Z) (p g : Z) :
  1 < p ->
  exists A a B b s,
    KeysWorker.generateDHKeys random1 p g = Ok (A, a)
    /\ KeysWorker.generateDHKeys random2 p g = Ok (B, b)
    /\ 0 <= a < p - 1 /\ 0 <= b < p - 1
    /\ KeysWorker.modPow B a p = Ok s /\ KeysWorker.modPow A b p = Ok s.
Proof.
  intros Hp. unfold KeysWorker.generateDHKeys.
  destruct (generateRandomBigInt_range random1 (p - 1) ltac:(lia)) as (a & -> & Ha).
  destruct (generateRandomBigInt_range random2 (p - 1) ltac:(lia)) as (b & -> & Hb).
  cbn [rbind]. rewrite !modPow_eq by lia. cbn [rbind].
  exists (Z.rem (g ^ a) p), a, (Z.rem (g ^ b) p), b, (Z.rem (g ^ (a * b)) p).
  split; [reflexivity|]. split; [reflexivity|]. split; [exact Ha|]. split; [exact Hb|].
  rewrite !modPow_eq by lia. rewrite !pow_rem by lia.
  rewrite <- !Z.pow_mul_r by lia. rewrite (Z.mul_comm b a). split; reflexivity.
Qed.

Lemma diffie_hellman_agreement_witness :
  exists A a B b s,
    KeysWorker.generateDHKeys (fun i => 3 * i + 200) 2147483647 7 = Ok (A, a)
    /\ KeysWorker.generateDHKeys (fun i => 91 - i) 2147483647 7 = Ok (B, b)
    /\ 0 <= a < 2147483647 - 1 /\ 0 <= b < 2147483647 - 1
    /\ KeysWorker.modPow B a 2147483647 = Ok s /\ KeysWorker.modPow A b 2147483647 = Ok s.
Proof.
  apply (diffie_hellman_agreement (fun i => 3 * i + 200) (fun i => 91 - i) 2147483647 7). lia.
Defined.

(** ** The block engines as bijections, and blocks of the wrong length *)

Section TwoFishBijection.
Import JS Bits TwoFish.

(** A round of decryption on a full table, with the round keys set,
    returns 32-bit words, and the same round of encryption undoes it. *)
Lemma decryptRound_inverse sb rk w r :
  4 <= len sb -> int32_words w ->
  exists w', decryptRound sb (Some rk) w r = Ok w' /\ int32_words w'
             /\ encryptRound sb rk w' r = Ok w.
Proof.
  intros Hsb. destruct w as [[[w0 w1] w2] w3]. intros (H0 & H1 & H2 & H3).
  unfold encryptRound, decryptRound.
  destruct (r <? NUM_ROUNDS - 1).
  - destruct (gFunction_returns sb w2 Hsb) as [t0 E0].
    destruct (gFunction_returns sb (rot w3 8) Hsb) as [t1 E1].
    rewrite E0, E1. cbn [rbind roundKeysArray].
    destruct (PHT t0 t1) as [f0 f1] eqn:E.
    eexists. split; [reflexivity|].
    split; [refine (conj _ (conj _ (conj _ _)));
            first [assumption | apply rot_int32 | apply bxor_int32]|].
    rewrite E0, E1. cbn [rbind]. rewrite E. apply f_equal.
    rewrite !bxor_cancel by first [assumption | apply rot_int32].
    rewrite rot_right_left by assumption.
    rewrite rot_left_right by apply bxor_int32.
    rewrite !bxor_cancel by first [assumption | apply rot_int32]. reflexivity.
  - destruct (gFunction_returns sb w0 Hsb) as [t0 E0].
    destruct (gFunction_returns sb (rot w1 8) Hsb) as [t1 E1].
    rewrite E0, E1. cbn [rbind roundKeysArray].
    destruct (PHT t0 t1) as [f0 f1] eqn:E.
    eexists. split; [reflexivity|].
    split; [refine (conj _ (conj _ (conj _ _)));
            first [assumption | apply rot_int32 | apply bxor_int32]|].
    rewrite E0, E1. cbn [rbind]. rewrite E. apply f_equal.
    rewrite !bxor_cancel by first [assumption | apply rot_int32].
    rewrite rot_right_left by assumption.
    rewrite rot_left_right by apply bxor_int32.
    rewrite !bxor_cancel by first [assumption | apply rot_int32]. reflexivity.
Qed.

(** With a full table and no round keys, the first round of decryption
    throws at its read of the keys. *)
Lemma decryptRound_no_keys sb w r :
  4 <= len sb -> decryptRound sb None w r = Throw RoundKeysNotDefined.
Proof.
  intros Hsb. destruct w as [[[w0 w1] w2] w3]. unfold decryptRound.
  destruct (r <? NUM_ROUNDS - 1).
  - destruct (gFunction_returns sb w2 Hsb) as [t0 E0].
    destruct (gFunction_returns sb (rot w3 8) Hsb) as [t1 E1].
    rewrite E0, E1. cbn [rbind]. destruct (PHT t0 t1). reflexivity.
  - destruct (gFunction_returns sb w0 Hsb) as [t0 E0].
    destruct (gFunction_returns sb (rot w1 8) Hsb) as [t1 E1].
    rewrite E0, E1. cbn [rbind]. destruct (PHT t0 t1). reflexivity.
Qed.

(** When [decryptBlock] returns, the table has four rows and the round
    keys are set. *)
Lemma decryptBlock_Ok ke c round_keys p :
  decryptBlock ke c round_keys = Ok p ->
  exists sb rk, Iface.sBoxes_ ke = Some sb /\ Iface.roundKeys_ ke = Some rk
                /\ 4 <= len sb /\ length c = 16%nat.
Proof.
  unfold decryptBlock.
  destruct (Iface.sBoxes_ ke) as [sb|]; [|intros H; exfalso; revert H; apply Throw_ne_Ok].
  destruct (Z.eqb_spec (len c) BLOCK_SIZE_BYTES) as [Hl|Hl]; cbn [negb];
    [|intros H; exfalso; revert H; apply Throw_ne_Ok].
  rewrite rev_rounds_cons.
  destruct (Z.lt_ge_cases (len sb) 4) as [Hlt|Hge].
  { rewrite (forEach_throws _ TypeError) by (intros; apply decryptRound_throws, Hlt).
    intros H; exfalso; revert H; apply Throw_ne_Ok. }
  destruct (Iface.roundKeys_ ke) as [rk|].
  - intros _. exists sb, rk. split; [reflexivity|]. split; [reflexivity|].
    split; [exact Hge|]. unfold len, BLOCK_SIZE_BYTES in Hl. lia.
  - rewrite (forEach_throws _ RoundKeysNotDefined)
      by (intros; apply decryptRound_no_keys, Hge).
    intros H; exfalso; revert H; apply Throw_ne_Ok.
Qed.

Lemma twoFish_encryptBlock_decryptBlock ke c round_keys p :
  bytes c -> decryptBlock ke c round_keys = Ok p -> encryptBlock ke p round_keys = Ok c.
Proof.
  intros Hb Hdec.
  destruct (decryptBlock_Ok ke c round_keys p Hdec) as (sb & rk & Hs & Hr & Hge & Hl).
  destruct (forEach_inverse int32_words (decryptRound sb (Some rk)) (encryptRound sb rk)
              (rev (range 0 (Z.to_nat NUM_ROUNDS)))
              (fun s r => decryptRound_inverse sb rk s r Hge)
              (whiten round_keys 4 (unpack c)) (whiten_int32 _ _ _)) as (w & D & Hw & E).
  rewrite rev_involutive in E.
  revert Hdec. unfold encryptBlock, decryptBlock. rewrite Hs, Hr, D.
  unfold len. rewrite Hl. change (Z.of_nat 16 =? BLOCK_SIZE_BYTES) with true.
  cbn [negb rbind]. intros H. apply Ok_inj in H. subst p.
  rewrite unpack_pack by apply whiten_int32.
  rewrite whiten_involutive by exact Hw.
  rewrite E. cbn [rbind]. apply f_equal.
  rewrite whiten_involutive by (apply unpack_int32, Hl).
  apply pack_unpack; assumption.
Qed.

(** With the round keys set and a full table, [decryptBlock] returns a
    block for every input of 16 bytes. *)
Lemma decryptBlock_returns ke c round_keys sb rk :
  Iface.sBoxes_ ke = Some sb -> Iface.roundKeys_ ke = Some rk -> 4 <= len sb ->
  length c = 16%nat ->
  exists p, decryptBlock ke c round_keys = Ok p /\ length p = 16%nat.
Proof.
  intros Hs Hr Hge Hl. unfold decryptBlock. rewrite Hs, Hr.
  unfold len. rewrite Hl. change (Z.of_nat 16 =? BLOCK_SIZE_BYTES) with true. cbn [negb].
  destruct (forEach_inverse int32_words (decryptRound sb (Some rk)) (encryptRound sb rk)
              (rev (range 0 (Z.to_nat NUM_ROUNDS)))
              (fun s r => decryptRound_inverse sb rk s r Hge)
              (whiten round_keys 4 (unpack c)) (whiten_int32 _ _ _)) as (w & D & _ & _).
  rewrite D. cbn [rbind]. eexists. split; [reflexivity|]. apply length_pack.
Qed.

(** [encryptBlock] reads bytes 0 to 15 of its input and treats a missing
    byte as zero. *)
Lemma get_zero_extended (blk : list Z) n i :
  0 <= i < Z.of_nat n -> (take n (blk ++ replicate n 0)).[i] = blk.[i].
Proof.
  intros Hi. unfold get, idx. replace (i <? 0) with false by lia.
  rewrite lookup_take_lt by lia.
  destruct (Nat.lt_ge_cases (Z.to_nat i) (length blk)) as [Hlt|Hge].
  - rewrite lookup_app_l by exact Hlt. reflexivity.
  - rewrite lookup_app_r by exact Hge. rewrite lookup_replicate_2 by lia.
    rewrite lookup_ge_None_2 by exact Hge. reflexivity.
Qed.

Lemma get_map_seq (f : nat -> Z) (n j : nat) :
  (map f (seq 0 n)).[Z.of_nat j] = if (j <? n)%nat then f j else 0.
Proof.
  unfold get. rewrite idx_of_nat, list_lookup_fmap.
  destruct (Nat.ltb_spec j n) as [Hlt|Hge].
  - rewrite lookup_seq_lt by exact Hlt. reflexivity.
  - rewrite lookup_seq_ge by exact Hge. reflexivity.
Qed.

Lemma word_of_zero : word_of 0 0 0 0 = 0.
Proof. reflexivity. Qed.

Lemma bytesToWords_get (blk : list Z) (j : nat) :
  (j < 4)%nat ->
  (bytesToWords blk).[Z.of_nat j] =
    word_of blk.[4 * Z.of_nat j] blk.[4 * Z.of_nat j + 1]
            blk.[4 * Z.of_nat j + 2] blk.[4 * Z.of_nat j + 3].
Proof.
  intros Hj. unfold bytesToWords. rewrite get_map_seq. cbv zeta.
  destruct (Nat.ltb_spec j ((length blk + 3) / 4)) as [Hlt|Hge].
  - unfold word_of. reflexivity.
  - assert (Hlen : (length blk <= 4 * j)%nat).
    { pose proof (Nat.div_mod_eq (length blk + 3) 4) as Hd.
      pose proof (Nat.mod_upper_bound (length blk + 3) 4 ltac:(lia)). lia. }
    rewrite !get_beyond by (unfold len; lia). symmetry. apply word_of_zero.
Qed.

Lemma bytesToWords_word (blk : list Z) (i : Z) :
  0 <= i < 4 ->
  (bytesToWords blk).[i] = word_of blk.[4 * i] blk.[4 * i + 1] blk.[4 * i + 2] blk.[4 * i + 3].
Proof.
  intros Hi. rewrite <- (Z2Nat.id i) by lia. apply bytesToWords_get. lia.
Qed.

Lemma unpack_zero_extended blk : unpack (take 16 (blk ++ replicate 16 0)) = unpack blk.
Proof.
  unfold unpack. cbv zeta. rewrite !bytesToWords_word by lia.
  rewrite !get_zero_extended by lia. reflexivity.
Qed.

End TwoFishBijection.

Section MacGuffinBijection.
Import JS Bits MacGuffin.

Variable LOOKUP_MASKS : MaskTable.
Variable OUTPUT_MASKS : list Z.
Variable stable_ : list Z.
Hypothesis stable_uint16 : uint16s stable_.

Lemma decryptGroup_uint16 ek r i :
  uint16_regs r -> uint16_regs (decryptGroup LOOKUP_MASKS OUTPUT_MASKS stable_ ek r i).
Proof.
  destruct r as [[[r0 r1] r2] r3]. intros (H0 & H1 & H2 & H3).
  unfold decryptGroup.
  refine (conj _ (conj _ (conj _ _))); apply bxor_uint16;
    first [assumption | apply f_optimized_uint16; assumption].
Qed.

Lemma encryptGroup_decryptGroup ek r i :
  uint16_regs r ->
  encryptGroup LOOKUP_MASKS OUTPUT_MASKS stable_ ek
    (decryptGroup LOOKUP_MASKS OUTPUT_MASKS stable_ ek r i) i = r.
Proof.
  destruct r as [[[r0 r1] r2] r3]. intros (H0 & H1 & H2 & H3).
  unfold encryptGroup, decryptGroup. cbv zeta.
  rewrite (bxor_cancel r0) by (apply uint16_int32, H0).
  rewrite (bxor_cancel r1) by (apply uint16_int32, H1).
  rewrite (bxor_cancel r2) by (apply uint16_int32, H2).
  rewrite (bxor_cancel r3) by (apply uint16_int32, H3).
  reflexivity.
Qed.

Lemma fold_decryptGroup_uint16 ek l r :
  uint16_regs r ->
  uint16_regs (fold_left (decryptGroup LOOKUP_MASKS OUTPUT_MASKS stable_ ek) l r).
Proof.
  revert r. induction l as [|i l IH]; intros r Hr; [exact Hr|].
  cbn [fold_left]. apply IH, decryptGroup_uint16, Hr.
Qed.

Lemma macGuffin_encryptBlock_decryptBlock key blk :
  bytes blk -> length blk = 8%nat ->
  encryptBlock LOOKUP_MASKS OUTPUT_MASKS stable_
    (decryptBlock LOOKUP_MASKS OUTPUT_MASKS stable_ blk key) key = blk.
Proof.
  intros Hb Hl. unfold decryptBlock, encryptBlock. cbv zeta.
  rewrite load_store by (apply fold_decryptGroup_uint16, load_uint16; assumption).
  rewrite <- (rev_involutive (range 0 (Z.to_nat (NUM_ROUNDS / 4)))) at 1.
  rewrite (fold_left_inverse uint16_regs).
  - apply store_load; assumption.
  - intros. apply decryptGroup_uint16. assumption.
  - intros. apply encryptGroup_decryptGroup. assumption.
  - apply load_uint16; assumption.
Qed.

End MacGuffinBijection.

Section ShortBlocks.
Import JS Bits MacGuffin.

Lemma load_zero_extended blk : load (take 8 (blk ++ replicate 8 0)) = load blk.
Proof. unfold load. rewrite !get_zero_extended by lia. reflexivity. Qed.

End ShortBlocks.

(** X29.  Both block engines are bijections of the blocks: besides
    [decryptBlock] undoing [encryptBlock], [encryptBlock] undoes
    [decryptBlock].  For twoFish with the round keys set and an S-box table
    of four rows, every 16-byte block decrypts to a 16-byte block that
    encrypts back to it; with a table of fewer rows neither function
    returns: the first round throws on the missing row.  For MacGuffin
    (with a table of 16-bit entries) [encryptBlock] undoes [decryptBlock]
    on 8-byte blocks. *)
Theorem encryptBlock_inverts_decryptBlock
        (ke : Iface.IKeyExpansion (list Z)) (sb : list (list Z)) (rk round_keys cA : list Z)
        (LOOKUP_MASKS : MacGuffin.MaskTable) (OUTPUT_MASKS stable_ : list Z)
        (key : MacGuffin.MacGuffinKey) (cB : list Z) :
  Iface.sBoxes_ ke = Some sb -> Iface.roundKeys_ ke = Some rk -> 4 <= JS.len sb ->
  bytes cA -> length cA = 16%nat ->
  uint16s stable_ -> bytes cB -> length cB = 8%nat ->
  (exists p, TwoFish.decryptBlock ke cA round_keys = Ok p /\ length p = 16%nat
             /\ TwoFish.encryptBlock ke p round_keys = Ok cA)
  /\ (forall ke' sb' rk' blk,
        Iface.sBoxes_ ke' = Some sb' -> Iface.roundKeys_ ke' = Some rk' -> JS.len sb' < 4 ->
        TwoFish.encryptBlock ke' blk round_keys = Throw TypeError
        /\ TwoFish.decryptBlock ke' cA round_keys = Throw TypeError)
  /\ MacGuffin.encryptBlock LOOKUP_MASKS OUTPUT_MASKS stable_
       (MacGuffin.decryptBlock LOOKUP_MASKS OUTPUT_MASKS stable_ cB key) key = cB.
Proof.
  intros Hsb Hrk Hrows HbA HlA Hst HbB HlB. split; [|split].
  - destruct (decryptBlock_returns ke cA round_keys sb rk Hsb Hrk Hrows HlA) as (p & E & Hp).
    exists p. split; [exact E|]. split; [exact Hp|].
    apply twoFish_encryptBlock_decryptBlock; assumption.
  - intros ke' sb' rk' blk Hsb' Hrk' Hlt. split.
    + apply (encryptBlock_throws ke' blk round_keys sb' rk'); assumption.
    + apply (decryptBlock_throws ke' cA round_keys sb'); [exact Hsb'| |exact Hlt].
      unfold JS.len. rewrite HlA. reflexivity.
  - apply macGuffin_encryptBlock_decryptBlock; assumption.
Qed.

Lemma encryptBlock_inverts_decryptBlock_witness :
  let MS := TwoFish.vectorsMS [1; 2; 3; 4; 5; 6; 7; 8; 9; 10; 11; 12; 13; 14; 15; 16] in
  let sb := TwoFish.generateSBoxesInternal (snd MS) in
  let rk := TwoFish.generateRoundKeysInternal (fst MS) in
  let ke := {| Iface.sBoxes_ := Some sb; Iface.roundKeys_ := Some rk |} in
  (exists p, TwoFish.decryptBlock ke (replicate 16 1) rk = Ok p /\ length p = 16%nat
             /\ TwoFish.encryptBlock ke p rk = Ok (replicate 16 1))
  /\ (forall ke' sb' rk' blk,
        Iface.sBoxes_ ke' = Some sb' -> Iface.roundKeys_ ke' = Some rk' -> JS.len sb' < 4 ->
        TwoFish.encryptBlock ke' blk rk = Throw TypeError
        /\ TwoFish.decryptBlock ke' (replicate 16 1) rk = Throw TypeError)
  /\ MacGuffin.encryptBlock sampleMasks sampleOutputMasks sampleStable
       (MacGuffin.decryptBlock sampleMasks sampleOutputMasks sampleStable (replicate 8 2)
          sampleKey) sampleKey = replicate 8 2.
Proof.
  intros MS sb rk ke.
  apply (encryptBlock_inverts_decryptBlock ke sb rk rk (replicate 16 1)
           sampleMasks sampleOutputMasks sampleStable sampleKey (replicate 8 2)).
  - reflexivity.
  - reflexivity.
  - unfold sb. rewrite generateSBoxesInternal_eq. unfold JS.len.
    rewrite length_replicate. lia.
  - apply Forall_replicate. lia.
  - reflexivity.
  - exact sampleStable_uint16.
  - apply Forall_replicate. lia.
  - reflexivity.
Defined.

(** X30.  Neither engine checks the length of a block it encrypts:
    [encryptBlock] reads the first 16 (twoFish) or 8 (MacGuffin) bytes and
    takes a missing byte as zero, so a short block is encrypted as if padded
    with zeros and the excess of a long block is ignored.  MacGuffin's
    [decryptBlock] does the same, while twoFish's rejects every block that is
    not 16 bytes long. *)
Theorem encryptBlock_ignores_block_length
        (ke : Iface.IKeyExpansion (list Z)) (round_keys blk : list Z)
        (LOOKUP_MASKS : MacGuffin.MaskTable) (OUTPUT_MASKS stable_ : list Z)
        (key : MacGuffin.MacGuffinKey) :
  TwoFish.encryptBlock ke blk round_keys =
    TwoFish.encryptBlock ke (take 16 (blk ++ replicate 16 0)) round_keys
  /\ MacGuffin.encryptBlock LOOKUP_MASKS OUTPUT_MASKS stable_ blk key =
       MacGuffin.encryptBlock LOOKUP_MASKS OUTPUT_MASKS stable_
         (take 8 (blk ++ replicate 8 0)) key
  /\ MacGuffin.decryptBlock LOOKUP_MASKS OUTPUT_MASKS stable_ blk key =
       MacGuffin.decryptBlock LOOKUP_MASKS OUTPUT_MASKS stable_
         (take 8 (blk ++ replicate 8 0)) key
  /\ (JS.len blk <> 16 ->
      exists e, TwoFish.decryptBlock ke blk round_keys = Throw e
                /\ (Iface.sBoxes_ ke <> None -> e = BadCiphertextLength)).
Proof.
  split; [|split; [|split]].
  - unfold TwoFish.encryptBlock. rewrite unpack_zero_extended. reflexivity.
  - unfold MacGuffin.encryptBlock. rewrite load_zero_extended. reflexivity.
  - unfold MacGuffin.decryptBlock. rewrite load_zero_extended. reflexivity.
  - intros Hl. unfold TwoFish.decryptBlock.
    destruct (Iface.sBoxes_ ke) as [sb|]; [|eexists; split; [reflexivity|congruence]].
    destruct (Z.eqb_spec (JS.len blk) TwoFish.BLOCK_SIZE_BYTES) as [E|_];
      [unfold TwoFish.BLOCK_SIZE_BYTES in E; lia|].
    eexists. split; reflexivity.
Qed.


